(** * v2ex_api_parser: a shallow embedding of [src/index.js]

    The development follows the class [V2exParser]:
    - [Js]: JavaScript strings as sequences of UTF-16 code units, with the
      string primitives the parser calls ([trim], [includes], [substring],
      ...);
    - [Regex]: the fragment of ECMAScript regular expressions that occurs in
      the source, with the backtracking matcher of the language
      specification, a declarative matching relation, and the global
      drivers behind [String.prototype.replace], [String.prototype.match]
      and [RegExp.prototype.exec];
    - [V2exParser]: the methods of the class.  The HTTP transport (axios)
      and the DOM query engine (cheerio) are outside the repository: a
      fetched document is the record of the values the selectors of the
      source locate in it, and the transport is an oracle in the world
      state.  Console output and wall-clock timestamps are not modelled. *)

From Stdlib Require Import String Ascii.
From Stdlib Require Import DecimalString.
From Stdlib Require Import List NArith ZArith Bool Lia PeanoNat.
From Stdlib Require Import Sorted.
Import ListNotations.

Set Implicit Arguments.

(* ================================================================== *)
(** * JavaScript strings *)
(* ================================================================== *)
Module Js.

(** A JavaScript string is a sequence of UTF-16 code units. *)
Definition char := N.
Definition jsstring := list char.

Definition ch (a : ascii) : char := N_of_ascii a.
Arguments ch a%_char.

(** ASCII literals of the source, as code units. *)
Definition js (s : string) : jsstring := map N_of_ascii (list_ascii_of_string s).
Arguments js s%_string.

Definition char_eqb (a b : char) : bool := N.eqb a b.

Fixpoint str_eqb (a b : jsstring) : bool :=
  match a, b with
  | [], [] => true
  | x :: a', y :: b' => char_eqb x y && str_eqb a' b'
  | _, _ => false
  end.

Definition between (lo hi : ascii) (c : char) : bool :=
  (N.leb (N_of_ascii lo) c && N.leb c (N_of_ascii hi))%bool.
Arguments between lo%_char hi%_char c.

(** WhiteSpace and LineTerminator code units: the class [\s] of regular
    expressions and the characters removed by [String.prototype.trim]. *)
Definition isWhiteSpace (c : char) : bool :=
  (N.leb 9 c && N.leb c 13
   || N.eqb c 32 || N.eqb c 160 || N.eqb c 5760
   || N.leb 8192 c && N.leb c 8202
   || N.eqb c 8232 || N.eqb c 8233 || N.eqb c 8239 || N.eqb c 8287
   || N.eqb c 12288 || N.eqb c 65279)%bool.

Definition isDigit (c : char) : bool := between "0" "9" c.

(** ASCII letters in either case match under the [i] flag; every other code
    unit only matches itself (without the [u] flag, canonicalisation never
    maps a non-ASCII code unit to an ASCII one). *)
Definition toggleCase (c : char) : char :=
  if between "a" "z" c then (c - 32)%N
  else if between "A" "Z" c then (c + 32)%N
  else c.

(** [!s] for a string: only the empty string is falsy. *)
Definition truthy (s : jsstring) : bool :=
  match s with [] => false | _ :: _ => true end.

Fixpoint startsWith (p s : jsstring) : bool :=
  match p, s with
  | [], _ => true
  | x :: p', y :: s' => char_eqb x y && startsWith p' s'
  | _ :: _, [] => false
  end.

(** [hay.includes(needle)] *)
Fixpoint includes (needle hay : jsstring) : bool :=
  startsWith needle hay
  || match hay with
     | [] => false
     | _ :: t => includes needle t
     end.

(** [s.endsWith(suffix)] *)
Definition endsWith (suffix s : jsstring) : bool :=
  startsWith (rev suffix) (rev s).

(** [s.substring(a, b)] for non-negative integer arguments: both are
    clamped to the length and swapped when out of order. *)
Definition substring (a b : nat) (s : jsstring) : jsstring :=
  let a' := Nat.min a (length s) in
  let b' := Nat.min b (length s) in
  firstn (Nat.max a' b' - Nat.min a' b') (skipn (Nat.min a' b') s).

Fixpoint dropWhile (p : char -> bool) (s : jsstring) : jsstring :=
  match s with
  | [] => []
  | c :: t => if p c then dropWhile p t else s
  end.

Definition trimStart (s : jsstring) : jsstring := dropWhile isWhiteSpace s.
Definition trimEnd (s : jsstring) : jsstring :=
  rev (dropWhile isWhiteSpace (rev s)).

(** [s.trim()] *)
Definition trim (s : jsstring) : jsstring := trimStart (trimEnd s).

(** [s.replace(needle, rep)] with a string pattern: only the first
    occurrence is replaced. *)
Fixpoint replaceFirst (needle rep s : jsstring) : jsstring :=
  if startsWith needle s then rep ++ skipn (length needle) s
  else match s with
       | [] => []
       | c :: t => c :: replaceFirst needle rep t
       end.

Definition mem (x : jsstring) (l : list jsstring) : bool :=
  existsb (str_eqb x) l.

(** [[...new Set(xs)]]: the distinct elements, in order of first
    occurrence. *)
Fixpoint uniqFrom (seen xs : list jsstring) : list jsstring :=
  match xs with
  | [] => []
  | x :: r => if mem x seen then uniqFrom seen r
              else x :: uniqFrom (x :: seen) r
  end.

Definition uniq (xs : list jsstring) : list jsstring := uniqFrom [] xs.

End Js.
Import Js.

(* ================================================================== *)
(** * Regular expressions *)
(* ================================================================== *)
Module Regex.

(** The syntax used by the patterns of the source.  Character classes are
    predicates on code units; [Rep r lo hi] is the greedy quantifier
    [r{lo,hi}], [hi = None] standing for no upper bound; [Behind] is a
    lookbehind whose body is a single character class, the only form in
    the source. *)
Inductive regex : Type :=
| Eps
| Chr (p : char -> bool)
| Seq (r1 r2 : regex)
| Alt (r1 r2 : regex)
| Rep (r : regex) (lo : nat) (hi : option nat)
| Group (i : nat) (r : regex)
| Bol
| Eol
| Ahead (positive : bool) (r : regex)
| Behind (positive : bool) (p : char -> bool).

(** A position in the input: the code units already passed, nearest first,
    the code units ahead, and the captures recorded so far. *)
Record mstate : Type := MState {
  before : jsstring;
  after : jsstring;
  caps : list (nat * jsstring)
}.

Definition cont := mstate -> option mstate.

(** The code units passed between two positions of one input. *)
Definition consumed (x y : mstate) : jsstring :=
  firstn (length (after x) - length (after y)) (after x).

(** RepeatMatcher of the language specification, greedy, with [n] the
    remaining upper bound: an iteration that is not required and passes no
    character is rejected. *)
Fixpoint rep (body : cont -> cont) (lo n : nat) (k : cont) (x : mstate)
  {struct n} : option mstate :=
  match n with
  | 0 => if lo =? 0 then k x else None
  | S n' =>
      let d := fun y =>
        if (lo =? 0) && (length (after y) =? length (after x)) then None
        else rep body (pred lo) n' k y in
      match lo with
      | S _ => body d x
      | 0 => match body d x with
             | Some z => Some z
             | None => k x
             end
      end
  end.

(** The backtracking matcher, in continuation-passing style.  An unbounded
    quantifier runs with the bound [lo + length (after x)], which no
    sequence of accepted iterations can exceed: every larger bound gives
    the same result ([unbounded_quantifier] below). *)
Fixpoint m (r : regex) (k : cont) (x : mstate) {struct r} : option mstate :=
  match r with
  | Eps => k x
  | Chr p =>
      match after x with
      | c :: rest =>
          if p c then k (MState (c :: before x) rest (caps x)) else None
      | [] => None
      end
  | Seq r1 r2 => m r1 (m r2 k) x
  | Alt r1 r2 =>
      match m r1 k x with
      | Some z => Some z
      | None => m r2 k x
      end
  | Rep r1 lo hi =>
      rep (m r1) lo
          (match hi with Some h => h | None => lo + length (after x) end)
          k x
  | Group i r1 =>
      m r1 (fun y => k (MState (before y) (after y)
                               ((i, consumed x y) :: caps y))) x
  | Bol => match before x with [] => k x | _ :: _ => None end
  | Eol => match after x with [] => k x | _ :: _ => None end
  | Ahead positive r1 =>
      match m r1 Some x with
      | Some y =>
          if positive then k (MState (before x) (after x) (caps y))
          else None
      | None => if positive then None else k x
      end
  | Behind positive p =>
      match before x with
      | c :: _ => if Bool.eqb (p c) positive then k x else None
      | [] => if positive then None else k x
      end
  end.

(** Pattern builders. *)
Fixpoint seqs (rs : list regex) : regex :=
  match rs with
  | [] => Eps
  | [r] => r
  | r :: rs' => Seq r (seqs rs')
  end.

Fixpoint alts (r : regex) (rs : list regex) : regex :=
  match rs with
  | [] => r
  | r' :: rs' => Alt r (alts r' rs')
  end.

Definition lit (s : jsstring) : regex :=
  fold_right (fun c r => Seq (Chr (char_eqb c)) r) Eps s.

(** A literal under the [i] flag. *)
Definition liti (s : jsstring) : regex :=
  fold_right
    (fun c r => Seq (Chr (fun x => char_eqb c x || char_eqb (toggleCase c) x)) r)
    Eps s.

Definition star (r : regex) : regex := Rep r 0 None.
Definition plus (r : regex) : regex := Rep r 1 None.
Definition opt (r : regex) : regex := Rep r 0 (Some 1).

(** The match object of [exec]/[match]: [index], [match[0]] and the
    captures. *)
Record MatchResult : Type := MatchRes {
  index : nat;
  whole : jsstring;
  groups : list (nat * jsstring)
}.

Fixpoint lookup (i : nat) (g : list (nat * jsstring)) : option jsstring :=
  match g with
  | [] => None
  | (j, s) :: g' => if i =? j then Some s else lookup i g'
  end.

(** [match[i]], the empty string standing for a group that did not
    participate. *)
Definition group (i : nat) (mr : MatchResult) : jsstring :=
  match lookup i (groups mr) with Some s => s | None => [] end.

Definition result_of (x y : mstate) : MatchResult :=
  MatchRes (length (before x)) (consumed x y) (caps y).

(** The leftmost match starting at or after the current position. *)
Fixpoint search (r : regex) (bef aft : jsstring) : option (mstate * mstate) :=
  let x := MState bef aft [] in
  match m r Some x with
  | Some y => Some (x, y)
  | None =>
      match aft with
      | [] => None
      | c :: rest => search r (c :: bef) rest
      end
  end.

(** [re.test(s)] and [s.match(re)] for a pattern without the [g] flag. *)
Definition test (r : regex) (s : jsstring) : bool :=
  match search r [] s with Some _ => true | None => false end.

Definition matchFirst (r : regex) (s : jsstring) : option MatchResult :=
  match search r [] s with
  | Some (x, y) => Some (result_of x y)
  | None => None
  end.

(** All matches of a pattern with the [g] flag, as [s.match(re)] collects
    them and as a [while ((match = re.exec(s)) !== null)] loop visits them:
    after a match the scan resumes at its end ([skip] counts the code
    units of the current match still to pass), one code unit further after
    an empty match. *)
Fixpoint scan (r : regex) (bef aft : jsstring) (skip : nat)
  : list MatchResult :=
  match skip with
  | S s =>
      match aft with
      | [] => []
      | c :: rest => scan r (c :: bef) rest s
      end
  | 0 =>
      let x := MState bef aft [] in
      match m r Some x with
      | Some y =>
          result_of x y ::
          match aft with
          | [] => []
          | c :: rest =>
              scan r (c :: bef) rest (pred (length (consumed x y)))
          end
      | None =>
          match aft with
          | [] => []
          | c :: rest => scan r (c :: bef) rest 0
          end
      end
  end.

Definition matchAll (r : regex) (s : jsstring) : list MatchResult :=
  scan r [] s 0.

(** [s.replace(re, rep)] for a pattern with the [g] flag and a replacement
    without [$] patterns. *)
Fixpoint replaceScan (r : regex) (rep' : jsstring) (bef aft : jsstring)
  (skip : nat) : jsstring :=
  match skip with
  | S s =>
      match aft with
      | [] => []
      | c :: rest => replaceScan r rep' (c :: bef) rest s
      end
  | 0 =>
      let x := MState bef aft [] in
      match m r Some x with
      | Some y =>
          rep' ++
          match aft with
          | [] => []
          | c :: rest =>
              match length (consumed x y) with
              | 0 => c :: replaceScan r rep' (c :: bef) rest 0
              | S n => replaceScan r rep' (c :: bef) rest n
              end
          end
      | None =>
          match aft with
          | [] => []
          | c :: rest => c :: replaceScan r rep' (c :: bef) rest 0
          end
      end
  end.

Definition replaceAll (r : regex) (rep' s : jsstring) : jsstring :=
  replaceScan r rep' [] s 0.

(** ** Declarative matching

    [Matches r x y]: the pattern [r] can take the matcher from position
    [x] to position [y].  Backtracking order is forgotten; the matcher is
    sound for this relation. *)
Inductive Matches : regex -> mstate -> mstate -> Prop :=
| M_Eps x : Matches Eps x x
| M_Chr p c bef rest cs :
    p c = true ->
    Matches (Chr p) (MState bef (c :: rest) cs) (MState (c :: bef) rest cs)
| M_Seq r1 r2 x y z :
    Matches r1 x y -> Matches r2 y z -> Matches (Seq r1 r2) x z
| M_AltL r1 r2 x y : Matches r1 x y -> Matches (Alt r1 r2) x y
| M_AltR r1 r2 x y : Matches r2 x y -> Matches (Alt r1 r2) x y
| M_Rep r lo hi n x y :
    Iter r n x y ->
    lo <= n ->
    (forall h, hi = Some h -> n <= h) ->
    Matches (Rep r lo hi) x y
| M_Group i r x y :
    Matches r x y ->
    Matches (Group i r) x
            (MState (before y) (after y) ((i, consumed x y) :: caps y))
| M_Bol x : before x = [] -> Matches Bol x x
| M_Eol x : after x = [] -> Matches Eol x x
| M_AheadPos r x y :
    Matches r x y ->
    Matches (Ahead true r) x (MState (before x) (after x) (caps y))
| M_AheadNeg r x : m r Some x = None -> Matches (Ahead false r) x x
| M_BehindPos p c x :
    head (before x) = Some c -> p c = true -> Matches (Behind true p) x x
| M_BehindNeg p x :
    match head (before x) with Some c => p c = false | None => True end ->
    Matches (Behind false p) x x
(** [Iter r n x y]: [n] successive matches of [r] lead from [x] to [y]. *)
with Iter : regex -> nat -> mstate -> mstate -> Prop :=
| Iter_O r x : Iter r 0 x x
| Iter_S r n x y z : Matches r x y -> Iter r n y z -> Iter r (S n) x z.

End Regex.
Import Regex.

(* ================================================================== *)
(** * The parser *)
(* ================================================================== *)
Module V2exParser.

Definition dquote : char := 34%N.
Definition newline : char := 10%N.

Definition notChr (p : char -> bool) : regex := Chr (fun c => negb (p c)).

(** ** Fragment normalisation

    The chain applied to the [html()] of a content element in
    [parsePostPage], [parseUserInfoPage] and [parseMultiPagePost]. *)

(** [/<br\s*\/?>/gi] *)
Definition brTag : regex :=
  seqs [lit (js "<"); liti (js "br"); star (Chr isWhiteSpace);
        opt (lit (js "/")); lit (js ">")].

(** [/<[^>]*>/g] *)
Definition anyTag : regex :=
  seqs [lit (js "<"); star (notChr (char_eqb (ch ">"))); lit (js ">")].

Definition normalize (html : jsstring) : jsstring :=
  let s := replaceAll brTag [newline] html in
  let s := replaceAll anyTag [] s in
  let s := replaceAll (lit (js "&nbsp;")) (js " ") s in
  let s := replaceAll (lit (js "&lt;")) (js "<") s in
  let s := replaceAll (lit (js "&gt;")) (js ">") s in
  let s := replaceAll (lit (js "&amp;")) (js "&") s in
  let s := replaceAll (lit (js "&quot;")) [dquote] s in
  trim s.

(** ** Pattern recognition *)

(** [[1-9A-HJ-NP-Za-km-z]] *)
Definition isBase58 (c : char) : bool :=
  between "1" "9" c || between "A" "H" c || between "J" "N" c
  || between "P" "Z" c || between "a" "k" c || between "m" "z" c.

(** [[a-zA-Z0-9_-]] *)
Definition isLabelChar (c : char) : bool :=
  between "a" "z" c || between "A" "Z" c || between "0" "9" c
  || char_eqb (ch "_") c || char_eqb (ch "-") c.

(** [[A-Za-z0-9]] *)
Definition isAlnum (c : char) : bool :=
  between "A" "Z" c || between "a" "z" c || between "0" "9" c.

(** [/https?:\/\/[^\s]*\/(tx|transaction|confirmTransaction)\/[^\s]*/gi] *)
Definition txUrl : regex :=
  seqs [liti (js "http"); opt (liti (js "s")); lit (js "://");
        star (notChr isWhiteSpace); lit (js "/");
        Group 1 (alts (liti (js "tx"))
                      [liti (js "transaction"); liti (js "confirmTransaction")]);
        lit (js "/"); star (notChr isWhiteSpace)].

(** [/https?:\/\/[^\s]*\/txs\/[^\s]*/gi] *)
Definition txsUrl : regex :=
  seqs [liti (js "http"); opt (liti (js "s")); lit (js "://");
        star (notChr isWhiteSpace); liti (js "/txs/");
        star (notChr isWhiteSpace)].

Definition removeUrlTransactionSignatures (text : jsstring) : jsstring :=
  if negb (truthy text) then []
  else fold_left (fun sanitized p => replaceAll p (js " ") sanitized)
                 [txUrl; txsUrl] text.

(** [/^[1-9A-HJ-NP-Za-km-z]+$/] and [/^\d+$/] *)
Definition allBase58 : regex := seqs [Bol; plus (Chr isBase58); Eol].
Definition allDigits : regex := seqs [Bol; plus (Chr isDigit); Eol].

Definition isValidSolanaAddress (address : jsstring) : bool :=
  if negb (truthy address) then false
  else if (length address <? 32) || (44 <? length address) then false
  else if negb (test allBase58 address) then false
  else if test allDigits address then false
  else true.

(** The patterns of [urlPatterns] in [isPartOfUrl]. *)
Definition urlPatterns : list regex :=
  [ seqs [liti (js "http"); opt (liti (js "s")); lit (js "://")];
    liti (js "www.");
    Seq (lit (js "."))
        (Group 1 (alts (liti (js "com"))
                       (map liti [js "org"; js "net"; js "io"; js "co";
                                  js "me"; js "tv"; js "app"; js "xyz";
                                  js "sol"; js "scan"; js "explorer"])));
    liti (js "/tx/");
    liti (js "/address/") ].

Definition isPartOfUrl (text : jsstring) (startIndex addressLength : nat) : bool :=
  let beforeText := substring (startIndex - 200) startIndex text in
  let afterText :=
    substring (startIndex + addressLength)
              (Nat.min (length text) (startIndex + addressLength + 200)) text in
  let combinedText := beforeText ++ afterText in
  let immediateBefore := substring (startIndex - 4) startIndex text in
  if str_eqb immediateBefore (js "/tx/") || str_eqb immediateBefore (js "tx/")
     || str_eqb immediateBefore (js "/address/")
     || str_eqb immediateBefore (js "address/")
  then true
  else existsb (fun pattern => test pattern combinedText) urlPatterns.

(** [/(?:^|[^1-9A-HJ-NP-Za-km-z])([1-9A-HJ-NP-Za-km-z]{32,44})(?![1-9A-HJ-NP-Za-km-z])/g] *)
Definition addressRegex : regex :=
  seqs [Alt Bol (notChr isBase58);
        Group 1 (Rep (Chr isBase58) 32 (Some 44));
        Ahead false (Chr isBase58)].

(** The body of the [exec] loop of [extractSolanaAddressesWithBoundary]:
    the start index computed for a match and its first group. *)
Definition addressStartIndex (mt : MatchResult) : nat :=
  index mt + (length (whole mt) - length (group 1 mt)).

(** The matches the loop keeps, each with its start index. *)
Definition addressCandidates (text : jsstring) : list (nat * jsstring) :=
  flat_map
    (fun mt =>
       let address := group 1 mt in
       if isValidSolanaAddress address
          && negb (isPartOfUrl text (addressStartIndex mt) (length address))
       then [(addressStartIndex mt, address)] else [])
    (matchAll addressRegex text).

Definition extractSolanaAddressesWithBoundary (text : jsstring)
  : list jsstring :=
  if negb (truthy text) then []
  else uniq (map snd (addressCandidates text)).

(** [/(?<!\S)([a-zA-Z0-9_-]+\.sol)(?=\s|$)/g] *)
Definition domainRegex : regex :=
  seqs [Behind false (fun c => negb (isWhiteSpace c));
        Group 1 (Seq (plus (Chr isLabelChar)) (lit (js ".sol")));
        Ahead true (Alt (Chr isWhiteSpace) Eol)].

(** [/^[a-zA-Z0-9_-]+$/] *)
Definition labelOnly : regex := seqs [Bol; plus (Chr isLabelChar); Eol].

Definition extractSolanaDomainsFromText (text : jsstring) : list jsstring :=
  if negb (truthy text) then []
  else
    let matches := map whole (matchAll domainRegex text) in
    let validDomains :=
      filter (fun domain =>
                if negb (truthy domain) || (length domain <? 4) then false
                else if negb (endsWith (js ".sol") domain) then false
                else test labelOnly (replaceFirst (js ".sol") [] domain))
             matches in
    uniq validDomains.

Record SolanaInfo : Type := {
  solanaAddresses : list jsstring;
  solanaDomains : list jsstring
}.

Definition extractSolanaAddressesFromText (text : jsstring) : SolanaInfo :=
  if negb (truthy text) then
    {| solanaAddresses := []; solanaDomains := [] |}
  else
    {| solanaAddresses := extractSolanaAddressesWithBoundary text;
       solanaDomains := extractSolanaDomainsFromText text |}.

(** ** Numbers

    The Number values the program computes with: NaN, an integer that a
    double holds exactly, or an infinity.  The two zeros are not kept
    apart: no operation of the program tells them apart. *)
Inductive number : Type :=
| NaN
| Num (z : Z)
| Inf (negative : bool).

(** The Number value of a mathematical integer: the nearest double, a tie
    going to the even significand of 53 bits, and an infinity from
    [2^1024 - 2^970] on. *)
Definition toNumber (z : Z) : number :=
  let a := Z.abs z in
  if (a <? 2 ^ 53)%Z then Num z
  else
    let e := (Z.log2 a - 52)%Z in
    let q := Z.shiftr a e in
    let r := (a - Z.shiftl q e)%Z in
    let half := Z.shiftl 1 (e - 1) in
    let q' := if (half <? r)%Z || ((r =? half)%Z && Z.odd q)
              then (q + 1)%Z else q in
    let v := Z.shiftl q' e in
    if (2 ^ 1024 <=? v)%Z then Inf (z <? 0)%Z else Num (Z.sgn z * v)%Z.

Definition hexVal (c : char) : option Z :=
  if isDigit c then Some (Z.of_N c - 48)%Z
  else if between "a" "f" c then Some (Z.of_N c - 87)%Z
  else if between "A" "F" c then Some (Z.of_N c - 55)%Z
  else None.

Fixpoint parseDigits (radix : Z) (acc : option Z) (s : jsstring) : option Z :=
  match s with
  | [] => acc
  | c :: t =>
      match hexVal c with
      | Some d =>
          if (d <? radix)%Z then
            parseDigits radix
              (Some (radix * match acc with Some a => a | None => 0 end + d)%Z) t
          else acc
      | None => acc
      end
  end.

(** [parseInt(s)] without a radix: the digits read give a mathematical
    integer, and the result is its Number value.  (Beyond 20 significant
    decimal digits the language lets an implementation read the further
    digits as 0 before rounding; the value is taken exactly here.) *)
Definition parseInt (s : jsstring) : number :=
  let s := trimStart s in
  let '(sign, s) :=
    match s with
    | c :: t => if char_eqb c (ch "-") then ((-1)%Z, t)
                else if char_eqb c (ch "+") then (1%Z, t)
                else (1%Z, s)
    | [] => (1%Z, s)
    end in
  let '(radix, s) :=
    if startsWith (js "0x") s || startsWith (js "0X") s
    then (16%Z, skipn 2 s) else (10%Z, s) in
  match parseDigits radix None s with
  | Some v => toNumber (sign * v)
  | None => NaN
  end.

(** [Math.max(...xs)] for a non-empty list. *)
Definition maxNumber (a b : number) : number :=
  match a, b with
  | NaN, _ | _, NaN => NaN
  | Inf false, _ | _, Inf false => Inf false
  | Inf true, y => y
  | x, Inf true => x
  | Num x, Num y => Num (Z.max x y)
  end.

Definition mathMax (x : number) (xs : list number) : number :=
  fold_left maxNumber xs x.

(** [`${n}`] for a non-negative integer. *)
Definition showNat (n : nat) : jsstring :=
  js (NilEmpty.string_of_uint (Nat.to_uint n)).

(** ** Documents

    The values the selectors of the source locate in a loaded document.
    [None] is an absent attribute or element ([undefined], or a selection
    of length 0). *)
Record Img : Type := {
  img_src : option jsstring;              (* $img.attr('src') *)
  img_alt : option jsstring               (* $img.attr('alt') *)
}.

(** One element of [$('.cell[id^="r_"]')]. *)
Record ReplyCell : Type := {
  cell_id : option jsstring;              (* $el.attr('id') *)
  cell_author_text : jsstring;            (* $el.find('strong a.dark').text() *)
  cell_author_href : option jsstring;     (* ... .attr('href') *)
  cell_avatar_src : option jsstring;      (* $el.find('img.avatar').attr('src') *)
  cell_content : option (jsstring * list Img);
      (* $el.find('.reply_content'): its html() and its img elements *)
  cell_ago_title : option jsstring;       (* $el.find('.ago').attr('title') *)
  cell_ago_text : jsstring;               (* $el.find('.ago').text() *)
  cell_no_text : jsstring                 (* $el.find('.no').text() *)
}.

(** One element of [$('.page_normal, .page_current')]. *)
Record PageLink : Type := {
  link_href : option jsstring;
  link_text : jsstring
}.

(** One element of [$('.social_label')]. *)
Record SocialLabel : Type := {
  social_href : option jsstring;
  social_text : jsstring
}.

(** One element of [$('.dock_area')]. *)
Record DockArea : Type := {
  dock_fade_title : option jsstring;      (* $el.find('.fade').attr('title') *)
  dock_fade_text : jsstring;              (* $el.find('.fade').text() *)
  dock_reply_html : option jsstring;
      (* $el.next('.inner').find('.reply_content').html() *)
  dock_topic_href : option jsstring       (* $el.find('a[href*="/t/"]').attr('href') *)
}.

Record Document : Type := {
  h1_text : jsstring;                     (* $('h1').first().text() *)
  script_text : jsstring;                 (* $('script').text() *)
  page_text : jsstring;                   (* $.text() *)
  (* profile pages *)
  avatar_src : option jsstring;           (* $('.avatar').first().attr('src') *)
  bigger_text : jsstring;                 (* $('.bigger').text() *)
  gray_first_text : jsstring;             (* $('.gray').first().text() *)
  badge_pro_count : nat;                  (* $('.badge.pro').length *)
  social_labels : list SocialLabel;
  dock_areas : list DockArea;
  (* thread pages *)
  post_author_text : jsstring;
  post_author_href : option jsstring;
  post_author_avatar : option jsstring;   (* $('.header img.avatar').first().attr('src') *)
  post_time_title : option jsstring;
  post_time_text : jsstring;
  header_gray_text : jsstring;            (* $('.header .gray').text() *)
  topic_content_html : option jsstring;   (* $('.topic_content').first().html() *)
  tag_texts : list jsstring;              (* text() of each $('.tag') *)
  reply_cells : list ReplyCell;
  page_links : list PageLink;
  page_current_text : option jsstring;    (* $('.page_current').text() *)
  reply_user_ids : list jsstring
      (* the value of extractReplyUserIds($), taken as it is *)
}.

(** [a || b] on strings that may be [undefined]. *)
Definition orElse (a : option jsstring) (b : jsstring) : jsstring :=
  match a with
  | Some s => if truthy s then s else b
  | None => b
  end.

Definition firstGroup (r : regex) (s : jsstring) : option jsstring :=
  match matchFirst r s with
  | Some mt => Some (group 1 mt)
  | None => None
  end.

(** ** Profile pages *)

(** [/const address = "([A-Za-z0-9]{32,44})"/] *)
Definition scriptAddress : regex :=
  seqs [lit (js "const address = "); Chr (char_eqb dquote);
        Group 1 (Rep (Chr isAlnum) 32 (Some 44)); Chr (char_eqb dquote)].

(** The object returned by [extractSolanaAddress]; [None] is [null]. *)
Record SolanaResult : Type := {
  solanaAddress : option jsstring;
  solanaDomain : option jsstring
}.

Definition extractSolanaAddress (doc : Document) : SolanaResult :=
  let scriptContent := script_text doc in
  let fromScript := firstGroup scriptAddress scriptContent in
  let pageText := page_text doc in
  let sanitizedText := removeUrlTransactionSignatures pageText in
  let extracted := extractSolanaAddressesWithBoundary sanitizedText in
  let address :=
    match extracted with
    | first :: _ => Some (orElse fromScript first)
    | [] => fromScript
    end in
  let domains := extractSolanaDomainsFromText pageText in
  {| solanaAddress := address;
     solanaDomain := match domains with d :: _ => Some d | [] => None end |}.

Definition extractSolanaDomain (text : jsstring) : option jsstring :=
  if negb (truthy text) then None
  else match extractSolanaDomainsFromText text with
       | d :: _ => Some d
       | [] => None
       end.

Definition Exn := jsstring.

Record SocialLinks : Type := {
  twitter : option (jsstring * jsstring);
  github : option (jsstring * jsstring);
  telegram : option (jsstring * jsstring);
  location : option (jsstring * jsstring);
  website : option (jsstring * jsstring)
}.

Definition noLinks : SocialLinks :=
  {| twitter := None; github := None; telegram := None;
     location := None; website := None |}.

(** The message of the TypeError raised by [href.includes] when the
    element has no [href]. *)
Definition undefinedIncludes : Exn :=
  js "Cannot read properties of undefined (reading 'includes')".

Definition addSocialLink (acc : Exn + SocialLinks) (el : SocialLabel)
  : Exn + SocialLinks :=
  match acc with
  | inl e => inl e
  | inr links =>
      let text := trim (social_text el) in
      match social_href el with
      | None => inl undefinedIncludes
      | Some href =>
          let entry := Some (href, text) in
          inr
            (if includes (js "twitter.com") href || includes (js "x.com") href
             then {| twitter := entry; github := github links;
                     telegram := telegram links; location := location links;
                     website := website links |}
             else if includes (js "github.com") href
             then {| twitter := twitter links; github := entry;
                     telegram := telegram links; location := location links;
                     website := website links |}
             else if includes (js "telegram.me") href
             then {| twitter := twitter links; github := github links;
                     telegram := entry; location := location links;
                     website := website links |}
             else if includes (js "google.com/maps") href
             then {| twitter := twitter links; github := github links;
                     telegram := telegram links; location := entry;
                     website := website links |}
             else if truthy href && negb (startsWith (js "http") href)
             then {| twitter := twitter links; github := github links;
                     telegram := telegram links; location := location links;
                     website := entry |}
             else links)
      end
  end.

(** [/\/t\/(\d+)/] and [/\/member\/([^\/]+)/] *)
Definition topicIdPattern : regex :=
  Seq (lit (js "/t/")) (Group 1 (plus (Chr isDigit))).
Definition memberIdPattern : regex :=
  Seq (lit (js "/member/")) (Group 1 (plus (notChr (char_eqb (ch "/"))))).

(** The label patterns applied to the member line: a member number, a
    join date and an activity rank, each after its fixed phrase. *)
Definition memberNumber : regex :=
  seqs [lit (js "V2EX " ++ [31532%N] ++ js " "); Group 1 (plus (Chr isDigit));
        lit (js " " ++ [21495%N; 20250%N; 21592%N])].
Definition joinDate : regex :=
  seqs [lit ([21152%N; 20837%N; 20110%N] ++ js " ");
        Group 1 (plus (Chr (fun c => isDigit c || char_eqb (ch "-") c
                                     || isWhiteSpace c || char_eqb (ch ":") c)))].
Definition activeRankPattern : regex :=
  seqs [lit ([20170%N; 26085%N; 27963%N; 36291%N; 24230%N; 25490%N; 21517%N]
             ++ js " ");
        Group 1 (plus (Chr isDigit))].

Record RecentReply : Type := {
  rr_time : jsstring;
  rr_content : jsstring;
  rr_topicId : option jsstring;           (* None is undefined *)
  rr_topicUrl : jsstring
}.

Definition recentReply (base : jsstring) (el : DockArea) : list RecentReply :=
  let timeText := orElse (dock_fade_title el) (trim (dock_fade_text el)) in
  let replyText :=
    match dock_reply_html el with
    | Some html => normalize html
    | None => []
    end in
  let topicId :=
    match dock_topic_href el with
    | Some link => if truthy link then firstGroup topicIdPattern link
                   else Some []
    | None => Some []
    end in
  if truthy replyText then
    [ {| rr_time := timeText; rr_content := replyText; rr_topicId := topicId;
         rr_topicUrl := match topicId with
                        | Some t => if truthy t then base ++ js "/t/" ++ t
                                    else []
                        | None => []
                        end |} ]
  else [].

Record UserInfo : Type := {
  ui_url : jsstring;
  ui_username : jsstring;
  ui_userId : jsstring;
  ui_memberId : jsstring;
  ui_avatar : jsstring;
  ui_signature : jsstring;
  ui_joinTime : jsstring;
  ui_activeRank : jsstring;
  ui_isPro : bool;
  ui_socialLinks : SocialLinks;
  ui_solanaAddress : option jsstring;
  ui_solanaDomain : option jsstring;
  ui_recentReplies : list RecentReply
}.

Definition groupOrEmpty (r : regex) (s : jsstring) : jsstring :=
  match firstGroup r s with Some g => g | None => [] end.

Definition parseUserInfoPage (base : jsstring) (doc : Document) (url : jsstring)
  : Exn + UserInfo :=
  let username := trim (h1_text doc) in
  let userId := groupOrEmpty memberIdPattern url in
  let avatarUrl := orElse (avatar_src doc) [] in
  let signature := trim (bigger_text doc) in
  let memberInfo := trim (gray_first_text doc) in
  let memberId := groupOrEmpty memberNumber memberInfo in
  let joinTime := groupOrEmpty joinDate memberInfo in
  let activeRank := groupOrEmpty activeRankPattern memberInfo in
  let isPro := 0 <? badge_pro_count doc in
  match fold_left addSocialLink (social_labels doc) (inr noLinks) with
  | inl e => inl e
  | inr socialLinks =>
      let solanaInfo := extractSolanaAddress doc in
      let recentReplies := flat_map (recentReply base) (dock_areas doc) in
      inr {| ui_url := url; ui_username := username; ui_userId := userId;
             ui_memberId := memberId; ui_avatar := avatarUrl;
             ui_signature := signature; ui_joinTime := joinTime;
             ui_activeRank := activeRank; ui_isPro := isPro;
             ui_socialLinks := socialLinks;
             ui_solanaAddress := solanaAddress solanaInfo;
             ui_solanaDomain := solanaDomain solanaInfo;
             ui_recentReplies := recentReplies |}
  end.

(** ** Thread pages *)

Record Author : Type := {
  author_name : jsstring;
  author_id : jsstring;
  author_avatar : jsstring
}.

Record Image : Type := {
  image_src : jsstring;
  image_alt : jsstring
}.

Record Reply : Type := {
  reply_id : jsstring;
  reply_floor : jsstring;
  reply_author : Author;
  reply_content : jsstring;
  reply_contentHtml : jsstring;
  reply_images : list Image;
  reply_time : jsstring;
  reply_device : jsstring;
  reply_solanaAddresses : list jsstring;
  reply_solanaDomains : list jsstring
}.

(** [/via (.+)$/]: the dot excludes line terminators. *)
Definition isLineTerminator (c : char) : bool :=
  N.eqb c 10 || N.eqb c 13 || N.eqb c 8232 || N.eqb c 8233.
Definition viaDevice : regex :=
  seqs [lit (js "via "); Group 1 (plus (notChr isLineTerminator)); Eol].

(** [attr ? attr.replace(prefix, '') : ''] *)
Definition stripAttr (prefix : jsstring) (attr : option jsstring) : jsstring :=
  match attr with
  | Some a => if truthy a then replaceFirst prefix [] a else []
  | None => []
  end.

Definition replyImage (img : Img) : list Image :=
  match img_src img with
  | Some src =>
      if truthy src
      then [ {| image_src := src; image_alt := orElse (img_alt img) [] |} ]
      else []
  | None => []
  end.

(** The callback of [$('.cell[id^="r_"]').each] in [parsePostPage], and its
    copy in [parseMultiPagePost]: the reply a cell contributes, none when
    it has neither text nor image. *)
Definition parseReplyCell (el : ReplyCell) : list Reply :=
  let replyId := stripAttr (js "r_") (cell_id el) in
  let replyAuthorName := trim (cell_author_text el) in
  let replyAuthorId := stripAttr (js "/member/") (cell_author_href el) in
  let replyAuthorAvatar := orElse (cell_avatar_src el) [] in
  let '(replyContent, replyContentHtml, replyImages) :=
    match cell_content el with
    | Some (html, imgs) => (normalize html, html, flat_map replyImage imgs)
    | None => ([], [], [])
    end in
  let replyTime := orElse (cell_ago_title el) (trim (cell_ago_text el)) in
  let replyFloor := trim (cell_no_text el) in
  let deviceInfo := trim (cell_ago_text el) in
  let device := groupOrEmpty viaDevice deviceInfo in
  let solanaInfo := extractSolanaAddressesFromText replyContent in
  if truthy replyContent || (0 <? length replyImages) then
    [ {| reply_id := replyId; reply_floor := replyFloor;
         reply_author := {| author_name := replyAuthorName;
                            author_id := replyAuthorId;
                            author_avatar := replyAuthorAvatar |};
         reply_content := replyContent;
         reply_contentHtml := replyContentHtml;
         reply_images := replyImages;
         reply_time := replyTime; reply_device := device;
         reply_solanaAddresses := solanaAddresses solanaInfo;
         reply_solanaDomains := solanaDomains solanaInfo |} ]
  else [].

Definition pageReplies (doc : Document) : list Reply :=
  flat_map parseReplyCell (reply_cells doc).

Record Pagination : Type := {
  hasMultiplePages : bool;
  totalPages : number;
  currentPage : number;
  pageUrls : list (number * jsstring)
}.

Record Statistics : Type := {
  replyCount : nat;
  totalFloors : nat;
  stat_totalPages : option number         (* set by parseMultiPagePost only *)
}.

Record PostInfo : Type := {
  post_url : jsstring;
  postId : jsstring;
  title : jsstring;
  post_author : Author;
  postTime : jsstring;
  clickCount : jsstring;
  content : jsstring;
  tags : list jsstring;
  replyUserIds : list jsstring;
  replies : list Reply;
  statistics : Statistics;
  pagination : option Pagination          (* set by parseMultiPagePost only *)
}.

(** The click counter of the header: digits before a fixed phrase. *)
Definition clickPattern : regex :=
  seqs [Group 1 (plus (Chr isDigit)); lit (js " " ++ [27425%N; 28857%N; 20987%N])].

Definition parsePostPage (doc : Document) (url : jsstring) : PostInfo :=
  let postId' := groupOrEmpty topicIdPattern url in
  let title' := trim (h1_text doc) in
  let authorName := trim (post_author_text doc) in
  let authorId := stripAttr (js "/member/") (post_author_href doc) in
  let authorAvatar := orElse (post_author_avatar doc) [] in
  let postTime' := orElse (post_time_title doc) (trim (post_time_text doc)) in
  let clickCount' := groupOrEmpty clickPattern (header_gray_text doc) in
  let content' :=
    match topic_content_html doc with
    | Some html => normalize html
    | None => []
    end in
  let tags' := filter truthy (map trim (tag_texts doc)) in
  let replies' := pageReplies doc in
  {| post_url := url; postId := postId'; title := title';
     post_author := {| author_name := authorName; author_id := authorId;
                       author_avatar := authorAvatar |};
     postTime := postTime'; clickCount := clickCount'; content := content';
     tags := tags'; replyUserIds := reply_user_ids doc; replies := replies';
     statistics := {| replyCount := length replies';
                      totalFloors := length replies' + 1;
                      stat_totalPages := None |};
     pagination := None |}.

Definition pageUrlOf (el : PageLink) : list (number * jsstring) :=
  let pageNum := trim (link_text el) in
  match link_href el with
  | Some href =>
      if truthy href && truthy pageNum then
        [ (parseInt pageNum,
           if startsWith (js "?") href then href else js "?" ++ href) ]
      else []
  | None => []
  end.

Definition detectPagination (doc : Document) : Pagination :=
  match page_links doc with
  | [] => {| hasMultiplePages := false; totalPages := Num 1;
             currentPage := Num 1; pageUrls := [] |}
  | pageLinks =>
      let urls := flat_map pageUrlOf pageLinks in
      {| hasMultiplePages := true;
         totalPages := match map fst urls with
                       | [] => Num 1
                       | p :: ps => mathMax p ps
                       end;
         currentPage := match page_current_text doc with
                        | Some t => parseInt (trim t)
                        | None => Num 1
                        end;
         pageUrls := urls |}
  end.

(** ** Effects

    The world threads what the methods share: the base URL of the parser
    instance, the transport, the number of requests issued, the calls made
    to the progress callback and the delays awaited, each with the number
    of requests issued when it began.  The transport is an oracle: the
    outcome of the [n]-th request, for its URL.  A computation either
    throws an error message or returns. *)
Inductive PageResult : Type :=
| UserInfoPage (u : UserInfo)
| PostPage (p : PostInfo).

Inductive Status : Type := start | success | retry | error | complete.

Record ProgressEvent : Type := {
  ev_currentIndex : nat;
  ev_totalUsers : nat;
  ev_username : option jsstring;          (* None is null *)
  ev_status : Status;
  ev_userInfo : option PageResult
}.

Record World : Type := {
  baseUrl : jsstring;
  net : nat -> jsstring -> Exn + Document;
  requests : nat;
  progress : list ProgressEvent;
  waits : list (nat * Z)
}.

Definition M (A : Type) : Type := World -> (Exn + A) * World.

Definition ret {A} (a : A) : M A := fun w => (inr a, w).

Definition bind {A B} (c : M A) (f : A -> M B) : M B :=
  fun w => match c w with
           | (inl e, w') => (inl e, w')
           | (inr a, w') => f a w'
           end.

Definition throw {A} (e : Exn) : M A := fun w => (inl e, w).

Definition tryCatch {A} (c : M A) (handler : Exn -> M A) : M A :=
  fun w => match c w with
           | (inl e, w') => handler e w'
           | (inr a, w') => (inr a, w')
           end.

Definition lift {A} (r : Exn + A) : M A := fun w => (r, w).

Notation "x <- c ;; k" := (bind c (fun x => k))
  (at level 61, c at next level, right associativity).
Notation "c ;;; k" := (bind c (fun _ => k))
  (at level 61, right associativity).

(** [await axios.get(url, ...)] followed by [cheerio.load]. *)
Definition axiosGet (url : jsstring) : M Document :=
  fun w => (net w (requests w) url,
            {| baseUrl := baseUrl w; net := net w; requests := S (requests w);
               progress := progress w; waits := waits w |}).

(** [await new Promise(resolve => setTimeout(resolve, ms))] *)
Definition sleep (ms : Z) : M unit :=
  fun w => (inr tt,
            {| baseUrl := baseUrl w; net := net w; requests := requests w;
               progress := progress w;
               waits := waits w ++ [(requests w, ms)] |}).

Definition getBaseUrl : M jsstring := fun w => (inr (baseUrl w), w).

Definition setBaseUrl (url : jsstring) : M unit :=
  fun w => (inr tt,
            {| baseUrl := url; net := net w; requests := requests w;
               progress := progress w; waits := waits w |}).

Definition report (ev : ProgressEvent) : M unit :=
  fun w => (inr tt,
            {| baseUrl := baseUrl w; net := net w; requests := requests w;
               progress := progress w ++ [ev]; waits := waits w |}).

(** ** Single pages *)

(** The messages of the errors thrown by [parseV2exPage]: the prefix of
    the wrapping error, and the message for a URL of neither kind. *)
Definition parseFailedPrefix : jsstring :=
  [35299%N; 26512%N] ++ js "V2EX" ++ [39029%N; 38754%N; 22833%N; 36133%N]
  ++ js ": ".

Definition unsupportedPageKind : Exn :=
  [19981%N; 25903%N; 25345%N; 30340%N; 39029%N; 38754%N; 31867%N; 22411%N;
   65292%N; 35831%N; 20351%N; 29992%N; 29992%N; 25143%N; 20449%N; 24687%N;
   39029%N; 38754%N] ++ js "(/member/)" ++ [25110%N; 24086%N; 23376%N;
   39029%N; 38754%N] ++ js "(/t/)".

Definition parseV2exPage (url : jsstring) : M PageResult :=
  tryCatch
    (doc <- axiosGet url ;;
     if includes (js "/member/") url then
       base <- getBaseUrl ;;
       u <- lift (parseUserInfoPage base doc url) ;;
       ret (UserInfoPage u)
     else if includes (js "/t/") url then
       ret (PostPage (parsePostPage doc url))
     else throw unsupportedPageKind)
    (fun e => throw (parseFailedPrefix ++ e)).

Definition parseUserInfo (username : jsstring) : M PageResult :=
  base <- getBaseUrl ;;
  parseV2exPage (base ++ js "/member/" ++ username).

(** ** Multi-page threads *)

Definition multiPageFailedPrefix : jsstring :=
  [25235%N; 21462%N; 22810%N; 39029%N; 24086%N; 23376%N; 22833%N; 36133%N]
  ++ js ": ".

(** [page < total] and [page <= total] for a page counter, which holds a
    non-negative integer. *)
Definition ltNumber (page : nat) (total : number) : bool :=
  match total with
  | Num z => (Z.of_nat page <? z)%Z
  | NaN => false
  | Inf negative => negb negative
  end.

Definition leNumber (page : nat) (total : number) : bool :=
  match total with
  | Num z => (Z.of_nat page <=? z)%Z
  | NaN => false
  | Inf negative => negb negative
  end.

(** [page++]: the counter is a Number, so the sum is rounded.  The
    counter never leaves the integers up to [2^53], which a template
    literal renders by their decimal digits. *)
Definition increment (page : nat) : nat :=
  match toNumber (Z.of_nat page + 1) with
  | Num z => Z.to_nat z
  | _ => page
  end.

(** The body of the loop over the other pages: a page that cannot be
    fetched is skipped, the replies of a fetched page are appended to
    [allReplies]. *)
Definition fetchPage (url : jsstring) (total : number) (page : nat)
  (allReplies : list Reply) : M (list Reply) :=
  tryCatch
    (doc <- axiosGet (url ++ js "?p=" ++ showNat page) ;;
     let merged := allReplies ++ pageReplies doc in
     (if ltNumber page total then sleep 1000 else ret tt) ;;;
     ret merged)
    (fun _ => ret allReplies).

(** [for (let page = 2; page <= totalPages; page++)], from the current
    value of [page] on.  [fuel] bounds the iterations: [None] is a loop
    still running when the bound is reached. *)
Fixpoint pageLoop (fuel : nat) (url : jsstring) (total : number) (page : nat)
  (allReplies : list Reply) : M (option (list Reply)) :=
  match fuel with
  | 0 => ret None
  | S fuel' =>
      if leNumber page total then
        allReplies' <- fetchPage url total page allReplies ;;
        pageLoop fuel' url total (increment page) allReplies'
      else ret (Some allReplies)
  end.

(** A loop that ends does so within [totalPages] iterations. *)
Definition pageFuel (total : number) : nat :=
  match total with
  | Num z => Z.to_nat z
  | _ => 0
  end.

Definition pagesOutOfFuel : Exn := js "page loop: iteration bound exceeded".

Definition parseMultiPagePost (postId' : jsstring) : M PostInfo :=
  base <- getBaseUrl ;;
  let url := base ++ js "/t/" ++ postId' in
  result <-
    tryCatch
      (first <- axiosGet url ;;
       let postInfo := parsePostPage first url in
       let pg := detectPagination first in
       fetched <-
         (if hasMultiplePages pg && ltNumber 1 (totalPages pg)
          then pageLoop (pageFuel (totalPages pg)) url (totalPages pg) 2 []
          else ret (Some [])) ;;
       match fetched with
       | None => ret None
       | Some allReplies =>
           let allRepliesCombined := replies postInfo ++ allReplies in
           let allReplyUserIds :=
             uniq (replyUserIds postInfo
                   ++ filter truthy
                        (map (fun r => author_id (reply_author r))
                             allRepliesCombined)) in
           ret (Some
                  {| post_url := post_url postInfo; postId := postId postInfo;
                     title := title postInfo;
                     post_author := post_author postInfo;
                     postTime := postTime postInfo;
                     clickCount := clickCount postInfo;
                     content := content postInfo; tags := tags postInfo;
                     replyUserIds := allReplyUserIds;
                     replies := allRepliesCombined;
                     statistics :=
                       {| replyCount := length allRepliesCombined;
                          totalFloors := length allRepliesCombined + 1;
                          stat_totalPages := Some (totalPages pg) |};
                     pagination := Some pg |})
       end)
      (fun e => throw (multiPageFailedPrefix ++ e)) ;;
  match result with
  | Some postInfo => ret postInfo
  | None => throw pagesOutOfFuel
  end.

(** ** Batches *)

(** The options a caller passes, and [{ ...defaultOptions, ...options }].
    [onProgress] records whether a callback function was supplied; its
    calls are logged in the world. *)
Record Options : Type := {
  opt_timeout : option Z;
  opt_delay : option Z;
  opt_retryCount : option Z;
  opt_showProgress : option bool;
  opt_onProgress : bool
}.

Record FinalOptions : Type := {
  timeout : Z;
  delay : Z;
  retryCount : Z;
  showProgress : bool;
  onProgress : bool
}.

Definition withDefault {A} (d : A) (o : option A) : A :=
  match o with Some a => a | None => d end.

Definition finalOptions (options : Options) : FinalOptions :=
  {| timeout := withDefault 10000%Z (opt_timeout options);
     delay := withDefault 1000%Z (opt_delay options);
     retryCount := withDefault 2%Z (opt_retryCount options);
     showProgress := withDefault true (opt_showProgress options);
     onProgress := opt_onProgress options |}.

(** An element of the array returned by [parseMultipleUsers]; an absent
    key is [None]. *)
Record Outcome : Type := {
  out_username : jsstring;
  out_success : bool;
  out_data : option PageResult;
  out_error : option Exn;
  out_retryAttempts : option Z
}.

Definition callback (o : FinalOptions) (ev : ProgressEvent) : M unit :=
  if onProgress o then report ev else ret tt.

Definition outOfFuel : Exn := js "retry loop: iteration bound exceeded".

(** The [while (retryAttempts <= retryCount && !success)] loop for one
    user.  A success leaves the loop; [fuel] bounds the iterations. *)
Fixpoint retryLoop (fuel : nat) (o : FinalOptions)
  (currentIndex totalUsers : nat) (username : jsstring)
  (retryAttempts : Z) (results : list Outcome) : M (list Outcome) :=
  match fuel with
  | 0 => throw outOfFuel
  | S fuel' =>
      if (retryAttempts <=? retryCount o)%Z then
        tryCatch
          (userInfo <- parseUserInfo username ;;
           let results' :=
             results ++ [ {| out_username := username; out_success := true;
                             out_data := Some userInfo; out_error := None;
                             out_retryAttempts := None |} ] in
           callback o {| ev_currentIndex := currentIndex;
                         ev_totalUsers := totalUsers;
                         ev_username := Some username;
                         ev_status := success;
                         ev_userInfo := Some userInfo |} ;;;
           ret results')
          (fun e =>
             let retryAttempts' := (retryAttempts + 1)%Z in
             if (retryAttempts' <=? retryCount o)%Z then
               callback o {| ev_currentIndex := currentIndex;
                             ev_totalUsers := totalUsers;
                             ev_username := Some username;
                             ev_status := retry; ev_userInfo := None |} ;;;
               sleep 2000 ;;;
               retryLoop fuel' o currentIndex totalUsers username
                         retryAttempts' results
             else
               callback o {| ev_currentIndex := currentIndex;
                             ev_totalUsers := totalUsers;
                             ev_username := Some username;
                             ev_status := error; ev_userInfo := None |} ;;;
               retryLoop fuel' o currentIndex totalUsers username
                         retryAttempts'
                         (results ++
                          [ {| out_username := username; out_success := false;
                               out_data := None; out_error := Some e;
                               out_retryAttempts := Some retryAttempts' |} ]))
      else ret results
  end.

Definition retryFuel (o : FinalOptions) : nat :=
  S (Z.to_nat (retryCount o + 1)).

(** The body of [for (let i = 0; i < usernames.length; i++)] for the user
    at index [i], [rest] being the users after it. *)
Definition processUser (o : FinalOptions) (totalUsers i : nat)
  (username : jsstring) (rest : list jsstring) (results : list Outcome)
  : M (list Outcome) :=
  let currentIndex := i + 1 in
  callback o {| ev_currentIndex := currentIndex; ev_totalUsers := totalUsers;
                ev_username := Some username; ev_status := start;
                ev_userInfo := None |} ;;;
  results' <- retryLoop (retryFuel o) o currentIndex totalUsers username 0
                        results ;;
  (if (0 <? length rest) && (0 <? delay o)%Z then sleep (delay o)
   else ret tt) ;;;
  ret results'.

Fixpoint usersLoop (o : FinalOptions) (totalUsers i : nat)
  (usernames : list jsstring) (results : list Outcome) : M (list Outcome) :=
  match usernames with
  | [] => ret results
  | username :: rest =>
      results' <- processUser o totalUsers i username rest results ;;
      usersLoop o totalUsers (S i) rest results'
  end.

Definition parseMultipleUsers (usernames : list jsstring) (options : Options)
  : M (list Outcome) :=
  let totalUsers := length usernames in
  let o := finalOptions options in
  results <- usersLoop o totalUsers 0 usernames [] ;;
  callback o {| ev_currentIndex := totalUsers; ev_totalUsers := totalUsers;
                ev_username := None; ev_status := complete;
                ev_userInfo := None |} ;;;
  ret results.

End V2exParser.
Import V2exParser.

(* ================================================================== *)
(** * The rest of the class *)
(* ================================================================== *)
Module V2exParserRest.

(** ** Token recognition: [extractAddressesFromToken] *)

(** [/[1-9A-HJ-NP-Za-km-z]{32,44}/], [/^\d/] and
    [/[A-HJ-NP-Za-km-z][1-9A-HJ-NP-Za-km-z]{31,43}/] *)
Definition base58Run : regex := Rep (Chr isBase58) 32 (Some 44).
Definition startsWithDigit : regex := Seq Bol (Chr isDigit).
Definition isBase58Letter (c : char) : bool :=
  between "A" "H" c || between "J" "N" c || between "P" "Z" c
  || between "a" "k" c || between "m" "z" c.
Definition letterRun : regex :=
  Seq (Chr isBase58Letter) (Rep (Chr isBase58) 31 (Some 43)).

(** [token.match(re)] for a pattern without the [g] flag: [match[0]]. *)
Definition firstMatch (r : regex) (s : jsstring) : option jsstring :=
  match matchFirst r s with
  | Some mt => Some (whole mt)
  | None => None
  end.

Definition extractAddressesFromToken (token : jsstring) : list jsstring :=
  if negb (truthy token) || (length token <? 32) then []
  else if isValidSolanaAddress token then [token]
  else
    match firstMatch base58Run token with
    | Some a =>
        if isValidSolanaAddress a then [a]
        else if test startsWithDigit token then
          match firstMatch letterRun token with
          | Some b => if isValidSolanaAddress b then [b] else []
          | None => []
          end
        else []
    | None =>
        if test startsWithDigit token then
          match firstMatch letterRun token with
          | Some b => if isValidSolanaAddress b then [b] else []
          | None => []
          end
        else []
    end.

(** ** Reply user ids: [extractReplyUserIds] *)

(** [s.split(',')] *)
Fixpoint splitOn (sep : char) (s : jsstring) : list jsstring :=
  match s with
  | [] => [[]]
  | c :: t =>
      if char_eqb sep c then [] :: splitOn sep t
      else match splitOn sep t with
           | piece :: pieces => (c :: piece) :: pieces
           | [] => [[c]]
           end
  end.

Definition notBracket (c : char) : bool := negb (char_eqb (ch "]") c).

(** [/var\s+words\s*=\s*(\[[^\]]*\]);/] and [/words\s*=\s*(\[[^\]]*\]);/] *)
Definition wordsArray : regex :=
  seqs [lit (js "words"); star (Chr isWhiteSpace); lit (js "=");
        star (Chr isWhiteSpace);
        Group 1 (seqs [lit (js "["); star (Chr notBracket); lit (js "]")]);
        lit (js ";")].
Definition varWordsArray : regex :=
  seqs [lit (js "var"); plus (Chr isWhiteSpace); wordsArray].

(** The class of the single and the double quote, replaced globally, and
    [/\[|\]/g] *)
Definition isQuote (c : char) : bool :=
  char_eqb (ch "'") c || char_eqb dquote c.
Definition anyQuote : regex := Chr isQuote.
Definition anyBracket : regex := Alt (lit (js "[")) (lit (js "]")).

(** The ids read from the text of the array literal. *)
Definition idsOfArray (wordsString : jsstring) : list jsstring :=
  let cleanString :=
    replaceAll anyBracket [] (replaceAll anyQuote [] wordsString) in
  filter truthy (map trim (splitOn (ch ",") cleanString)).

(** The loop of the fallback over
    [$('.cell[id^="r_"] strong a.dark')], by the [href] of each element. *)
Definition addHrefId (userIds : list jsstring) (href : option jsstring)
  : list jsstring :=
  match href with
  | Some h =>
      if truthy h then
        let userId := replaceFirst (js "/member/") [] h in
        if truthy userId && negb (mem userId userIds)
        then userIds ++ [userId] else userIds
      else userIds
  | None => userIds
  end.

(** [extractReplyUserIds($)], from [$('script').text()] and the [href]s of
    the author links. *)
Definition extractReplyUserIds (scriptContent : jsstring)
  (authorHrefs : list (option jsstring)) : list jsstring :=
  match firstGroup varWordsArray scriptContent with
  | Some wordsString => idsOfArray wordsString
  | None =>
      match firstGroup wordsArray scriptContent with
      | Some wordsString => idsOfArray wordsString
      | None => fold_left addHrefId authorHrefs []
      end
  end.

(** ** Batches by URL: [parseMultiplePages] *)

(** An element of the array returned by [parseMultiplePages]. *)
Record UrlOutcome : Type := {
  uo_url : jsstring;
  uo_success : bool;
  uo_data : option PageResult;
  uo_error : option Exn
}.

(** The [for (const url of urls)] loop. *)
Fixpoint pagesLoop (urls : list jsstring) (results : list UrlOutcome)
  : M (list UrlOutcome) :=
  match urls with
  | [] => ret results
  | url :: rest =>
      results' <-
        tryCatch
          (result <- parseV2exPage url ;;
           ret (results ++ [ {| uo_url := url; uo_success := true;
                                uo_data := Some result; uo_error := None |} ]))
          (fun e =>
             ret (results ++ [ {| uo_url := url; uo_success := false;
                                  uo_data := None; uo_error := Some e |} ])) ;;
      pagesLoop rest results'
  end.

Definition parseMultiplePages (urls : list jsstring) : M (list UrlOutcome) :=
  pagesLoop urls [].

Definition createUserUrls (usernames : list jsstring) : M (list jsstring) :=
  base <- getBaseUrl ;;
  ret (map (fun username => base ++ js "/member/" ++ username) usernames).

Definition parseMultipleUsersByUrls (usernames : list jsstring)
  : M (list UrlOutcome) :=
  urls <- createUserUrls usernames ;;
  parseMultiplePages urls.

(** ** [parsePost]

    [useMultiPage] is the option of that name, [None] when the caller
    left it out: only an explicit [false] selects the single page. *)
Definition parsePost (postId' : jsstring) (useMultiPage : option bool)
  : M PageResult :=
  match useMultiPage with
  | Some false =>
      base <- getBaseUrl ;;
      parseV2exPage (base ++ js "/t/" ++ postId')
  | _ =>
      post <- parseMultiPagePost postId' ;;
      ret (PostPage post)
  end.

End V2exParserRest.
Import V2exParserRest.

(* ================================================================== *)
(** * Vocabulary of the properties *)
(* ================================================================== *)

(** A fragment contains a markup tag when a [<] is followed, anywhere
    later, by a [>]: the shape that [/<[^>]*>/] (and [/<br\s*\/?>/])
    can match. *)
Fixpoint containsTag (f : jsstring) : bool :=
  match f with
  | [] => false
  | c :: t =>
      (char_eqb c (ch "<") && existsb (char_eqb (ch ">")) t) || containsTag t
  end.

(** The entities decoded by the normalisation chain. *)
Definition knownEntities : list jsstring :=
  [js "&nbsp;"; js "&lt;"; js "&gt;"; js "&amp;"; js "&quot;"].

(** A code unit that starts neither a tag nor an entity. *)
Definition isPlain (c : char) : bool :=
  negb (char_eqb (ch "<") c) && negb (char_eqb (ch "&") c).

(** [d] is [c] in either case, as the [i] flag compares. *)
Definition sameLetter (c d : char) : Prop := d = c \/ d = toggleCase c.

(** Lower-case markers of a link: a text that contains one of them is
    matched by one of the [urlPatterns]. *)
Definition urlMarkers : list jsstring :=
  [js "http://"; js "https://"; js "www."; js "/tx/"; js "/address/"]
  ++ map (fun tld => js "." ++ tld)
         [js "com"; js "org"; js "net"; js "io"; js "co"; js "me"; js "tv";
          js "app"; js "xyz"; js "sol"; js "scan"; js "explorer"].

(** The text [isPartOfUrl] inspects around an occurrence: up to 200 code
    units before it and up to 200 after it, joined. *)
Definition urlWindow (pre post : jsstring) : jsstring :=
  skipn (length pre - 200) pre ++ firstn 200 post.

(** [w] occurs in [text] at index [i] as a maximal run of base58
    characters: no base58 character stands right before or right after
    it. *)
Definition maximalRunAt (text : jsstring) (i : nat) (w : jsstring) : Prop :=
  exists pre post,
    text = pre ++ w ++ post /\ length pre = i
    /\ forallb isBase58 w = true
    /\ match rev pre with [] => True | c :: _ => isBase58 c = false end
    /\ match post with [] => True | c :: _ => isBase58 c = false end.

(** [a] is recognised as an address at index [i] of [text]: a maximal
    run of 32 to 44 base58 characters that passes [isValidSolanaAddress]
    and that [isPartOfUrl] does not place in a link. *)
Definition addressAt (text : jsstring) (i : nat) (a : jsstring) : Prop :=
  maximalRunAt text i a /\ 32 <= length a <= 44
  /\ isValidSolanaAddress a = true
  /\ isPartOfUrl text i (length a) = false.

(** [d] is recognised as a domain at index [i] of [text]: a non-empty
    label of letters, digits, [_] and [-] followed by [.sol], between
    white space or the ends of the text. *)
Definition domainAt (text : jsstring) (i : nat) (d : jsstring) : Prop :=
  exists pre label post,
    text = pre ++ d ++ post /\ length pre = i /\ d = label ++ js ".sol"
    /\ label <> [] /\ forallb isLabelChar label = true
    /\ match rev pre with [] => True | c :: _ => isWhiteSpace c = true end
    /\ match post with [] => True | c :: _ => isWhiteSpace c = true end.

(** [r] is the first of the strings recognised by [P], in the order of
    their indices; null when none is recognised. *)
Definition firstAt (P : nat -> jsstring -> Prop) (r : option jsstring)
  : Prop :=
  match r with
  | Some a => exists i, P i a /\ forall j b, P j b -> i <= j
  | None => forall i a, ~ P i a
  end.

(** [Blanked s t]: [t] is [s] with some segments replaced by one space
    each, the rest being kept in order. *)
Inductive Blanked : jsstring -> jsstring -> Prop :=
| Blanked_nil : Blanked [] []
| Blanked_keep c s t : Blanked s t -> Blanked (c :: s) (c :: t)
| Blanked_cut w s t : Blanked s t -> Blanked (w ++ s) (js " " ++ t).

(** After the host part of the link, the tail of the transaction pattern:
    [\/(tx|transaction|confirmTransaction)\/[^\s]*]. *)
Definition txTail : regex :=
  seqs [lit (js "/");
        Group 1 (alts (liti (js "tx"))
                      [liti (js "transaction"); liti (js "confirmTransaction")]);
        lit (js "/"); star (notChr isWhiteSpace)].

(** The test that makes a social label the [website] entry of a profile:
    its [href] names none of the known hosts, is not empty and does not
    start with the letters [http]; and the entry of a label, if any. *)
Definition isWebsiteHref (href : jsstring) : bool :=
  negb (includes (js "twitter.com") href) && negb (includes (js "x.com") href)
  && negb (includes (js "github.com") href)
  && negb (includes (js "telegram.me") href)
  && negb (includes (js "google.com/maps") href)
  && truthy href && negb (startsWith (js "http") href).

Definition websiteEntry (el : SocialLabel) : list (jsstring * jsstring) :=
  match social_href el with
  | Some href =>
      if isWebsiteHref href then [(href, trim (social_text el))] else []
  | None => []
  end.

(** [a <= b] on numbers. *)
Definition leqNumber (a b : number) : bool :=
  match a, b with
  | NaN, _ | _, NaN => false
  | Inf true, _ | _, Inf false => true
  | Num x, Num y => (x <=? y)%Z
  | _, _ => false
  end.

(** The page numbers that [for (page = 2; page <= totalPages; page++)]
    visits when it ends, and the condition for that: the counter stops
    growing at [2^53], so a larger total is never passed. *)
Definition otherPages (total : number) : list nat :=
  match total with
  | Num z => seq 2 (Z.to_nat z - 1)
  | _ => []
  end.

Definition pagesEnd (total : number) : bool :=
  match total with
  | Num z => (z <? 2 ^ 53)%Z
  | NaN => true
  | Inf negative => negative
  end.

(** The loop unrolled over a list of page numbers. *)
Fixpoint fetchOtherPages (url : jsstring) (total : number) (pages : list nat)
  (allReplies : list Reply) : M (list Reply) :=
  match pages with
  | [] => ret allReplies
  | page :: rest =>
      allReplies' <- fetchPage url total page allReplies ;;
      fetchOtherPages url total rest allReplies'
  end.

(** The replies gathered from the other pages of a thread, page by
    page: the page requested as the [n]-th request contributes its
    replies when it could be fetched, nothing otherwise. *)
Fixpoint gather (transport : nat -> jsstring -> Exn + Document)
  (url : jsstring) (n : nat) (pages : list nat) : list Reply :=
  match pages with
  | [] => []
  | page :: rest =>
      match transport n (url ++ js "?p=" ++ showNat page) with
      | inr doc => pageReplies doc
      | inl _ => []
      end ++ gather transport url (S n) rest
  end.

(** Whether the transport delivered a document. *)
Definition fetched (r : Exn + Document) : bool :=
  match r with
  | inr _ => true
  | inl _ => false
  end.

(** The waits of the loop over the other pages of a thread whose first
    page was the request number [r]: 1000 ms right after the request of
    each page that was fetched and is below the total, each with the
    number of requests issued by then, [r + page]. *)
Definition pagePauses (transport : nat -> jsstring -> Exn + Document)
  (url : jsstring) (total : number) (r : nat) : list (nat * Z) :=
  map (fun page => (r + page, 1000%Z))
    (filter
       (fun page =>
          fetched (transport (r + page - 1) (url ++ js "?p=" ++ showNat page))
          && ltNumber page total)
       (otherPages total)).

(** The world after one more request, and after a call to the progress
    callback, if one was supplied. *)
Definition tick (w : World) : World :=
  {| baseUrl := baseUrl w; net := net w; requests := S (requests w);
     progress := progress w; waits := waits w |}.

Definition noted (o : FinalOptions) (ev : ProgressEvent) (w : World) : World :=
  if onProgress o then
    {| baseUrl := baseUrl w; net := net w; requests := requests w;
       progress := progress w ++ [ev]; waits := waits w |}
  else w.

Definition slept (ms : Z) (w : World) : World :=
  {| baseUrl := baseUrl w; net := net w; requests := requests w;
     progress := progress w; waits := waits w ++ [(requests w, ms)] |}.

(** What an attempt to parse the profile at [url] yields when it is the
    [n]-th request: the wrapped transport or assembly error, or the
    profile. *)
Definition attempt (w : World) (n : nat) (url : jsstring) : Exn + PageResult :=
  match net w n url with
  | inl e => inl (parseFailedPrefix ++ e)
  | inr doc =>
      match parseUserInfoPage (baseUrl w) doc url with
      | inl e => inl (parseFailedPrefix ++ e)
      | inr u => inr (UserInfoPage u)
      end
  end.

(** The outcome that [parseMultiplePages] records for [url]: a result of
    the kind the URL selects, or the wrapped error. *)
Definition outcomeFor (url : jsstring) (o : UrlOutcome) : Prop :=
  uo_url o = url
  /\ match uo_data o, uo_error o with
     | Some (UserInfoPage _), None =>
         uo_success o = true /\ includes (js "/member/") url = true
     | Some (PostPage _), None =>
         uo_success o = true /\ includes (js "/member/") url = false
         /\ includes (js "/t/") url = true
     | None, Some e =>
         uo_success o = false /\ exists e', e = parseFailedPrefix ++ e'
     | _, _ => False
     end.

(** What the retry loop does for [username] when the first attempt is the
    request number [r]: [k] attempts, at most [retryCount], fail and are
    retried, and the attempt after them, the request number [r + k],
    settles the user: a success with its profile, or, the retries being
    used up, a failure with the error of that attempt and the number of
    attempts made. *)
Definition userRun (o : FinalOptions) (w : World) (username : jsstring)
  (r k : nat) (out : Outcome) : Prop :=
  (Z.of_nat k <= retryCount o)%Z
  /\ (forall j, j < k ->
        exists e, attempt w (r + j) (baseUrl w ++ js "/member/" ++ username)
                  = inl e)
  /\ match attempt w (r + k) (baseUrl w ++ js "/member/" ++ username) with
     | inr userInfo =>
         out = {| out_username := username; out_success := true;
                  out_data := Some userInfo; out_error := None;
                  out_retryAttempts := None |}
     | inl e =>
         Z.of_nat k = retryCount o
         /\ out = {| out_username := username; out_success := false;
                     out_data := None; out_error := Some e;
                     out_retryAttempts := Some (retryCount o + 1)%Z |}
     end.

(** The users of a batch in turn, [ks] giving the retries of each: the
    first attempt for a user is the request after the last attempt for
    the user before. *)
Fixpoint batchRuns (o : FinalOptions) (w : World) (r : nat)
  (usernames : list jsstring) (ks : list nat) (outs : list Outcome) : Prop :=
  match usernames, ks, outs with
  | [], [], [] => True
  | username :: usernames', k :: ks', out :: outs' =>
      userRun o w username r k out
      /\ batchRuns o w (r + S k) usernames' ks' outs'
  | _, _, _ => False
  end.

(** The waits of such a batch, each with the number of requests issued
    when it began: 2000 ms after each attempt that is retried, and
    [delay] ms, when that is positive, after the attempt that settles a
    user other than the last. *)
Fixpoint batchWaits (delay : Z) (r : nat) (ks : list nat) : list (nat * Z) :=
  match ks with
  | [] => []
  | k :: ks' =>
      map (fun j => (r + S j, 2000%Z)) (seq 0 k)
      ++ (if (0 <? length ks') && (0 <? delay)%Z then [(r + S k, delay)]
          else [])
      ++ batchWaits delay (r + S k) ks'
  end.

(** The progress events of one user: [start], then [retry] some number
    of times, then [success] or [error]. *)
Definition userEvents (username : jsstring) (evs : list ProgressEvent)
  : Prop :=
  (exists k last,
      map ev_status evs = start :: repeat retry k ++ [last]
      /\ (last = success \/ last = error))
  /\ Forall (fun ev => ev_username ev = Some username) evs.

(** A code unit an id can be written with inside the array literal of the
    script: no white space, comma, quote or bracket. *)
Definition isIdChar (c : char) : bool :=
  negb (isWhiteSpace c) && negb (char_eqb (ch ",") c) && negb (isQuote c)
  && negb (char_eqb (ch "[") c) && negb (char_eqb (ch "]") c).

(** [xs.join(sep)] *)
Fixpoint tailJoin (sep : jsstring) (xs : list jsstring) : jsstring :=
  match xs with
  | [] => []
  | x :: r => sep ++ x ++ tailJoin sep r
  end.

Definition joinWith (sep : jsstring) (xs : list jsstring) : jsstring :=
  match xs with
  | [] => []
  | x :: r => x ++ tailJoin sep r
  end.

(** The declaration of the reply user ids in the script of a thread
    page, for the given ids. *)
Definition quoted (id : jsstring) : jsstring := js "'" ++ id ++ js "'".

Definition wordsDeclaration (ids : list jsstring) : jsstring :=
  js "var words = [" ++ joinWith (js ", ") (map quoted ids) ++ js "];".

(** ** Sample documents and worlds *)

Definition blankDocument : Document :=
  {| h1_text := []; script_text := []; page_text := [];
     avatar_src := None; bigger_text := []; gray_first_text := [];
     badge_pro_count := 0; social_labels := []; dock_areas := [];
     post_author_text := []; post_author_href := None;
     post_author_avatar := None; post_time_title := None;
     post_time_text := []; header_gray_text := [];
     topic_content_html := None; tag_texts := []; reply_cells := [];
     page_links := []; page_current_text := None; reply_user_ids := [] |}.

(** A reply cell with the given reply id, author and text. *)
Definition sampleCell (rid who text : jsstring) : ReplyCell :=
  {| cell_id := Some (js "r_" ++ rid); cell_author_text := who;
     cell_author_href := Some (js "/member/" ++ who);
     cell_avatar_src := None; cell_content := Some (text, []);
     cell_ago_title := None; cell_ago_text := js "1 day ago";
     cell_no_text := rid |}.

Definition samplePageLinks : list PageLink :=
  [ {| link_href := Some (js "?p=1"); link_text := js "1" |};
    {| link_href := Some (js "?p=2"); link_text := js "2" |};
    {| link_href := Some (js "?p=3"); link_text := js "3" |} ].

(** A page of a thread of three pages, with one reply per given id. *)
Definition samplePage (rids : list jsstring) : Document :=
  {| h1_text := js "A thread"; script_text := []; page_text := [];
     avatar_src := None; bigger_text := []; gray_first_text := [];
     badge_pro_count := 0; social_labels := []; dock_areas := [];
     post_author_text := js "alice";
     post_author_href := Some (js "/member/alice");
     post_author_avatar := None; post_time_title := None;
     post_time_text := []; header_gray_text := [];
     topic_content_html := Some (js "hello"); tag_texts := [];
     reply_cells := map (fun rid => sampleCell rid (js "bob") (js "a reply")) rids;
     page_links := samplePageLinks; page_current_text := Some (js "1");
     reply_user_ids := [] |}.

(** A thread page without page links, with two replies. *)
Definition shortThread : Document :=
  {| h1_text := js "A short thread"; script_text := []; page_text := [];
     avatar_src := None; bigger_text := []; gray_first_text := [];
     badge_pro_count := 0; social_labels := []; dock_areas := [];
     post_author_text := js "alice";
     post_author_href := Some (js "/member/alice");
     post_author_avatar := None; post_time_title := None;
     post_time_text := []; header_gray_text := [];
     topic_content_html := Some (js "hello"); tag_texts := [];
     reply_cells := [sampleCell (js "1") (js "bob") (js "first");
                     sampleCell (js "2") (js "carol") (js "second")];
     page_links := []; page_current_text := None;
     reply_user_ids := [] |}.

(** A thread of three pages with 5, 5 and 3 replies, the reply 105 being
    on the first page and again on the second. *)
Definition sampleThread (n : nat) (url : jsstring) : Exn + Document :=
  if str_eqb url (js "https://v2ex.com/t/1") then
    inr (samplePage [js "101"; js "102"; js "103"; js "104"; js "105"])
  else if str_eqb url (js "https://v2ex.com/t/1?p=2") then
    inr (samplePage [js "105"; js "106"; js "107"; js "108"; js "109"])
  else if str_eqb url (js "https://v2ex.com/t/1?p=3") then
    inr (samplePage [js "110"; js "111"; js "112"])
  else inl (js "Request failed with status code 404").

Definition worldOf (transport : nat -> jsstring -> Exn + Document) : World :=
  {| baseUrl := js "https://v2ex.com"; net := transport; requests := 0;
     progress := []; waits := [] |}.

(** A profile page with an address in its script, another address and two
    domains in its text. *)
Definition sampleProfile : Document :=
  {| h1_text := js "alice";
     script_text := js "const address = " ++ [dquote] ++ repeat (ch "A") 32
                    ++ [dquote] ++ js ";";
     page_text := js "alice " ++ repeat (ch "B") 40
                  ++ js " alice.sol and bob.sol";
     avatar_src := Some (js "/avatar.png"); bigger_text := js "hi";
     gray_first_text := []; badge_pro_count := 0; social_labels := [];
     dock_areas := [];
     post_author_text := []; post_author_href := None;
     post_author_avatar := None; post_time_title := None;
     post_time_text := []; header_gray_text := [];
     topic_content_html := None; tag_texts := []; reply_cells := [];
     page_links := []; page_current_text := None; reply_user_ids := [] |}.

(** A profile page without an address in its script: two addresses in
    its text, and two domains further than 200 code units away. *)
Definition textProfile : Document :=
  {| h1_text := js "alice"; script_text := js "const theme = 1;";
     page_text := js "wallet " ++ repeat (ch "B") 40 ++ js " or "
                  ++ repeat (ch "C") 40 ++ js " "
                  ++ repeat (ch "-") 210
                  ++ js " alice.sol and bob.sol";
     avatar_src := Some (js "/avatar.png"); bigger_text := js "hi";
     gray_first_text := []; badge_pro_count := 0; social_labels := [];
     dock_areas := [];
     post_author_text := []; post_author_href := None;
     post_author_avatar := None; post_time_title := None;
     post_time_text := []; header_gray_text := [];
     topic_content_html := None; tag_texts := []; reply_cells := [];
     page_links := []; page_current_text := None; reply_user_ids := [] |}.

(** A profile page with four social labels (a GitHub link, an absolute
    link, a relative link and an [ftp] link) and one recent reply. *)
Definition socialProfile : Document :=
  {| h1_text := js "alice"; script_text := []; page_text := [];
     avatar_src := None; bigger_text := []; gray_first_text := [];
     badge_pro_count := 0;
     social_labels :=
       [ {| social_href := Some (js "https://github.com/alice");
            social_text := js "alice" |};
         {| social_href := Some (js "https://example.org");
            social_text := js "home" |};
         {| social_href := Some (js "/go/blog");
            social_text := js " blog " |};
         {| social_href := Some (js "ftp://example.org");
            social_text := js "files" |} ];
     dock_areas :=
       [ {| dock_fade_title := Some (js "2024-01-01 10:00:00");
            dock_fade_text := js "1 day ago";
            dock_reply_html := Some (js "nice post");
            dock_topic_href := Some (js "/t/123#reply1") |} ];
     post_author_text := []; post_author_href := None;
     post_author_avatar := None; post_time_title := None;
     post_time_text := []; header_gray_text := [];
     topic_content_html := None; tag_texts := []; reply_cells := [];
     page_links := []; page_current_text := None; reply_user_ids := [] |}.

(** The first page of a thread whose page links end with one labelled
    [next], and a transport that serves it for every URL. *)
Definition pageWithNextLink : Document :=
  {| h1_text := js "A thread"; script_text := []; page_text := [];
     avatar_src := None; bigger_text := []; gray_first_text := [];
     badge_pro_count := 0; social_labels := []; dock_areas := [];
     post_author_text := js "alice";
     post_author_href := Some (js "/member/alice");
     post_author_avatar := None; post_time_title := None;
     post_time_text := []; header_gray_text := [];
     topic_content_html := Some (js "hello"); tag_texts := [];
     reply_cells := [sampleCell (js "101") (js "bob") (js "a reply")];
     page_links :=
       samplePageLinks
       ++ [ {| link_href := Some (js "?p=2"); link_text := js "next" |} ];
     page_current_text := Some (js "1");
     reply_user_ids := [] |}.

Definition nextLinkThread (n : nat) (url : jsstring) : Exn + Document :=
  inr pageWithNextLink.

(** The first page of a thread with a page link whose text is a number
    that is not a double: it is read as [2^53]. *)
Definition pageWithHugeLink : Document :=
  {| h1_text := js "A thread"; script_text := []; page_text := [];
     avatar_src := None; bigger_text := []; gray_first_text := [];
     badge_pro_count := 0; social_labels := []; dock_areas := [];
     post_author_text := js "alice";
     post_author_href := Some (js "/member/alice");
     post_author_avatar := None; post_time_title := None;
     post_time_text := []; header_gray_text := [];
     topic_content_html := Some (js "hello"); tag_texts := [];
     reply_cells := [sampleCell (js "1") (js "bob") (js "first")];
     page_links := [ {| link_href := Some (js "?p=9007199254740993");
                        link_text := js "9007199254740993" |} ];
     page_current_text := Some (js "1");
     reply_user_ids := [] |}.

(** A transport that never answers. *)
Definition deadTransport (n : nat) (url : jsstring) : Exn + Document :=
  inl (js "timeout of 10000ms exceeded").

(** A transport that answers from the third request on. *)
Definition thirdTimeLucky (n : nat) (url : jsstring) : Exn + Document :=
  if n <? 2 then inl (js "timeout of 10000ms exceeded") else inr sampleProfile.

(** A transport that answers for every member but [bob]. *)
Definition allButBob (n : nat) (url : jsstring) : Exn + Document :=
  if str_eqb url (js "https://v2ex.com/member/bob")
  then inl (js "Request failed with status code 404")
  else inr sampleProfile.

Definition callerOptions : Options :=
  {| opt_timeout := None; opt_delay := None; opt_retryCount := Some 2%Z;
     opt_showProgress := None; opt_onProgress := true |}.

(* ================================================================== *)
(** * The matcher is sound for the matching relation *)
(* ================================================================== *)
Section MatcherSoundness.

Lemma rep_sound (r : regex) :
  (forall k x z, m r k x = Some z -> exists y, Matches r x y /\ k y = Some z) ->
  forall n lo k x z,
    rep (m r) lo n k x = Some z ->
    exists j y, Iter r j x y /\ lo <= j /\ j <= n /\ k y = Some z.
Proof.
  intros Hbody. induction n as [|n IH]; intros lo k x z H; cbn in H.
  - destruct lo; cbn in H; [|discriminate].
    exists 0, x. repeat split; auto. constructor.
  - destruct lo as [|l].
    + match type of H with
      | match ?b with _ => _ end = _ => destruct b as [z'|] eqn:E
      end.
      * inversion H; subst z'. apply Hbody in E as (y & My & Hd).
        cbn in Hd.
        destruct (length (after y) =? length (after x)); [discriminate|].
        apply IH in Hd as (j & y' & It & _ & Hj & Hk).
        exists (S j), y'. repeat split; try lia; auto.
        econstructor; eauto.
      * exists 0, x. repeat split; try lia; auto. constructor.
    + apply Hbody in H as (y & My & Hd). cbn in Hd.
      apply IH in Hd as (j & y' & It & Hlo & Hj & Hk).
      exists (S j), y'. repeat split; try lia; auto.
      econstructor; eauto.
Qed.

Lemma m_sound (r : regex) :
  forall k x z, m r k x = Some z -> exists y, Matches r x y /\ k y = Some z.
Proof.
  induction r as [|p|r1 IH1 r2 IH2|r1 IH1 r2 IH2|r IH lo hi|i r IH| |
                  |pos r IH|pos p];
    intros k x z H; cbn in H.
  - exists x; split; [constructor|assumption].
  - destruct x as [bef aft cs]; cbn in H.
    destruct aft as [|c rest]; [discriminate|].
    destruct (p c) eqn:Hp; [|discriminate].
    eexists; split; [constructor; exact Hp|exact H].
  - apply IH1 in H as (y & M1 & H). apply IH2 in H as (y' & M2 & H).
    exists y'; split; [econstructor; eauto|assumption].
  - destruct (m r1 k x) eqn:E.
    + inversion H; subst. apply IH1 in E as (y & M1 & Hk).
      exists y; split; [apply M_AltL|]; assumption.
    + apply IH2 in H as (y & M2 & Hk).
      exists y; split; [apply M_AltR|]; assumption.
  - apply (rep_sound IH) in H as (j & y & It & Hlo & Hj & Hk).
    exists y; split; [|assumption].
    apply M_Rep with (n := j); auto.
    intros h ->. assumption.
  - apply IH in H as (y & My & Hk).
    eexists; split; [apply M_Group; exact My|exact Hk].
  - destruct (before x) eqn:E; [|discriminate].
    exists x; split; [constructor|]; assumption.
  - destruct (after x) eqn:E; [|discriminate].
    exists x; split; [constructor|]; assumption.
  - destruct (m r Some x) as [y|] eqn:E.
    + destruct pos; [|discriminate].
      apply IH in E as (y' & My & Hy). inversion Hy; subst y'.
      eexists; split; [apply M_AheadPos; exact My|exact H].
    + destruct pos; [discriminate|].
      exists x; split; [apply M_AheadNeg|]; assumption.
  - destruct (before x) as [|c bef] eqn:E.
    + destruct pos; [discriminate|].
      exists x; split; [|assumption]. apply M_BehindNeg. rewrite E. exact I.
    + destruct (p c) eqn:Hp, pos; cbn in H; try discriminate.
      * exists x; split; [|assumption].
        apply M_BehindPos with (c := c); [rewrite E|]; auto.
      * exists x; split; [|assumption].
        apply M_BehindNeg. rewrite E. exact Hp.
Qed.

End MatcherSoundness.

(* ================================================================== *)
(** * The bound of an unbounded quantifier *)
(* ================================================================== *)
Section QuantifierBound.

(** The matcher calls its continuation only at positions of the input at
    or after the current one. *)
Lemma rep_ext (body : cont -> cont) :
  (forall k k' x,
      (forall y, length (after y) <= length (after x) -> k y = k' y) ->
      body k x = body k' x) ->
  forall n lo k k' x,
    (forall y, length (after y) <= length (after x) -> k y = k' y) ->
    rep body lo n k x = rep body lo n k' x.
Proof.
  intros Hbody. induction n as [|n IH]; intros lo k k' x Hk; cbn [rep].
  - rewrite (Hk x (le_n _)). reflexivity.
  - rewrite (Hk x (le_n _)).
    rewrite (Hbody
               (fun y => if (lo =? 0) && (length (after y) =? length (after x))
                         then None else rep body (pred lo) n k y)
               (fun y => if (lo =? 0) && (length (after y) =? length (after x))
                         then None else rep body (pred lo) n k' y) x).
    + reflexivity.
    + intros y Hy. destruct (_ && _); [reflexivity|].
      apply IH. intros z Hz. apply Hk. lia.
Qed.

Lemma m_ext r : forall k k' x,
  (forall y, length (after y) <= length (after x) -> k y = k' y) ->
  m r k x = m r k' x.
Proof.
  induction r as [|p|r1 IH1 r2 IH2|r1 IH1 r2 IH2|r IH lo hi|i r IH| |
                  |pos r IH|pos p];
    intros k k' x Hk; cbn [m].
  - apply Hk. lia.
  - destruct (after x) as [|c rest] eqn:E; [reflexivity|].
    destruct (p c); [|reflexivity]. apply Hk. cbn. lia.
  - apply IH1. intros y Hy. apply IH2. intros z Hz. apply Hk. lia.
  - rewrite (IH1 k k' x Hk), (IH2 k k' x Hk). reflexivity.
  - apply rep_ext; assumption.
  - apply IH. intros y Hy. apply Hk. cbn. exact Hy.
  - destruct (before x); [apply Hk; lia|reflexivity].
  - destruct (after x) eqn:E; [apply Hk; rewrite E; lia|reflexivity].
  - destruct (m r Some x); destruct pos; try reflexivity; apply Hk; cbn; lia.
  - destruct (before x) as [|c bef]; [destruct pos|destruct (Bool.eqb _ _)];
      try reflexivity; apply Hk; lia.
Qed.

(** A continuation that always fails makes the matcher fail. *)
Lemma rep_fail (body : cont -> cont) :
  (forall x, body (fun _ => None) x = None) ->
  (forall k k' x,
      (forall y, length (after y) <= length (after x) -> k y = k' y) ->
      body k x = body k' x) ->
  forall n lo x, rep body lo n (fun _ => None) x = None.
Proof.
  intros Hnone Hext. induction n as [|n IH]; intros lo x; cbn [rep].
  - destruct (lo =? 0); reflexivity.
  - rewrite (Hext _ (fun _ => None) x).
    + rewrite Hnone. destruct lo; reflexivity.
    + intros y _. destruct (_ && _); [reflexivity|apply IH].
Qed.

Lemma m_fail r : forall x, m r (fun _ => None) x = None.
Proof.
  induction r as [|p|r1 IH1 r2 IH2|r1 IH1 r2 IH2|r IH lo hi|i r IH| |
                  |pos r IH|pos p];
    intros x; cbn [m]; try reflexivity.
  - destruct (after x) as [|c rest]; [reflexivity|]. destruct (p c); reflexivity.
  - rewrite (m_ext r1 (m r2 (fun _ => None)) (fun _ => None) x);
      [apply IH1|]. intros y _. apply IH2.
  - rewrite IH1, IH2. reflexivity.
  - apply rep_fail; [exact IH|apply m_ext].
  - apply IH.
  - destruct (before x); reflexivity.
  - destruct (after x); reflexivity.
  - destruct (m r Some x); destruct pos; reflexivity.
  - destruct (before x); [destruct pos|destruct (Bool.eqb _ _)]; reflexivity.
Qed.

(** Beyond [lo + length (after x)] the bound of a quantifier does not
    matter. *)
Lemma rep_bound r k : forall mu n n' lo x,
  lo + length (after x) <= mu -> mu <= n -> mu <= n' ->
  rep (m r) lo n k x = rep (m r) lo n' k x.
Proof.
  induction mu as [|mu IH]; intros n n' lo x Hmu Hn Hn'.
  - assert (lo = 0) by lia. assert (Hx : length (after x) = 0) by lia. subst lo.
    assert (Hstuck : forall j,
               rep (m r) 0 j k x = k x).
    { intros [|j]; cbn [rep Nat.eqb]; [reflexivity|].
      rewrite (m_ext r _ (fun _ => None) x); [rewrite m_fail; reflexivity|].
      intros y Hy.
      replace (length (after y) =? length (after x)) with true
        by (symmetry; apply Nat.eqb_eq; lia).
      reflexivity. }
    rewrite !Hstuck. reflexivity.
  - destruct n as [|n], n' as [|n']; try lia. cbn [rep].
    rewrite (m_ext r
               (fun y => if (lo =? 0) && (length (after y) =? length (after x))
                         then None else rep (m r) (pred lo) n k y)
               (fun y => if (lo =? 0) && (length (after y) =? length (after x))
                         then None else rep (m r) (pred lo) n' k y) x).
    + reflexivity.
    + intros y Hy.
      destruct lo as [|lo]; cbn [Nat.eqb andb pred].
      * destruct (length (after y) =? length (after x)) eqn:E;
          [reflexivity|].
        apply Nat.eqb_neq in E. apply IH; lia.
      * apply IH; lia.
Qed.

(** An unbounded quantifier is the limit of its bounded versions: every
    bound from [lo + length (after x)] on gives the result of [r{lo,}]. *)
Theorem unbounded_quantifier r lo k x h :
  lo + length (after x) <= h ->
  m (Rep r lo (Some h)) k x = m (Rep r lo None) k x.
Proof.
  intros Hh. cbn [m].
  apply (@rep_bound r k (lo + length (after x))); lia.
Qed.

End QuantifierBound.

(* ================================================================== *)
(** * What a match looks like *)
(* ================================================================== *)
Section MatchShapes.

Lemma Matches_chr p x y :
  Matches (Chr p) x y ->
  exists c, p c = true /\ after x = c :: after y
            /\ before y = c :: before x /\ caps y = caps x.
Proof.
  intros H. inversion H; subst. exists c. cbn. auto.
Qed.

Lemma Iter_chr p : forall n x y,
  Iter (Chr p) n x y ->
  exists w, length w = n /\ forallb p w = true /\ after x = w ++ after y
            /\ before y = rev w ++ before x /\ caps y = caps x.
Proof.
  induction n as [|n IH]; intros x y H; inversion H; subst.
  - exists []. cbn. auto.
  - match goal with
    | M1 : Matches (Chr p) x ?y0, I1 : Iter (Chr p) n ?y0 y |- _ =>
        apply Matches_chr in M1 as (c & Hc & Ha & Hb & Hcs);
        apply IH in I1 as (w & Hl & Hw & Ha' & Hb' & Hcs')
    end.
    exists (c :: w). cbn. rewrite Hc, Hw, Ha, Ha', Hb', Hb, Hcs', Hcs, Hl.
    rewrite <- app_assoc. cbn. auto.
Qed.

Lemma Matches_rep_chr p lo hi x y :
  Matches (Rep (Chr p) lo hi) x y ->
  exists w, lo <= length w /\ (forall h, hi = Some h -> length w <= h)
            /\ forallb p w = true /\ after x = w ++ after y
            /\ before y = rev w ++ before x /\ caps y = caps x.
Proof.
  intros H. inversion H; subst.
  match goal with
  | I1 : Iter (Chr p) ?n x y |- _ =>
      apply Iter_chr in I1 as (w & Hl & Hw & Ha & Hb & Hcs)
  end.
  exists w. subst n. repeat split; auto.
Qed.

Lemma Matches_lit s : forall x y,
  Matches (lit s) x y ->
  after x = s ++ after y /\ before y = rev s ++ before x /\ caps y = caps x.
Proof.
  induction s as [|c s IH]; intros x y H;
    [|change (lit (c :: s)) with (Seq (Chr (char_eqb c)) (lit s)) in H];
    inversion H; subst.
  - auto.
  - match goal with
    | M1 : Matches (Chr _) x ?y0, M2 : Matches (lit s) ?y0 y |- _ =>
        apply Matches_chr in M1 as (c' & Hc & Ha & Hb & Hcs);
        apply IH in M2 as (Ha' & Hb' & Hcs')
    end.
    apply N.eqb_eq in Hc. subst c'.
    cbn. rewrite Ha, Ha', Hb', Hb, Hcs', Hcs, <- app_assoc. auto.
Qed.

(** A literal under the [i] flag matches a string of the same length. *)
Lemma Matches_liti s : forall x y,
  Matches (liti s) x y ->
  exists w, length w = length s /\ after x = w ++ after y
            /\ before y = rev w ++ before x /\ caps y = caps x
            /\ Forall2 (fun c d => d = c \/ d = toggleCase c) s w.
Proof.
  induction s as [|c s IH]; intros x y H;
    [|change (liti (c :: s))
        with (Seq (Chr (fun x => char_eqb c x || char_eqb (toggleCase c) x))
                  (liti s)) in H];
    inversion H; subst.
  - exists []. cbn. auto.
  - match goal with
    | M1 : Matches (Chr _) x ?y0, M2 : Matches (liti s) ?y0 y |- _ =>
        apply Matches_chr in M1 as (c' & Hc & Ha & Hb & Hcs);
        apply IH in M2 as (w & Hl & Ha' & Hb' & Hcs' & HF)
    end.
    exists (c' :: w). cbn.
    rewrite Hl, Ha, Ha', Hb', Hb, Hcs', Hcs, <- app_assoc.
    repeat split; auto. constructor; [|assumption].
    apply orb_true_iff in Hc as [Hc|Hc]; apply N.eqb_eq in Hc; auto.
Qed.

(** A match passes over a segment of the input. *)
Lemma Matches_passes r : forall x y,
  Matches r x y ->
  exists w, after x = w ++ after y /\ before y = rev w ++ before x.
Proof.
  induction r as [|p|r1 IH1 r2 IH2|r1 IH1 r2 IH2|r IH lo hi|i r IH| |
                  |pos r IH|pos p];
    intros x y H; inversion H; subst; try (exists []; cbn; auto; fail).
  - exists [c]. cbn. auto.
  - match goal with
    | M1 : Matches r1 x ?y0, M2 : Matches r2 ?y0 y |- _ =>
        apply IH1 in M1 as (w1 & Ha & Hb); apply IH2 in M2 as (w2 & Ha' & Hb')
    end.
    exists (w1 ++ w2).
    rewrite Ha, Ha', Hb', Hb, rev_app_distr, <- !app_assoc. auto.
  - auto.
  - auto.
  - match goal with I1 : Iter r ?n x y |- _ => revert I1; clear - IH end.
    revert x. induction n as [|n IHn]; intros x It; inversion It; subst.
    + exists []. cbn. auto.
    + match goal with
      | M1 : Matches r x ?y0, I1 : Iter r n ?y0 y |- _ =>
          apply IH in M1 as (w1 & Ha & Hb); apply IHn in I1 as (w2 & Ha' & Hb')
      end.
      exists (w1 ++ w2).
      rewrite Ha, Ha', Hb', Hb, rev_app_distr, <- !app_assoc. auto.
  - match goal with M1 : Matches r x ?y0 |- _ => apply IH in M1 as (w & Ha & Hb) end.
    exists w. cbn. auto.
Qed.

Lemma consumed_passes x y w :
  after x = w ++ after y -> consumed x y = w.
Proof.
  intros H. unfold consumed. rewrite H, length_app.
  replace (length w + length (after y) - length (after y)) with (length w) by lia.
  rewrite firstn_app, firstn_all, Nat.sub_diag. cbn. apply app_nil_r.
Qed.

(** The leftmost search returns a match of the pattern, at a position of
    the text it was started on. *)
Lemma search_sound r : forall aft bef x y,
  search r bef aft = Some (x, y) ->
  Matches r x y /\ caps x = []
  /\ exists skipped, aft = skipped ++ after x
                     /\ before x = rev skipped ++ bef.
Proof.
  induction aft as [|c rest IH]; intros bef x y H; cbn in H.
  - destruct (m r Some (MState bef [] [])) eqn:E; [|discriminate].
    inversion H; subst. apply m_sound in E as (y' & My & Hy).
    inversion Hy; subst. repeat split; auto. exists []. auto.
  - destruct (m r Some (MState bef (c :: rest) [])) eqn:E.
    + inversion H; subst. apply m_sound in E as (y' & My & Hy).
      inversion Hy; subst. repeat split; auto. exists []. auto.
    + apply IH in H as (My & Hc & sk & Ha & Hb).
      repeat split; auto. exists (c :: sk). cbn.
      rewrite Ha, Hb, <- app_assoc. auto.
Qed.

Lemma search_none r : forall aft bef,
  (forall pre suf, aft = pre ++ suf ->
                   m r Some (MState (rev pre ++ bef) suf []) = None) ->
  search r bef aft = None.
Proof.
  induction aft as [|c rest IH]; intros bef H; cbn.
  - pose proof (H [] [] eq_refl) as E. cbn in E. rewrite E. reflexivity.
  - pose proof (H [] (c :: rest) eq_refl) as E. cbn in E. rewrite E.
    apply IH. intros pre suf ->.
    specialize (H (c :: pre) suf eq_refl). cbn in H.
    rewrite <- app_assoc in H. exact H.
Qed.

(** Every match reported by the global scan is a match of the pattern at
    a position of the scanned text. *)
Lemma scan_sound r mt : forall aft bef skip,
  In mt (scan r bef aft skip) ->
  exists x y, mt = result_of x y /\ Matches r x y /\ caps x = []
              /\ rev (before x) ++ after x = rev bef ++ aft.
Proof.
  induction aft as [|c rest IH]; intros bef skip H.
  - destruct skip; cbn in H; [|contradiction].
    destruct (m r Some (MState bef [] [])) eqn:E; [|contradiction].
    destruct H as [<-|[]].
    apply m_sound in E as (y' & My & Hy). inversion Hy; subst.
    eexists _, _. repeat split; eauto.
  - assert (Hrest : forall s, In mt (scan r (c :: bef) rest s) ->
              exists x y, mt = result_of x y /\ Matches r x y /\ caps x = []
                          /\ rev (before x) ++ after x = rev bef ++ c :: rest).
    { intros s Hs. apply IH in Hs as (x & y & -> & My & Hc & Ht).
      exists x, y. repeat split; auto. rewrite Ht. cbn.
      rewrite <- app_assoc. reflexivity. }
    destruct skip; cbn in H; [|eauto].
    destruct (m r Some (MState bef (c :: rest) [])) eqn:E; [|eauto].
    destruct H as [<-|H]; [|eauto].
    apply m_sound in E as (y' & My & Hy). inversion Hy; subst.
    eexists _, _. repeat split; eauto.
Qed.

(** Where a pattern matches nowhere, a global replacement changes nothing. *)
Lemma replaceScan_none r rep' : forall aft bef,
  (forall pre suf, aft = pre ++ suf ->
                   m r Some (MState (rev pre ++ bef) suf []) = None) ->
  replaceScan r rep' bef aft 0 = aft.
Proof.
  induction aft as [|c rest IH]; intros bef H; cbn.
  - pose proof (H [] [] eq_refl) as E. cbn in E. rewrite E. reflexivity.
  - pose proof (H [] (c :: rest) eq_refl) as E. cbn in E. rewrite E. f_equal.
    apply IH. intros pre suf ->.
    specialize (H (c :: pre) suf eq_refl). cbn in H.
    rewrite <- app_assoc in H. exact H.
Qed.

End MatchShapes.

(* ================================================================== *)
(** * Strings *)
(* ================================================================== *)
Section StringFacts.

Lemma char_eqb_refl c : char_eqb c c = true.
Proof. apply N.eqb_refl. Qed.

Lemma char_eqb_eq a b : char_eqb a b = true <-> a = b.
Proof. apply N.eqb_eq. Qed.

Lemma str_eqb_eq : forall a b, str_eqb a b = true <-> a = b.
Proof.
  induction a as [|x a IH]; destruct b as [|y b]; cbn;
    try (split; [discriminate|discriminate]); try tauto.
  rewrite andb_true_iff, char_eqb_eq, IH.
  split; [intros [-> ->]; reflexivity|intros E; inversion E; auto].
Qed.

Lemma startsWith_app e : forall t, startsWith e (e ++ t) = true.
Proof.
  induction e as [|c e IH]; intros t; cbn; [reflexivity|].
  rewrite char_eqb_refl. apply IH.
Qed.

Lemma startsWith_app_r e : forall x post,
  startsWith e x = true -> startsWith e (x ++ post) = true.
Proof.
  induction e as [|c e IH]; intros [|d x] post H; cbn in *; auto;
    try discriminate.
  apply andb_true_iff in H as [-> H]. cbn. auto.
Qed.

Lemma includes_app_l e : forall pre suf,
  includes e suf = true -> includes e (pre ++ suf) = true.
Proof.
  induction pre as [|c pre IH]; intros suf H; [assumption|].
  cbn [app includes]. rewrite (IH _ H). apply orb_true_r.
Qed.

Lemma includes_app_r e : forall x post,
  includes e x = true -> includes e (x ++ post) = true.
Proof.
  induction x as [|c x IH]; intros post H.
  - cbn in H. rewrite orb_false_r in H.
    destruct e; [|discriminate]. destruct post; reflexivity.
  - cbn [includes] in H. apply orb_true_iff in H as [H|H].
    + cbn [app includes].
      change (c :: x ++ post) with ((c :: x) ++ post).
      rewrite (startsWith_app_r _ _ post H). reflexivity.
    + cbn [app includes]. rewrite (IH _ H). apply orb_true_r.
Qed.

Lemma includes_here e t : includes e (e ++ t) = true.
Proof.
  destruct (e ++ t) eqn:E; cbn [includes]; rewrite <- E, startsWith_app;
    reflexivity.
Qed.

Lemma containsTag_app_l : forall pre suf,
  containsTag suf = true -> containsTag (pre ++ suf) = true.
Proof.
  induction pre as [|c pre IH]; intros suf H; [assumption|].
  cbn. rewrite (IH _ H). apply orb_true_r.
Qed.

Lemma containsTag_app_r : forall x post,
  containsTag x = true -> containsTag (x ++ post) = true.
Proof.
  induction x as [|c x IH]; intros post H; [discriminate|].
  cbn in *. apply orb_true_iff in H as [H|H].
  - apply andb_true_iff in H as [-> H].
    rewrite existsb_app, H. reflexivity.
  - rewrite (IH _ H). apply orb_true_r.
Qed.

Lemma containsTag_intro w rest :
  containsTag (ch "<" :: w ++ ch ">" :: rest) = true.
Proof.
  cbn [containsTag]. rewrite char_eqb_refl, existsb_app. cbn [existsb].
  rewrite char_eqb_refl, orb_true_r. reflexivity.
Qed.

Lemma dropWhile_suffix p : forall l, exists pre, l = pre ++ dropWhile p l.
Proof.
  induction l as [|c l [pre IH]]; [exists []; reflexivity|].
  cbn. destruct (p c).
  - exists (c :: pre). cbn. f_equal. exact IH.
  - exists []. reflexivity.
Qed.

Lemma dropWhile_head p : forall l,
  match dropWhile p l with [] => True | c :: _ => p c = false end.
Proof.
  induction l as [|c l IH]; cbn; [exact I|].
  destruct (p c) eqn:E; [exact IH|exact E].
Qed.

Lemma dropWhile_fix p l :
  match l with [] => True | c :: _ => p c = false end ->
  dropWhile p l = l.
Proof.
  destruct l as [|c l]; cbn; [reflexivity|]. intros ->. reflexivity.
Qed.

(** A trimmed string is a segment of the string. *)
Lemma trim_segment s : exists pre post, s = pre ++ trim s ++ post.
Proof.
  unfold trim, trimStart, trimEnd.
  destruct (dropWhile_suffix isWhiteSpace (rev s)) as [a Ha].
  destruct (dropWhile_suffix isWhiteSpace (rev (dropWhile isWhiteSpace (rev s))))
    as [b Hb].
  exists b, (rev a).
  rewrite app_assoc, <- Hb, <- rev_app_distr, <- Ha, rev_involutive.
  reflexivity.
Qed.

Lemma trim_idempotent s : trim (trim s) = trim s.
Proof.
  unfold trim, trimStart, trimEnd.
  set (D := dropWhile isWhiteSpace (rev s)).
  set (t := dropWhile isWhiteSpace (rev D)).
  assert (Ht : rev (dropWhile isWhiteSpace (rev t)) = t).
  { destruct (dropWhile_suffix isWhiteSpace (rev D)) as [pre Hpre].
    fold t in Hpre.
    assert (HD : D = rev t ++ rev pre).
    { rewrite <- rev_app_distr, <- Hpre, rev_involutive. reflexivity. }
    rewrite dropWhile_fix; [apply rev_involutive|].
    pose proof (dropWhile_head isWhiteSpace (rev s)) as Hh. fold D in Hh.
    destruct (rev t) as [|c rt]; [exact I|].
    rewrite HD in Hh. exact Hh. }
  rewrite Ht. apply dropWhile_fix. apply dropWhile_head.
Qed.

End StringFacts.

(* ================================================================== *)
(** * Inversion of the matching relation *)
(* ================================================================== *)
Section MatchInversion.

Lemma Matches_seq r1 r2 x z :
  Matches (Seq r1 r2) x z -> exists y, Matches r1 x y /\ Matches r2 y z.
Proof. intros H; inversion H; subst; eauto. Qed.

Lemma Matches_alt r1 r2 x y :
  Matches (Alt r1 r2) x y -> Matches r1 x y \/ Matches r2 x y.
Proof. intros H; inversion H; subst; auto. Qed.

Lemma Matches_group i r x z :
  Matches (Group i r) x z ->
  exists y, Matches r x y
            /\ z = MState (before y) (after y) ((i, consumed x y) :: caps y).
Proof. intros H; inversion H; subst; eauto. Qed.

Lemma Matches_bol x y : Matches Bol x y -> y = x /\ before x = [].
Proof. intros H; inversion H; subst; auto. Qed.

Lemma Matches_eol x y : Matches Eol x y -> y = x /\ after x = [].
Proof. intros H; inversion H; subst; auto. Qed.

Lemma Matches_not_ahead_chr p x y :
  Matches (Ahead false (Chr p)) x y ->
  y = x /\ match after x with [] => True | c :: _ => p c = false end.
Proof.
  intros H; inversion H as [| | | | | | | | | |r0 x0 E| |]; subst.
  split; [reflexivity|]. cbn in E.
  destruct (after y) as [|c rest]; [exact I|].
  destruct (p c); [discriminate|reflexivity].
Qed.

Lemma Matches_not_behind p x y :
  Matches (Behind false p) x y ->
  y = x /\ match before x with [] => True | c :: _ => p c = false end.
Proof.
  intros H; inversion H as [| | | | | | | | | | | |p0 x0 E]; subst.
  split; [reflexivity|].
  destruct (before y); cbn in *; auto.
Qed.

Lemma Matches_ahead r x z :
  Matches (Ahead true r) x z ->
  exists y, Matches r x y /\ z = MState (before x) (after x) (caps y).
Proof. intros H; inversion H; subst; eauto. Qed.

End MatchInversion.

(* ================================================================== *)
(** * Fragment normalisation *)
(* ================================================================== *)
Section Normalisation.

Lemma brTag_shape x y : Matches brTag x y -> containsTag (after x) = true.
Proof.
  unfold brTag, star, opt. cbn [seqs]. intros H.
  apply Matches_seq in H as (y1 & H1 & H).
  apply Matches_seq in H as (y2 & H2 & H).
  apply Matches_seq in H as (y3 & H3 & H).
  apply Matches_seq in H as (y4 & H4 & H).
  apply Matches_lit in H1 as (E1 & _). apply Matches_lit in H as (E5 & _).
  apply Matches_passes in H2 as (w2 & E2 & _).
  apply Matches_passes in H3 as (w3 & E3 & _).
  apply Matches_passes in H4 as (w4 & E4 & _).
  rewrite E1, E2, E3, E4, E5.
  replace (js "<" ++ w2 ++ w3 ++ w4 ++ js ">" ++ after y)
    with (ch "<" :: (w2 ++ w3 ++ w4) ++ ch ">" :: after y)
    by (cbn; rewrite <- !app_assoc; reflexivity).
  apply containsTag_intro.
Qed.

Lemma anyTag_shape x y : Matches anyTag x y -> containsTag (after x) = true.
Proof.
  unfold anyTag, star. cbn [seqs]. intros H.
  apply Matches_seq in H as (y1 & H1 & H).
  apply Matches_seq in H as (y2 & H2 & H).
  apply Matches_lit in H1 as (E1 & _). apply Matches_lit in H as (E3 & _).
  apply Matches_passes in H2 as (w2 & E2 & _).
  rewrite E1, E2, E3. apply (containsTag_intro w2).
Qed.

(** A global replacement is the identity on a text in which the pattern
    only matches where a property [bad], absent from the text, holds. *)
Lemma replaceAll_absent r rep' (bad : jsstring -> bool) f :
  (forall x y, Matches r x y -> bad (after x) = true) ->
  (forall pre suf, bad suf = true -> bad (pre ++ suf) = true) ->
  bad f = false ->
  replaceAll r rep' f = f.
Proof.
  intros Hshape Hmono Hf. unfold replaceAll. apply replaceScan_none.
  intros pre suf ->.
  destruct (m r Some (MState (rev pre ++ []) suf [])) eqn:E; [|reflexivity].
  apply m_sound in E as (y & My & _). apply Hshape in My. cbn in My.
  apply (Hmono pre) in My. congruence.
Qed.

Lemma replaceAll_entity e rep' f :
  includes e f = false -> replaceAll (lit e) rep' f = f.
Proof.
  apply replaceAll_absent.
  - intros x y H. apply Matches_lit in H as (E & _). rewrite E.
    apply includes_here.
  - intros pre suf. apply includes_app_l.
Qed.

(** On a fragment without tags and known entities the chain only trims. *)
Lemma normalize_plain f :
  containsTag f = false ->
  (forall e, In e knownEntities -> includes e f = false) ->
  normalize f = trim f.
Proof.
  intros Htag Hent. unfold normalize.
  rewrite (replaceAll_absent _ containsTag f brTag_shape containsTag_app_l Htag).
  rewrite (replaceAll_absent _ containsTag f anyTag_shape containsTag_app_l Htag).
  rewrite (replaceAll_entity (js "&nbsp;") _ f) by (apply Hent; cbn; auto 10).
  rewrite (replaceAll_entity (js "&lt;") _ f) by (apply Hent; cbn; auto 10).
  rewrite (replaceAll_entity (js "&gt;") _ f) by (apply Hent; cbn; auto 10).
  rewrite (replaceAll_entity (js "&amp;") _ f) by (apply Hent; cbn; auto 10).
  rewrite (replaceAll_entity (js "&quot;") _ f) by (apply Hent; cbn; auto 10).
  reflexivity.
Qed.

(** C3, at the entity pairs it names: [&amp;lt;] is decoded once, but
    [&amp;quot;] is decoded twice, because [&quot;] is replaced after
    [&amp;]. *)
Theorem normalize_amp_then_quot :
  normalize (js "&amp;lt;") = js "&lt;"
  /\ normalize (js "&amp;quot;") = [dquote].
Proof. split; vm_compute; reflexivity. Qed.

(** C9: on a fragment that contains no markup tag and none of the five
    known entities, normalising twice is normalising once. *)
Theorem normalize_idempotent f :
  containsTag f = false ->
  (forall e, In e knownEntities -> includes e f = false) ->
  normalize (normalize f) = normalize f.
Proof.
  intros Htag Hent. rewrite (normalize_plain f Htag Hent).
  destruct (trim_segment f) as (pre & post & Hseg).
  rewrite normalize_plain.
  - apply trim_idempotent.
  - destruct (containsTag (trim f)) eqn:E; [|reflexivity].
    rewrite Hseg in Htag.
    rewrite (containsTag_app_l pre _ (containsTag_app_r _ post E)) in Htag.
    discriminate.
  - intros e He. destruct (includes e (trim f)) eqn:E; [|reflexivity].
    specialize (Hent e He). rewrite Hseg in Hent.
    rewrite (includes_app_l e pre _ (includes_app_r e _ post E)) in Hent.
    discriminate.
Qed.

Lemma normalize_idempotent_witness :
  let f := js "  5 > 3 & rising" ++ [newline] ++ js "2 < 4 noted  " in
  normalize (normalize f) = normalize f
  /\ normalize f = js "5 > 3 & rising" ++ [newline] ++ js "2 < 4 noted".
Proof.
  split.
  - apply normalize_idempotent.
    + vm_compute. reflexivity.
    + intros e He. cbn in He.
      repeat (destruct He as [<-|He]; [vm_compute; reflexivity|]).
      destruct He.
  - vm_compute. reflexivity.
Defined.

End Normalisation.

(* ================================================================== *)
(** * Domain recognition *)
(* ================================================================== *)
Section Domains.

Lemma in_uniqFrom d : forall xs seen, In d (uniqFrom seen xs) -> In d xs.
Proof.
  induction xs as [|x xs IH]; intros seen H; cbn in *; [assumption|].
  destruct (mem x seen); [right; eauto|].
  destruct H as [H|H]; [left; assumption|right; eauto].
Qed.

Lemma in_uniq d xs : In d (uniq xs) -> In d xs.
Proof. apply in_uniqFrom. Qed.

(** A match of the domain pattern: a label and [.sol], after white space
    or the start of the text, before white space or the end. *)
Lemma domainRegex_shape x y :
  Matches domainRegex x y ->
  exists label post,
    after x = label ++ js ".sol" ++ post /\ after y = post
    /\ label <> [] /\ forallb isLabelChar label = true
    /\ match before x with [] => True | c :: _ => isWhiteSpace c = true end
    /\ match post with [] => True | c :: _ => isWhiteSpace c = true end.
Proof.
  unfold domainRegex, plus. cbn [seqs]. intros H.
  apply Matches_seq in H as (y1 & H1 & H).
  apply Matches_seq in H as (y2 & H2 & H3).
  apply Matches_not_behind in H1 as (-> & Hbef).
  apply Matches_group in H2 as (y3 & H2 & ->).
  apply Matches_seq in H2 as (y4 & Hl & Hs).
  apply Matches_rep_chr in Hl as (w & Hlen & _ & Hw & Ea & _).
  apply Matches_lit in Hs as (Es & _).
  apply Matches_ahead in H3 as (y5 & H3 & ->). cbn in *.
  exists w, (after y3). rewrite Ea, Es. repeat split; auto.
  - destruct w; [cbn in Hlen; lia|discriminate].
  - destruct (before x) as [|c b]; [exact I|].
    destruct (isWhiteSpace c); [reflexivity|discriminate].
  - apply Matches_alt in H3 as [H3|H3].
    + apply Matches_chr in H3 as (c & Hc & E & _). cbn in E.
      rewrite E. exact Hc.
    + apply Matches_eol in H3 as (_ & E). cbn in E. rewrite E. exact I.
Qed.

Lemma domain_occurrence text d :
  In d (extractSolanaDomainsFromText text) ->
  exists pre label post,
    text = pre ++ d ++ post /\ d = label ++ js ".sol"
    /\ label <> [] /\ forallb isLabelChar label = true
    /\ (pre = [] \/ exists pre' c, pre = pre' ++ [c] /\ isWhiteSpace c = true)
    /\ (post = [] \/ exists c post', post = c :: post' /\ isWhiteSpace c = true).
Proof.
  unfold extractSolanaDomainsFromText.
  destruct (negb (truthy text)); [intros []|].
  intros H. apply in_uniq in H. apply filter_In in H as [H _].
  apply in_map_iff in H as (mt & <- & H).
  apply scan_sound in H as (x & y & -> & HM & _ & Htext).
  apply domainRegex_shape in HM as (label & post & Ea & Ey & Hne & Hl & Hb & Hp).
  exists (rev (before x)), label, post. cbn in Htext. cbn [result_of whole].
  assert (Hc : consumed x y = label ++ js ".sol").
  { rewrite <- (consumed_passes x y (label ++ js ".sol")); [reflexivity|].
    rewrite Ea, Ey, <- app_assoc. reflexivity. }
  rewrite Hc. repeat split; auto.
  - rewrite <- Htext, Ea, <- app_assoc. reflexivity.
  - destruct (before x) as [|c b]; [left; reflexivity|].
    right. exists (rev b), c. cbn. auto.
  - destruct post as [|c post']; [left; reflexivity|].
    right. exists c, post'. auto.
Qed.

(** C6: the two sample texts, and the general rule behind them:
    every domain returned occurs in the text as a label followed by
    [.sol], with white space or an edge of the text on either side. *)
Theorem domains_bounded_by_whitespace :
  extractSolanaDomainsFromText (js "send to myname.sol please")
  = [js "myname.sol"]
  /\ extractSolanaDomainsFromText (js "visit example.solutions") = []
  /\ forall text d,
       In d (extractSolanaDomainsFromText text) ->
       exists pre label post,
         text = pre ++ d ++ post /\ d = label ++ js ".sol"
         /\ label <> [] /\ forallb isLabelChar label = true
         /\ (pre = [] \/ exists pre' c,
                pre = pre' ++ [c] /\ isWhiteSpace c = true)
         /\ (post = [] \/ exists c post',
                post = c :: post' /\ isWhiteSpace c = true).
Proof.
  split; [vm_compute; reflexivity|].
  split; [vm_compute; reflexivity|].
  apply domain_occurrence.
Qed.

Lemma domains_bounded_by_whitespace_witness :
  In (js "myname.sol")
     (extractSolanaDomainsFromText (js "send to myname.sol please"))
  /\ exists pre label post,
       js "send to myname.sol please" = pre ++ js "myname.sol" ++ post
       /\ js "myname.sol" = label ++ js ".sol"
       /\ label <> [] /\ forallb isLabelChar label = true
       /\ (pre = [] \/ exists pre' c,
              pre = pre' ++ [c] /\ isWhiteSpace c = true)
       /\ (post = [] \/ exists c post',
              post = c :: post' /\ isWhiteSpace c = true).
Proof.
  assert (H : In (js "myname.sol")
                 (extractSolanaDomainsFromText (js "send to myname.sol please")))
    by (vm_compute; left; reflexivity).
  split; [exact H|].
  exact (proj2 (proj2 domains_bounded_by_whitespace) _ _ H).
Defined.

End Domains.

(* ================================================================== *)
(** * Address recognition *)
(* ================================================================== *)
Section Addresses.

(** A match of the address pattern: an optional boundary character and a
    run of 32 to 44 base58 characters that no base58 character follows. *)
Lemma addressRegex_shape x y :
  Matches addressRegex x y ->
  exists lead w,
    after x = lead ++ w ++ after y
    /\ caps y = (1, w) :: caps x
    /\ 32 <= length w <= 44 /\ forallb isBase58 w = true
    /\ match rev lead ++ before x with
       | [] => True
       | c :: _ => isBase58 c = false
       end
    /\ length lead <= 1
    /\ match after y with [] => True | c :: _ => isBase58 c = false end.
Proof.
  unfold addressRegex, notChr. cbn [seqs]. intros H.
  apply Matches_seq in H as (y1 & H1 & H).
  apply Matches_seq in H as (y2 & H2 & H3).
  apply Matches_group in H2 as (y3 & H2 & ->).
  apply Matches_rep_chr in H2 as (w & Hlo & Hhi & Hw & Ea & _ & Hc).
  apply Matches_not_ahead_chr in H3 as (-> & Hnext). cbn in Hnext |- *.
  specialize (Hhi 44 eq_refl).
  rewrite (consumed_passes y1 y3 w Ea).
  apply Matches_alt in H1 as [H1|H1].
  - apply Matches_bol in H1 as (-> & Hb).
    exists [], w. cbn. rewrite Hb, Hc. repeat split; auto.
  - apply Matches_chr in H1 as (c & Hp & E1 & Eb & Ec).
    exists [c], w. cbn. rewrite E1, Ea, Hc, Ec.
    repeat split; auto.
    destruct (isBase58 c); [discriminate|reflexivity].
Qed.

Lemma rev_head_last (pre : jsstring) c r :
  rev pre = c :: r -> pre = rev r ++ [c].
Proof.
  intros H. rewrite <- (rev_involutive pre), H. reflexivity.
Qed.

(** Every match kept by the loop is a maximal run of 32 to 44 base58
    characters at its start index, and passed both filters. *)
Lemma candidates_are_runs text i a :
  In (i, a) (addressCandidates text) ->
  maximalRunAt text i a /\ 32 <= length a <= 44
  /\ isValidSolanaAddress a = true
  /\ isPartOfUrl text i (length a) = false.
Proof.
  unfold addressCandidates. intros H.
  apply in_flat_map in H as (mt & Hmt & H).
  apply scan_sound in Hmt as (x & y & -> & HM & Hcx & Htext).
  apply addressRegex_shape in HM
    as (lead & w & Ea & Hc & Hlen & Hw & Hb & Hlead & Hn).
  assert (Hg : group 1 (result_of x y) = w).
  { unfold group, result_of. cbn. rewrite Hc. reflexivity. }
  assert (Hi : addressStartIndex (result_of x y)
               = length (rev (before x) ++ lead)).
  { unfold addressStartIndex. rewrite Hg. unfold result_of. cbn.
    rewrite (consumed_passes x y (lead ++ w)) by (rewrite Ea, app_assoc; reflexivity).
    rewrite !length_app, length_rev. lia. }
  rewrite Hg, Hi in H.
  destruct (isValidSolanaAddress w) eqn:Hv; [|destruct H].
  destruct (isPartOfUrl text (length (rev (before x) ++ lead)) (length w))
    eqn:Hu; [destruct H|].
  cbn in H. destruct H as [H|[]]. inversion H; subst i a.
  repeat split; auto; try lia.
  exists (rev (before x) ++ lead), (after y). repeat split; auto.
  - cbn in Htext. rewrite <- Htext, Ea, <- !app_assoc. reflexivity.
  - rewrite rev_app_distr, rev_involutive. exact Hb.
Qed.

Lemma in_uniqFrom_inv d : forall xs seen,
  In d xs -> mem d seen = false -> In d (uniqFrom seen xs).
Proof.
  induction xs as [|x xs IH]; intros seen H Hs; [destruct H|].
  cbn. destruct (mem x seen) eqn:E.
  - destruct H as [->|H]; [congruence|auto].
  - destruct H as [->|H]; [left; reflexivity|].
    destruct (str_eqb d x) eqn:Ed.
    + apply str_eqb_eq in Ed. left. auto.
    + right. apply IH; [assumption|]. unfold mem in *. cbn.
      rewrite Ed. exact Hs.
Qed.

(** The addresses returned are the addresses of the matches kept. *)
Lemma extracted_iff_candidate text a :
  In a (extractSolanaAddressesWithBoundary text)
  <-> exists i, In (i, a) (addressCandidates text).
Proof.
  unfold extractSolanaAddressesWithBoundary. split.
  - destruct (negb (truthy text)); [intros []|].
    intros H. apply in_uniq in H. apply in_map_iff in H as ([i a'] & E & H).
    cbn in E. subst a'. eauto.
  - intros [i H]. destruct text as [|c t]; [destruct H|]. cbn [truthy negb].
    apply in_uniqFrom_inv; [|reflexivity].
    apply in_map_iff. exists (i, a). auto.
Qed.

Lemma run_chars text i w :
  maximalRunAt text i w ->
  i + length w <= length text
  /\ (forall n, i <= n < i + length w ->
                exists c, nth_error text n = Some c /\ isBase58 c = true)
  /\ (0 < i -> exists c, nth_error text (i - 1) = Some c /\ isBase58 c = false)
  /\ (forall c, nth_error text (i + length w) = Some c -> isBase58 c = false)
  /\ w = firstn (length w) (skipn i text).
Proof.
  intros (pre & post & -> & <- & Hw & Hpre & Hpost).
  split; [rewrite !length_app; lia|].
  split; [|split; [|split]].
  - intros n Hn.
    rewrite nth_error_app2 by lia. rewrite nth_error_app1 by lia.
    destruct (nth_error w (n - length pre)) as [c|] eqn:E.
    + exists c. split; [reflexivity|].
      apply nth_error_In in E. rewrite forallb_forall in Hw. auto.
    + apply nth_error_None in E. lia.
  - intros Hpos. destruct (rev pre) as [|c r] eqn:E.
    + apply (f_equal (@length char)) in E. rewrite length_rev in E.
      cbn in E. lia.
    + apply rev_head_last in E. exists c. split; [|exact Hpre].
      rewrite nth_error_app1 by lia. subst pre.
      rewrite length_app. cbn [length].
      rewrite nth_error_app2 by lia.
      replace (length (rev r) + 1 - 1 - length (rev r)) with 0 by lia.
      reflexivity.
  - intros c Hc.
    rewrite nth_error_app2 in Hc by lia. rewrite nth_error_app2 in Hc by lia.
    replace (length pre + length w - length pre - length w) with 0 in Hc by lia.
    destruct post as [|d post]; [discriminate|]. cbn in Hc.
    inversion Hc; subst. exact Hpost.
  - rewrite skipn_app, skipn_all, Nat.sub_diag. cbn [app skipn].
    rewrite firstn_app, firstn_all, Nat.sub_diag. cbn. symmetry.
    apply app_nil_r.
Qed.

(** Two maximal runs of one text are apart, or are the same run. *)
Lemma runs_disjoint_or_equal text i w j v :
  maximalRunAt text i w -> maximalRunAt text j v ->
  i + length w <= j \/ j + length v <= i \/ (i = j /\ w = v).
Proof.
  intros Hw Hv.
  apply run_chars in Hw as (Lw & Iw & Bw & Aw & Ew).
  apply run_chars in Hv as (Lv & Iv & Bv & Av & Ev).
  destruct (le_lt_dec (i + length w) j) as [|H1]; [left; assumption|].
  destruct (le_lt_dec (j + length v) i) as [|H2]; [right; left; assumption|].
  right; right.
  assert (Hij : i = j).
  { destruct (Nat.lt_trichotomy i j) as [Hlt|[Heq|Hgt]]; [|assumption|].
    - destruct (Bv ltac:(lia)) as (c & Hc & Hn).
      destruct (Iw (j - 1) ltac:(lia)) as (c' & Hc' & Hy). congruence.
    - destruct (Bw ltac:(lia)) as (c & Hc & Hn).
      destruct (Iv (i - 1) ltac:(lia)) as (c' & Hc' & Hy). congruence. }
  subst j. split; [reflexivity|].
  assert (Hlen : length w = length v).
  { destruct (Nat.lt_trichotomy (length w) (length v)) as [Hlt|[Heq|Hgt]];
      [|assumption|].
    - destruct (Iv (i + length w) ltac:(lia)) as (c & Hc & Hy).
      rewrite (Aw c Hc) in Hy. discriminate.
    - destruct (Iw (i + length v) ltac:(lia)) as (c & Hc & Hy).
      rewrite (Av c Hc) in Hy. discriminate. }
  rewrite Ew, Ev, Hlen. reflexivity.
Qed.

(** No address is taken from a maximal run longer than 44 characters. *)
Lemma extracted_outside_long_run pre run post a :
  44 < length run ->
  maximalRunAt (pre ++ run ++ post) (length pre) run ->
  In a (extractSolanaAddressesWithBoundary (pre ++ run ++ post)) ->
  exists i,
    maximalRunAt (pre ++ run ++ post) i a /\ 32 <= length a <= 44
    /\ (i + length a <= length pre \/ length pre + length run <= i).
Proof.
  intros Hlong Hrun Ha.
  apply extracted_iff_candidate in Ha as (i & Ha).
  apply candidates_are_runs in Ha as (Hmax & Hlen & _).
  exists i. repeat split; try lia; auto.
  destruct (runs_disjoint_or_equal Hmax Hrun) as [H|[H|[_ H]]]; auto.
  subst a. lia.
Qed.

(** ** The matcher on a maximal run *)

(** A greedy quantified character class takes a whole maximal run when the
    continuation accepts the position after it. *)
Lemma m_chr_cons p k bef c rest cs :
  m (Chr p) k (MState bef (c :: rest) cs)
  = if p c then k (MState (c :: bef) rest cs) else None.
Proof. reflexivity. Qed.

Lemma m_chr_nil p k bef cs : m (Chr p) k (MState bef [] cs) = None.
Proof. reflexivity. Qed.

Lemma m_seq r1 r2 k x : m (Seq r1 r2) k x = m r1 (m r2 k) x.
Proof. reflexivity. Qed.

Lemma m_alt r1 r2 k x :
  m (Alt r1 r2) k x
  = match m r1 k x with Some z => Some z | None => m r2 k x end.
Proof. reflexivity. Qed.

Lemma m_group i r k x :
  m (Group i r) k x
  = m r (fun y => k (MState (before y) (after y)
                            ((i, consumed x y) :: caps y))) x.
Proof. reflexivity. Qed.

Lemma m_rep r lo hi k x :
  m (Rep r lo hi) k x
  = rep (m r) lo
        (match hi with Some h => h | None => lo + length (after x) end) k x.
Proof. reflexivity. Qed.

Lemma m_lit_prefix s : forall k bef rest cs,
  m (lit s) k (MState bef (s ++ rest) cs) = k (MState (rev s ++ bef) rest cs).
Proof.
  induction s as [|c s IH]; intros k bef rest cs; [reflexivity|].
  change (lit (c :: s)) with (Seq (Chr (char_eqb c)) (lit s)).
  cbn [app]. rewrite m_seq, m_chr_cons, char_eqb_refl, IH.
  cbn [rev]. rewrite <- app_assoc. reflexivity.
Qed.

Lemma m_liti_prefix s : forall k bef rest cs,
  m (liti s) k (MState bef (s ++ rest) cs) = k (MState (rev s ++ bef) rest cs).
Proof.
  induction s as [|c s IH]; intros k bef rest cs; [reflexivity|].
  change (liti (c :: s))
    with (Seq (Chr (fun x => char_eqb c x || char_eqb (toggleCase c) x))
              (liti s)).
  cbn [app]. rewrite m_seq, m_chr_cons, char_eqb_refl, IH.
  cbn [rev orb]. rewrite <- app_assoc. reflexivity.
Qed.

(** An optional literal is taken when the rest of the pattern matches
    after it. *)
Lemma m_opt_taken s k bef rest cs z :
  s <> [] ->
  k (MState (rev s ++ bef) rest cs) = Some z ->
  m (opt (liti s)) k (MState bef (s ++ rest) cs) = Some z.
Proof.
  intros Hs Hk. unfold opt. rewrite m_rep. cbn [rep Nat.eqb andb].
  rewrite m_liti_prefix. cbn [after pred].
  replace (length rest =? length (s ++ rest)) with false.
  - rewrite Hk. reflexivity.
  - symmetry. apply Nat.eqb_neq. rewrite length_app.
    destruct s; [congruence|cbn; lia].
Qed.

Lemma m_bol k x :
  m Bol k x = match before x with [] => k x | _ :: _ => None end.
Proof. reflexivity. Qed.

Lemma m_not_ahead r k x :
  m (Ahead false r) k x
  = match m r Some x with Some _ => None | None => k x end.
Proof. reflexivity. Qed.

Lemma rep_chr_run p k z : forall w x lo n rest,
  after x = w ++ rest ->
  forallb p w = true ->
  match rest with [] => True | c :: _ => p c = false end ->
  lo <= length w <= n ->
  k (MState (rev w ++ before x) rest (caps x)) = Some z ->
  rep (m (Chr p)) lo n k x = Some z.
Proof.
  induction w as [|c w IH]; intros [bef aft cs] lo n rest Ha Hw Hr Hl Hk;
    cbn in Ha, Hk, Hl; subst aft.
  - assert (lo = 0) by lia. subst lo.
    destruct n; cbn [rep Nat.eqb]; [exact Hk|].
    destruct rest as [|d rest].
    + rewrite m_chr_nil. exact Hk.
    + rewrite m_chr_cons, Hr. exact Hk.
  - destruct n as [|n]; [lia|].
    cbn in Hw. apply andb_true_iff in Hw as [Hc Hw].
    assert (Hrec : rep (m (Chr p)) (pred lo) n k
                       (MState (c :: bef) (w ++ rest) cs) = Some z).
    { apply (IH _ _ _ rest); cbn; auto; try lia.
      rewrite <- app_assoc in Hk. exact Hk. }
    assert (Hne : (length (w ++ rest) =? length (c :: w ++ rest)) = false).
    { apply Nat.eqb_neq. cbn. lia. }
    destruct lo; cbn [rep]; rewrite m_chr_cons, Hc; cbn [after Nat.eqb andb];
      rewrite ?Hne; cbn [andb]; rewrite Hrec; reflexivity.
Qed.

Lemma search_here r bef aft y :
  m r Some (MState bef aft []) = Some y ->
  search r bef aft = Some (MState bef aft [], y).
Proof. intros H. destruct aft; cbn; rewrite H; reflexivity. Qed.

Lemma scan_skip r : forall w bef rest,
  scan r bef (w ++ rest) (length w) = scan r (rev w ++ bef) rest 0.
Proof.
  induction w as [|c w IH]; intros bef rest; [reflexivity|].
  cbn [app length scan]. rewrite IH. cbn. rewrite <- app_assoc. reflexivity.
Qed.

(** The address pattern needs 32 characters. *)
Lemma addressRegex_short x :
  length (after x) < 32 -> m addressRegex Some x = None.
Proof.
  intros Hlen. destruct (m addressRegex Some x) as [y|] eqn:E; [|reflexivity].
  apply m_sound in E as (y' & HM & _).
  apply addressRegex_shape in HM as (lead & w & Ea & _ & Hw & _).
  rewrite Ea, !length_app in Hlen. lia.
Qed.

Lemma scan_address_short : forall aft bef,
  length aft < 32 -> scan addressRegex bef aft 0 = [].
Proof.
  induction aft as [|c aft IH]; intros bef Hlen; cbn [scan].
  - rewrite addressRegex_short by (cbn; lia). reflexivity.
  - rewrite addressRegex_short by (cbn in *; lia).
    apply IH. cbn in Hlen. lia.
Qed.

(** At a boundary character followed by a maximal run of 32 to 44 base58
    characters, the address pattern matches the boundary and the run. *)
Lemma rep_chr_stuck p k x lo n :
  0 < lo ->
  match after x with [] => True | c :: _ => p c = false end ->
  rep (m (Chr p)) lo n k x = None.
Proof.
  intros Hlo Hc. destruct x as [bef aft cs]. cbn in Hc.
  destruct lo; [lia|]. destruct n; cbn [rep Nat.eqb]; [reflexivity|].
  destruct aft as [|c aft]; [apply m_chr_nil|].
  rewrite m_chr_cons, Hc. reflexivity.
Qed.

Lemma addressRegex_at_run bef c run rest :
  isBase58 c = false ->
  forallb isBase58 run = true ->
  32 <= length run <= 44 ->
  match rest with [] => True | d :: _ => isBase58 d = false end ->
  m addressRegex Some (MState bef (c :: run ++ rest) [])
  = Some (MState (rev run ++ c :: bef) rest [(1, run)]).
Proof.
  intros Hc Hrun Hlen Hrest.
  unfold addressRegex, notChr. cbn [seqs].
  rewrite m_seq, m_alt.
  replace (m Bol
             (m (Seq (Group 1 (Rep (Chr isBase58) 32 (Some 44)))
                     (Ahead false (Chr isBase58))) Some)
             (MState bef (c :: run ++ rest) [])) with (@None mstate).
  - rewrite m_chr_cons, Hc. cbn [negb].
    rewrite m_seq, m_group, m_rep.
    apply (rep_chr_run _ _ run _ rest); cbn [after before caps]; auto.
    rewrite (consumed_passes _ _ run) by reflexivity.
    rewrite m_not_ahead.
    destruct rest as [|d rest]; [rewrite m_chr_nil; reflexivity|].
    rewrite m_chr_cons, Hrest. reflexivity.
  - rewrite m_bol. cbn [before]. destruct bef; [|reflexivity].
    rewrite m_seq, m_group, m_rep. symmetry.
    apply rep_chr_stuck; [lia|]. cbn [after]. exact Hc.
Qed.

Lemma matchAll_isolated_run c run d :
  isBase58 c = false -> isBase58 d = false ->
  forallb isBase58 run = true -> 32 <= length run <= 44 ->
  matchAll addressRegex (c :: run ++ [d])
  = [ MatchRes 0 (c :: run) [(1, run)] ].
Proof.
  intros Hc Hd Hrun Hlen. unfold matchAll. cbn [scan].
  rewrite (addressRegex_at_run [] c run [d]) by auto.
  unfold result_of. cbn [before after caps length].
  rewrite (consumed_passes _ _ (c :: run)) by reflexivity.
  cbn [length pred]. rewrite scan_skip.
  rewrite scan_address_short by (cbn; lia). reflexivity.
Qed.

Lemma test_allBase58 run :
  run <> [] -> forallb isBase58 run = true -> test allBase58 run = true.
Proof.
  intros Hne Hrun. unfold test.
  rewrite (search_here allBase58 [] run (y := MState (rev run) [] []));
    [reflexivity|].
  unfold allBase58, plus. cbn [seqs m before after].
  apply (rep_chr_run _ _ run _ []); cbn; auto.
  - rewrite app_nil_r. reflexivity.
  - split; [destruct run; [congruence|cbn; lia]|lia].
  - rewrite app_nil_r. reflexivity.
Qed.

Lemma test_allDigits run :
  forallb isDigit run = false -> test allDigits run = false.
Proof.
  intros Hrun. unfold test. rewrite search_none; [reflexivity|].
  intros pre suf ->.
  destruct (m allDigits Some (MState (rev pre ++ []) suf [])) eqn:E;
    [|reflexivity].
  apply m_sound in E as (y & HM & _).
  unfold allDigits, plus in HM. cbn [seqs] in HM.
  apply Matches_seq in HM as (y1 & H1 & HM).
  apply Matches_seq in HM as (y2 & H2 & H3).
  apply Matches_bol in H1 as (-> & Hb). cbn in Hb.
  apply Matches_rep_chr in H2 as (w & _ & _ & Hw & Ea & _).
  apply Matches_eol in H3 as (_ & Ee). cbn in Ea.
  rewrite app_nil_r in Hb.
  apply (f_equal (@rev char)) in Hb. rewrite rev_involutive in Hb. cbn in Hb.
  subst pre. cbn in Hrun. rewrite Ea, Ee, app_nil_r in Hrun. congruence.
Qed.

Lemma isValidSolanaAddress_run run :
  32 <= length run <= 44 ->
  forallb isBase58 run = true -> forallb isDigit run = false ->
  isValidSolanaAddress run = true.
Proof.
  intros Hlen Hb Hd. unfold isValidSolanaAddress.
  destruct run as [|c run]; [cbn in Hlen; lia|]. cbn [truthy negb].
  replace (length (c :: run) <? 32) with false
    by (symmetry; apply Nat.ltb_ge; lia).
  replace (44 <? length (c :: run)) with false
    by (symmetry; apply Nat.ltb_ge; lia).
  cbn [orb]. rewrite test_allBase58 by (auto; discriminate).
  cbn [negb]. rewrite test_allDigits by assumption. reflexivity.
Qed.

Lemma isPartOfUrl_between_spaces run :
  length run = 44 -> isPartOfUrl (js " " ++ run ++ js " ") 1 44 = false.
Proof.
  intros Hlen.
  do 44 (destruct run as [|? run]; [discriminate|]).
  destruct run; [|discriminate]. vm_compute. reflexivity.
Qed.

Lemma isolated_run_extracted run :
  length run = 44 ->
  forallb isBase58 run = true -> forallb isDigit run = false ->
  extractSolanaAddressesWithBoundary (js " " ++ run ++ js " ") = [run].
Proof.
  intros Hlen Hb Hd.
  unfold extractSolanaAddressesWithBoundary, addressCandidates.
  change (js " " ++ run ++ js " ") with (ch " " :: run ++ [ch " "]).
  cbn [truthy negb].
  rewrite matchAll_isolated_run by (auto; lia).
  cbn [flat_map]. unfold group, addressStartIndex, group.
  cbn [groups lookup Nat.eqb index whole length].
  rewrite isValidSolanaAddress_run by (auto; lia).
  replace (0 + (S (length run) - length run)) with 1 by lia.
  rewrite Hlen.
  change (ch " " :: run ++ [ch " "]) with (js " " ++ run ++ js " ").
  rewrite isPartOfUrl_between_spaces by assumption.
  reflexivity.
Qed.

Lemma long_run_is_maximal pre run post :
  forallb isBase58 run = true ->
  match rev pre with [] => True | c :: _ => isBase58 c = false end ->
  match post with [] => True | c :: _ => isBase58 c = false end ->
  maximalRunAt (pre ++ run ++ post) (length pre) run.
Proof. intros Hr Hpre Hpost. exists pre, post. auto. Qed.

(** C4, as the code has it: no address is taken from a maximal run of 45
    base58 characters, so a text that holds nothing else long enough
    yields no address; and a run of 44 base58 characters that is not
    purely numeric, alone between two spaces, is returned. *)
Theorem boundary_scan_rejects_45_accepts_44 :
  (forall pre run post a,
      length run = 45 ->
      forallb isBase58 run = true ->
      match rev pre with [] => True | c :: _ => isBase58 c = false end ->
      match post with [] => True | c :: _ => isBase58 c = false end ->
      In a (extractSolanaAddressesWithBoundary (pre ++ run ++ post)) ->
      exists i,
        maximalRunAt (pre ++ run ++ post) i a /\ 32 <= length a <= 44
        /\ (i + length a <= length pre \/ length pre + 45 <= i))
  /\ (forall pre run post,
         length run = 45 ->
         forallb isBase58 run = true ->
         match rev pre with [] => True | c :: _ => isBase58 c = false end ->
         match post with [] => True | c :: _ => isBase58 c = false end ->
         length pre < 32 -> length post < 32 ->
         extractSolanaAddressesWithBoundary (pre ++ run ++ post) = [])
  /\ (forall run,
         length run = 44 ->
         forallb isBase58 run = true -> forallb isDigit run = false ->
         extractSolanaAddressesWithBoundary (js " " ++ run ++ js " ") = [run]).
Proof.
  assert (H1 : forall pre run post a,
      length run = 45 ->
      forallb isBase58 run = true ->
      match rev pre with [] => True | c :: _ => isBase58 c = false end ->
      match post with [] => True | c :: _ => isBase58 c = false end ->
      In a (extractSolanaAddressesWithBoundary (pre ++ run ++ post)) ->
      exists i,
        maximalRunAt (pre ++ run ++ post) i a /\ 32 <= length a <= 44
        /\ (i + length a <= length pre \/ length pre + 45 <= i)).
  { intros pre run post a Hlen Hr Hpre Hpost Ha.
    rewrite <- Hlen.
    apply extracted_outside_long_run; [lia| |assumption].
    apply long_run_is_maximal; assumption. }
  split; [exact H1|]. split; [|exact isolated_run_extracted].
  intros pre run post Hlen Hr Hpre Hpost Hp Hq.
  destruct (extractSolanaAddressesWithBoundary (pre ++ run ++ post))
    as [|a l] eqn:E; [reflexivity|].
  destruct (H1 pre run post a Hlen Hr Hpre Hpost) as (i & Hmax & Ha & Hi).
  { rewrite E. left. reflexivity. }
  apply run_chars in Hmax as (Hfit & _).
  rewrite !length_app in Hfit. lia.
Qed.

Lemma boundary_scan_rejects_45_accepts_44_witness :
  (let pre := repeat (ch "B") 44 ++ js " " in
   let run := repeat (ch "A") 45 in
   let a := repeat (ch "B") 44 in
   In a (extractSolanaAddressesWithBoundary (pre ++ run ++ []))
   /\ exists i,
        maximalRunAt (pre ++ run ++ []) i a /\ 32 <= length a <= 44
        /\ (i + length a <= length pre \/ length pre + 45 <= i))
  /\ extractSolanaAddressesWithBoundary
       (js " " ++ repeat (ch "A") 45 ++ js " ") = []
  /\ extractSolanaAddressesWithBoundary
       (js " " ++ (js "3Bm" ++ repeat (ch "x") 41) ++ js " ")
     = [js "3Bm" ++ repeat (ch "x") 41].
Proof.
  destruct boundary_scan_rejects_45_accepts_44 as (H1 & H2 & H3).
  split; [|split].
  - assert (Hin : In (repeat (ch "B") 44)
                     (extractSolanaAddressesWithBoundary
                        ((repeat (ch "B") 44 ++ js " ")
                         ++ repeat (ch "A") 45 ++ [])))
      by (vm_compute; left; reflexivity).
    split; [exact Hin|].
    apply (H1 (repeat (ch "B") 44 ++ js " ") (repeat (ch "A") 45) []);
      [reflexivity|reflexivity|reflexivity|exact I|exact Hin].
  - apply (H2 (js " ") (repeat (ch "A") 45) (js " "));
      [reflexivity|reflexivity|reflexivity|reflexivity|cbn; lia|cbn; lia].
  - apply H3; reflexivity.
Defined.

(** C4 as stated fails on a purely numeric run: 44 digits [1] between two
    spaces are a base58 run, and no address is returned. *)
Lemma numeric_run_not_returned :
  let run := repeat (ch "1") 44 in
  length run = 44 /\ forallb isBase58 run = true
  /\ extractSolanaAddressesWithBoundary (js " " ++ run ++ js " ") = []
  /\ extractSolanaAddressesWithBoundary (js " " ++ run ++ js " ") <> [run].
Proof.
  repeat split; try (vm_compute; reflexivity).
  vm_compute. discriminate.
Qed.

(** ** A signature in a transaction link *)

Lemma signature_is_maximal_run S :
  forallb isBase58 S = true ->
  maximalRunAt (js "see https://solscan.io/tx/" ++ S ++ js " for details") 26 S.
Proof.
  intros HS. exists (js "see https://solscan.io/tx/"), (js " for details").
  repeat split; auto.
Qed.

Lemma signature_after_tx S :
  isPartOfUrl (js "see https://solscan.io/tx/" ++ S ++ js " for details")
              26 (length S) = true.
Proof.
  unfold isPartOfUrl.
  replace (str_eqb
             (substring (26 - 4) 26
                (js "see https://solscan.io/tx/" ++ S ++ js " for details"))
             (js "/tx/")) with true; [reflexivity|].
  vm_compute. reflexivity.
Qed.

Lemma link_has_no_candidate S :
  forallb isBase58 S = true -> 32 <= length S <= 44 ->
  addressCandidates (js "see https://solscan.io/tx/" ++ S ++ js " for details")
  = [].
Proof.
  intros HS Hlen.
  destruct (addressCandidates _) as [|[i a] l] eqn:E; [reflexivity|].
  assert (Hin : In (i, a)
                   (addressCandidates
                      (js "see https://solscan.io/tx/" ++ S ++ js " for details")))
    by (rewrite E; left; reflexivity).
  apply candidates_are_runs in Hin as (Hmax & Ha & _ & Hurl).
  pose proof (signature_is_maximal_run S HS) as HmaxS.
  destruct (runs_disjoint_or_equal Hmax HmaxS) as [H|[H|[-> ->]]].
  - lia.
  - apply run_chars in Hmax as (Hfit & _).
    rewrite !length_app in Hfit. cbn in Hfit. lia.
  - rewrite signature_after_tx in Hurl. discriminate.
Qed.

(** ** The pre-filter on a transaction link *)

Lemma isBase58_range c : isBase58 c = true -> (49 <= c <= 122)%N.
Proof.
  unfold isBase58, between. intros H.
  repeat (apply orb_true_iff in H as [H|H]);
    apply andb_true_iff in H as [H1 H2];
    apply N.leb_le in H1, H2; cbn in H1, H2; lia.
Qed.

Lemma base58_not_space c : isBase58 c = true -> isWhiteSpace c = false.
Proof.
  intros H. apply isBase58_range in H. unfold isWhiteSpace.
  repeat match goal with
         | |- context [N.eqb c ?k] =>
             replace (N.eqb c k) with false by (symmetry; apply N.eqb_neq; lia)
         end.
  replace (N.leb c 13) with false by (symmetry; apply N.leb_gt; lia).
  replace (N.leb 8192 c) with false by (symmetry; apply N.leb_gt; lia).
  rewrite andb_false_r. reflexivity.
Qed.

Lemma base58_not_slash c : isBase58 c = true -> char_eqb (ch "/") c = false.
Proof.
  intros H. apply isBase58_range in H. apply N.eqb_neq. cbn. lia.
Qed.

(** A greedy quantified character class whose continuation fails at every
    position of the run fails. *)
Lemma rep_chr_fail p k : forall w x lo n rest,
  after x = w ++ rest ->
  forallb p w = true ->
  match rest with [] => True | c :: _ => p c = false end ->
  (forall a b, w = a ++ b ->
               k (MState (rev a ++ before x) (b ++ rest) (caps x)) = None) ->
  rep (m (Chr p)) lo n k x = None.
Proof.
  induction w as [|c w IH]; intros [bef aft cs] lo n rest Ha Hw Hr Hk;
    cbn in Ha, Hk; subst aft.
  - pose proof (Hk [] [] eq_refl) as Hk0. cbn in Hk0.
    destruct n; cbn [rep]; [destruct lo; cbn; auto|].
    destruct rest as [|d rest].
    + rewrite m_chr_nil. destruct lo; auto.
    + rewrite m_chr_cons, Hr. destruct lo; auto.
  - pose proof (Hk [] (c :: w) eq_refl) as Hk0. cbn in Hk0.
    destruct n; cbn [rep]; [destruct lo; cbn; auto|].
    cbn in Hw. apply andb_true_iff in Hw as [Hc Hw].
    assert (Hrec : rep (m (Chr p)) (pred lo) n k
                       (MState (c :: bef) (w ++ rest) cs) = None).
    { apply (IH _ _ _ rest); cbn; auto.
      intros a b ->. specialize (Hk (c :: a) b eq_refl).
      cbn in Hk. rewrite <- app_assoc in Hk. exact Hk. }
    rewrite m_chr_cons, Hc. cbn [after].
    destruct (andb _ _); destruct lo; cbn [pred] in *; rewrite ?Hrec; auto.
Qed.

(** It returns to the longest prefix of the run after which the
    continuation succeeds. *)
Lemma rep_chr_backtrack p k z : forall a x lo n b rest,
  after x = a ++ b ++ rest ->
  forallb p a = true -> forallb p b = true ->
  match rest with [] => True | c :: _ => p c = false end ->
  lo <= length a <= n ->
  (forall b1 b2, b = b1 ++ b2 -> b1 <> [] ->
     k (MState (rev (a ++ b1) ++ before x) (b2 ++ rest) (caps x)) = None) ->
  k (MState (rev a ++ before x) (b ++ rest) (caps x)) = Some z ->
  rep (m (Chr p)) lo n k x = Some z.
Proof.
  induction a as [|c a IH]; intros [bef aft cs] lo n b rest Ha Hpa Hpb Hr Hl
                                   Hfail Hk;
    cbn in Ha, Hk, Hl, Hfail; subst aft.
  - assert (lo = 0) by lia. subst lo.
    destruct n; cbn [rep Nat.eqb]; [exact Hk|].
    destruct b as [|d b].
    + cbn [app]. destruct rest as [|e rest].
      * rewrite m_chr_nil. exact Hk.
      * rewrite m_chr_cons, Hr. exact Hk.
    + cbn in Hpb. apply andb_true_iff in Hpb as [Hd Hpb].
      cbn [app]. rewrite m_chr_cons, Hd. cbn [after].
      replace (length (b ++ rest) =? length (d :: b ++ rest)) with false
        by (symmetry; apply Nat.eqb_neq; cbn; lia).
      cbn [andb pred].
      rewrite (@rep_chr_fail p k b (MState (d :: bef) (b ++ rest) cs) 0 n rest);
        auto.
      intros a' b' ->. specialize (Hfail (d :: a') b' eq_refl).
      cbn in Hfail. rewrite <- app_assoc in Hfail. apply Hfail. discriminate.
  - destruct n as [|n]; [lia|].
    cbn in Hpa. apply andb_true_iff in Hpa as [Hc Hpa].
    assert (Hrec : rep (m (Chr p)) (pred lo) n k
                       (MState (c :: bef) (a ++ b ++ rest) cs) = Some z).
    { apply (IH _ _ _ b rest); cbn; auto; try lia.
      - intros b1 b2 E Hne. specialize (Hfail b1 b2 E Hne).
        rewrite <- app_assoc in Hfail. exact Hfail.
      - rewrite <- app_assoc in Hk. exact Hk. }
    cbn [rep app]. rewrite m_chr_cons, Hc. cbn [after].
    replace (length (a ++ b ++ rest) =? length (c :: a ++ b ++ rest))
      with false by (symmetry; apply Nat.eqb_neq; cbn; lia).
    rewrite andb_false_r.
    destruct lo; cbn [pred] in *; rewrite Hrec; reflexivity.
Qed.

Lemma split_inside (S1 Q w r : jsstring) c :
  S1 ++ Q = w ++ c :: r -> length w < length S1 -> In c S1.
Proof.
  intros E Hlen.
  assert (H : nth_error (S1 ++ Q) (length w) = Some c).
  { rewrite E, nth_error_app2, Nat.sub_diag by lia. reflexivity. }
  rewrite nth_error_app1 in H by assumption.
  apply nth_error_In in H. exact H.
Qed.

Lemma txTail_shape x y :
  Matches txTail x y ->
  exists w r, after x = ch "/" :: w ++ ch "/" :: r /\ length w <= 18.
Proof.
  unfold txTail. cbn [seqs alts]. intros H.
  apply Matches_seq in H as (y1 & H1 & H).
  apply Matches_seq in H as (y2 & H2 & H).
  apply Matches_seq in H as (y3 & H3 & _).
  apply Matches_lit in H1 as (E1 & _). apply Matches_lit in H3 as (E3 & _).
  apply Matches_group in H2 as (y4 & H2 & ->). cbn in E3.
  assert (Hw : exists w, after y1 = w ++ after y4 /\ length w <= 18).
  { apply Matches_alt in H2 as [H2|H2];
      [|apply Matches_alt in H2 as [H2|H2]];
      apply Matches_liti in H2 as (w & Hl & Ea & _); exists w;
      (split; [exact Ea|rewrite Hl; cbn; lia]). }
  destruct Hw as (w & Ea & Hl).
  exists w, (after y3). rewrite E1, Ea, E3. auto.
Qed.

Lemma base58_run_not_space S :
  forallb isBase58 S = true ->
  forallb (fun c => negb (isWhiteSpace c)) S = true.
Proof.
  intros H. apply forallb_forall. intros c Hc.
  rewrite forallb_forall in H. rewrite (base58_not_space c); auto.
Qed.

Lemma txTail_on_tx bef S Q :
  forallb isBase58 S = true ->
  match Q with [] => True | c :: _ => isWhiteSpace c = true end ->
  m txTail Some (MState bef (js "/tx/" ++ S ++ Q) [])
  = Some (MState (rev S ++ rev (js "/tx/") ++ bef) Q [(1, js "tx")]).
Proof.
  intros HS HQ. unfold txTail, star, notChr. cbn [seqs alts].
  change (js "/tx/" ++ S ++ Q) with (js "/" ++ js "tx" ++ js "/" ++ S ++ Q).
  rewrite m_seq, m_lit_prefix, m_seq, m_group, m_alt, m_liti_prefix.
  cbv beta. cbn [before after caps].
  rewrite (consumed_passes _ _ (js "tx")) by reflexivity.
  rewrite m_seq, m_lit_prefix, m_rep.
  rewrite (@rep_chr_run (fun c => negb (isWhiteSpace c)) Some
             (MState (rev S ++ rev (js "/tx/") ++ bef) Q [(1, js "tx")])
             S _ 0 _ Q); cbn [after before caps]; auto.
  - apply base58_run_not_space. assumption.
  - destruct Q as [|c Q]; [exact I|]. rewrite HQ. reflexivity.
  - rewrite length_app. lia.
Qed.

Lemma txTail_fails_later S Q b1 b2 bef cs :
  forallb isBase58 S = true -> 18 < length S ->
  match Q with [] => True | c :: _ => isWhiteSpace c = true end ->
  js "/tx/" ++ S = b1 ++ b2 -> b1 <> [] ->
  m txTail Some (MState bef (b2 ++ Q) cs) = None.
Proof.
  intros HS Hlen HQ E Hne.
  destruct (m txTail Some (MState bef (b2 ++ Q) cs)) as [z|] eqn:Em;
    [exfalso|reflexivity].
  apply m_sound in Em as (y & HM & _).
  apply txTail_shape in HM as (w & r & Ea & Hw). cbn in Ea.
  rewrite forallb_forall in HS.
  assert (Hslash : ~ In (ch "/") S).
  { intros Hin. apply HS in Hin. vm_compute in Hin. discriminate. }
  assert (Hhead : forall s2 t, s2 ++ Q = ch "/" :: t ->
                               (exists s1, S = s1 ++ s2) -> False).
  { intros s2 t Es [s1 ->]. destruct s2 as [|c s2]; cbn in Es.
    - subst Q. vm_compute in HQ. discriminate.
    - inversion Es; subst c. apply Hslash. apply in_or_app. right. left.
      reflexivity. }
  destruct b1 as [|c1 b1]; [congruence|].
  cbn in E. inversion E as [[Ec E1]]. clear E.
  destruct b1 as [|c2 b1]; cbn in E1.
  { subst b2. cbn in Ea. discriminate. }
  inversion E1 as [[Ec2 E2]]. clear E1.
  destruct b1 as [|c3 b1]; cbn in E2.
  { subst b2. cbn in Ea. discriminate. }
  inversion E2 as [[Ec3 E3]]. clear E2.
  destruct b1 as [|c4 b1]; cbn in E3.
  { subst b2. cbn in Ea. inversion Ea as [Ew].
    apply Hslash. eapply split_inside; [exact Ew|lia]. }
  inversion E3 as [[Ec4 E4]]. clear E3.
  apply (Hhead b2 (w ++ ch "/" :: r) Ea). exists b1. exact E4.
Qed.

Lemma txUrl_split :
  txUrl = Seq (liti (js "http"))
            (Seq (opt (liti (js "s")))
               (Seq (lit (js "://")) (Seq (star (notChr isWhiteSpace)) txTail))).
Proof. reflexivity. Qed.

(** On a link to a transaction whose signature is a base58 run, the
    pattern matches the whole link. *)
Lemma txUrl_on_link bef S Q :
  forallb isBase58 S = true -> 18 < length S ->
  match Q with [] => True | c :: _ => isWhiteSpace c = true end ->
  m txUrl Some (MState bef (js "https://solscan.io/tx/" ++ S ++ Q) [])
  = Some (MState (rev (js "https://solscan.io/tx/" ++ S) ++ bef) Q
                 [(1, js "tx")]).
Proof.
  intros HS Hlen HQ. rewrite txUrl_split.
  change (js "https://solscan.io/tx/" ++ S ++ Q)
    with (js "http" ++ js "s" ++ js "://" ++ js "solscan.io"
          ++ js "/tx/" ++ S ++ Q).
  rewrite m_seq, m_liti_prefix, m_seq.
  apply m_opt_taken; [discriminate|].
  rewrite m_seq, m_lit_prefix, m_seq. unfold star, notChr. rewrite m_rep.
  apply (@rep_chr_backtrack (fun c => negb (isWhiteSpace c)) (m txTail Some)
           _ (js "solscan.io") _ 0 _ (js "/tx/" ++ S) Q);
    cbn [after before caps].
  - rewrite <- app_assoc. reflexivity.
  - reflexivity.
  - rewrite forallb_app, (base58_run_not_space S HS). reflexivity.
  - destruct Q as [|c Q]; [exact I|]. rewrite HQ. reflexivity.
  - rewrite !length_app. cbn. lia.
  - intros b1 b2 E Hne.
    eapply txTail_fails_later; eassumption.
  - rewrite <- app_assoc, txTail_on_tx by assumption.
    rewrite !rev_app_distr, <- !app_assoc. reflexivity.
Qed.

Lemma txUrl_needs_h bef aft cs :
  match aft with
  | [] => True
  | c :: _ => (char_eqb (ch "h") c || char_eqb (ch "H") c) = false
  end ->
  m txUrl Some (MState bef aft cs) = None.
Proof.
  intros Hh.
  destruct (m txUrl Some (MState bef aft cs)) as [z|] eqn:E; [|reflexivity].
  apply m_sound in E as (y & HM & _). rewrite txUrl_split in HM.
  apply Matches_seq in HM as (y1 & H1 & _).
  apply Matches_liti in H1 as (w & _ & Ea & _ & _ & HF). cbn in Ea.
  change (js "http") with (ch "h" :: js "ttp") in HF.
  inversion HF; subst.
  match goal with
  | Hcd : _ \/ _ |- _ => destruct Hcd as [->| ->]
  end; vm_compute in Hh; discriminate.
Qed.

Lemma replaceScan_no_h rep' : forall pre bef rest,
  forallb (fun c => negb (char_eqb (ch "h") c || char_eqb (ch "H") c)) pre
  = true ->
  replaceScan txUrl rep' bef (pre ++ rest) 0
  = pre ++ replaceScan txUrl rep' (rev pre ++ bef) rest 0.
Proof.
  induction pre as [|c pre IH]; intros bef rest H; [reflexivity|].
  cbn in H. apply andb_true_iff in H as [Hc H].
  cbn [app replaceScan]. rewrite txUrl_needs_h.
  - rewrite IH by assumption. cbn. rewrite <- app_assoc. reflexivity.
  - apply negb_true_iff. exact Hc.
Qed.

Lemma replaceScan_skip r rep' : forall w bef rest,
  replaceScan r rep' bef (w ++ rest) (length w)
  = replaceScan r rep' (rev w ++ bef) rest 0.
Proof.
  induction w as [|c w IH]; intros bef rest; [reflexivity|].
  cbn [app length replaceScan]. rewrite IH. cbn.
  rewrite <- app_assoc. reflexivity.
Qed.

Lemma replaceScan_hit r rep' bef c rest y n :
  m r Some (MState bef (c :: rest) []) = Some y ->
  length (consumed (MState bef (c :: rest) []) y) = S n ->
  replaceScan r rep' bef (c :: rest) 0
  = rep' ++ replaceScan r rep' (c :: bef) rest n.
Proof.
  intros Hm Hn. cbn [replaceScan]. rewrite Hm, Hn. reflexivity.
Qed.

Lemma replaceScan_end r rep' bef :
  m r Some (MState bef [] []) = None -> replaceScan r rep' bef [] 0 = [].
Proof. intros Hm. cbn [replaceScan]. rewrite Hm. reflexivity. Qed.

Lemma link_removed sg :
  forallb isBase58 sg = true -> 18 < length sg ->
  replaceAll txUrl (js " ")
    (js "see https://solscan.io/tx/" ++ sg ++ js " for details")
  = js "see   for details".
Proof.
  intros HS Hlen. unfold replaceAll.
  assert (E1 : js "see https://solscan.io/tx/" ++ sg ++ js " for details"
               = js "see " ++ ch "h"
                 :: (js "ttps://solscan.io/tx/" ++ sg) ++ js " for details" ++ [])
    by (rewrite app_nil_r, <- app_assoc; reflexivity).
  rewrite E1. clear E1.
  rewrite replaceScan_no_h by reflexivity.
  assert (Hm : m txUrl Some
                 (MState (rev (js "see ") ++ [])
                    (ch "h" :: (js "ttps://solscan.io/tx/" ++ sg)
                     ++ js " for details" ++ []) [])
               = Some (MState (rev (js "https://solscan.io/tx/" ++ sg)
                               ++ rev (js "see ") ++ [])
                              (js " for details" ++ []) [(1, js "tx")])).
  { rewrite <- (txUrl_on_link (rev (js "see ") ++ []) sg
                  (js " for details" ++ [])) by (auto; reflexivity).
    rewrite <- app_assoc. reflexivity. }
  rewrite (@replaceScan_hit txUrl (js " ") _ _ _ _
             (length (js "ttps://solscan.io/tx/" ++ sg)) Hm).
  - rewrite replaceScan_skip, replaceScan_no_h by reflexivity.
    rewrite replaceScan_end by (apply txUrl_needs_h; exact I).
    reflexivity.
  - rewrite (consumed_passes _ _ (ch "h" :: js "ttps://solscan.io/tx/" ++ sg));
      reflexivity.
Qed.

Lemma removeUrlTransactionSignatures_truthy c t :
  removeUrlTransactionSignatures (c :: t)
  = replaceAll txsUrl (js " ") (replaceAll txUrl (js " ") (c :: t)).
Proof. reflexivity. Qed.

Lemma extractSolanaAddressesFromText_truthy c t :
  solanaAddresses (extractSolanaAddressesFromText (c :: t))
  = uniq (map snd (addressCandidates (c :: t))).
Proof. reflexivity. Qed.

(** C5: a base58 signature of 32 to 44 characters in a transaction link
    is not returned as an address.  On the reply path the URL-context
    filter rejects it; on the profile path the pre-filter has already
    replaced the link by a space. *)
Theorem tx_link_signature_suppressed S :
  forallb isBase58 S = true -> 32 <= length S <= 44 ->
  solanaAddresses
    (extractSolanaAddressesFromText
       (js "see https://solscan.io/tx/" ++ S ++ js " for details")) = []
  /\ removeUrlTransactionSignatures
       (js "see https://solscan.io/tx/" ++ S ++ js " for details")
     = js "see   for details"
  /\ extractSolanaAddressesWithBoundary
       (removeUrlTransactionSignatures
          (js "see https://solscan.io/tx/" ++ S ++ js " for details")) = [].
Proof.
  intros HS Hlen.
  assert (Hrm : removeUrlTransactionSignatures
                  (js "see https://solscan.io/tx/" ++ S ++ js " for details")
                = js "see   for details").
  { assert (E : js "see https://solscan.io/tx/" ++ S ++ js " for details"
                = ch "s" :: js "ee https://solscan.io/tx/" ++ S
                            ++ js " for details") by reflexivity.
    rewrite E, removeUrlTransactionSignatures_truthy, <- E.
    rewrite link_removed by (auto; lia). vm_compute. reflexivity. }
  split; [|split; [exact Hrm|rewrite Hrm; vm_compute; reflexivity]].
  assert (E : js "see https://solscan.io/tx/" ++ S ++ js " for details"
              = ch "s" :: js "ee https://solscan.io/tx/" ++ S
                          ++ js " for details") by reflexivity.
  rewrite E, extractSolanaAddressesFromText_truthy, <- E.
  rewrite link_has_no_candidate by assumption. reflexivity.
Qed.

Lemma tx_link_signature_suppressed_witness :
  let S := js "4kY" ++ repeat (ch "z") 37 in
  forallb isBase58 S = true /\ 32 <= length S <= 44
  /\ isValidSolanaAddress S = true
  /\ solanaAddresses
       (extractSolanaAddressesFromText
          (js "see https://solscan.io/tx/" ++ S ++ js " for details")) = []
  /\ removeUrlTransactionSignatures
       (js "see https://solscan.io/tx/" ++ S ++ js " for details")
     = js "see   for details"
  /\ extractSolanaAddressesWithBoundary
       (removeUrlTransactionSignatures
          (js "see https://solscan.io/tx/" ++ S ++ js " for details")) = [].
Proof.
  split; [reflexivity|]. split; [cbn; lia|]. split; [reflexivity|].
  apply (tx_link_signature_suppressed (js "4kY" ++ repeat (ch "z") 37));
    [reflexivity|cbn; lia].
Defined.

End Addresses.

(* ================================================================== *)
(** * Profile pages *)
(* ================================================================== *)
Section Profiles.

(** The address found in the script is 32 to 44 characters long. *)
Lemma scriptAddress_length s a :
  firstGroup scriptAddress s = Some a -> 32 <= length a <= 44.
Proof.
  unfold firstGroup, matchFirst.
  destruct (search scriptAddress [] s) as [[x y]|] eqn:E; [|discriminate].
  intros H. inversion H; subst a. clear H.
  apply search_sound in E as (HM & Hc & _).
  unfold scriptAddress in HM. cbn [seqs] in HM.
  apply Matches_seq in HM as (y1 & H1 & HM).
  apply Matches_seq in HM as (y2 & H2 & HM).
  apply Matches_seq in HM as (y3 & H3 & H4).
  apply Matches_lit in H1 as (_ & _ & C1).
  apply Matches_chr in H2 as (_ & _ & _ & _ & C2).
  apply Matches_group in H3 as (y4 & H3 & ->).
  apply Matches_rep_chr in H3 as (w & Hlo & Hhi & _ & Ea & _ & C3).
  apply Matches_chr in H4 as (_ & _ & _ & _ & C4).
  specialize (Hhi 44 eq_refl).
  unfold group, result_of. cbn [groups]. rewrite C4. cbn [caps lookup Nat.eqb].
  rewrite (consumed_passes y2 y4 w Ea). lia.
Qed.

Lemma extracted_address_length text a :
  In a (extractSolanaAddressesWithBoundary text) -> 32 <= length a <= 44.
Proof.
  intros H. apply extracted_iff_candidate in H as (i & H).
  apply candidates_are_runs in H as (_ & H & _). exact H.
Qed.

Lemma truthy_length (s : jsstring) : 0 < length s -> truthy s = true.
Proof. destruct s; cbn; [lia|reflexivity]. Qed.

(** The two fields of [extractSolanaAddress], read off the lists the
    extractors return; neither is an empty string, and the assembled
    profile carries both. *)
Lemma profile_fields doc :
  solanaAddress (extractSolanaAddress doc)
  = match firstGroup scriptAddress (script_text doc) with
    | Some a => Some a
    | None =>
        head (extractSolanaAddressesWithBoundary
                (removeUrlTransactionSignatures (page_text doc)))
    end
  /\ solanaDomain (extractSolanaAddress doc)
     = head (extractSolanaDomainsFromText (page_text doc))
  /\ solanaAddress (extractSolanaAddress doc) <> Some []
  /\ solanaDomain (extractSolanaAddress doc) <> Some []
  /\ forall base url u,
       parseUserInfoPage base doc url = inr u ->
       ui_solanaAddress u = solanaAddress (extractSolanaAddress doc)
       /\ ui_solanaDomain u = solanaDomain (extractSolanaAddress doc).
Proof.
  assert (Haddr : solanaAddress (extractSolanaAddress doc)
    = match firstGroup scriptAddress (script_text doc) with
      | Some a => Some a
      | None =>
          head (extractSolanaAddressesWithBoundary
                  (removeUrlTransactionSignatures (page_text doc)))
      end).
  { unfold extractSolanaAddress. cbn [solanaAddress].
    destruct (firstGroup scriptAddress (script_text doc)) as [a|] eqn:Es;
      destruct (extractSolanaAddressesWithBoundary _) as [|first rest];
      cbn [orElse head]; try reflexivity.
    apply scriptAddress_length in Es.
    rewrite truthy_length by lia. reflexivity. }
  assert (Hdom : solanaDomain (extractSolanaAddress doc)
                 = head (extractSolanaDomainsFromText (page_text doc))).
  { unfold extractSolanaAddress. cbn [solanaDomain].
    destruct (extractSolanaDomainsFromText (page_text doc)); reflexivity. }
  split; [exact Haddr|]. split; [exact Hdom|]. split; [|split].
  - rewrite Haddr.
    destruct (firstGroup scriptAddress (script_text doc)) as [a|] eqn:Es.
    + apply scriptAddress_length in Es. intros E. inversion E; subst a.
      cbn in Es. lia.
    + destruct (extractSolanaAddressesWithBoundary _) as [|a rest] eqn:Ex;
        [discriminate|].
      cbn [head]. intros E. inversion E; subst a.
      assert (Hl : 32 <= length (@nil char) <= 44).
      { apply (extracted_address_length
                 (removeUrlTransactionSignatures (page_text doc))).
        rewrite Ex. left. reflexivity. }
      cbn in Hl. lia.
  - rewrite Hdom.
    destruct (extractSolanaDomainsFromText (page_text doc)) as [|d rest] eqn:Ex;
      [discriminate|].
    cbn [head]. intros E. inversion E; subst d.
    destruct (domain_occurrence (page_text doc) []) as (_ & label & _ & _ & El & _).
    { rewrite Ex. left. reflexivity. }
    destruct label; discriminate.
  - intros base url u H. unfold parseUserInfoPage in H.
    destruct (fold_left addSocialLink (social_labels doc) (inr noLinks));
      [discriminate|].
    inversion H; subst u. cbn. auto.
Qed.

End Profiles.

(* ================================================================== *)
(** * Single pages *)
(* ================================================================== *)
Section SinglePages.

(** C8, as the code has it.  A URL that contains neither [/member/] nor
    [/t/] never yields a result: the call rejects with the wrapped
    unsupported-page-type error when the page was fetched, and with the
    wrapped transport error when it was not.  A fetched page whose URL
    contains [/member/] goes to profile assembly; one whose URL contains
    [/t/] and not [/member/] goes to post assembly. *)
Theorem parseV2exPage_dispatch url w :
  (includes (js "/member/") url = false ->
   includes (js "/t/") url = false ->
   exists e,
     fst (parseV2exPage url w) = inl (parseFailedPrefix ++ e)
     /\ match net w (requests w) url with
        | inr _ => e = unsupportedPageKind
        | inl e' => e = e'
        end)
  /\ (forall doc,
        net w (requests w) url = inr doc ->
        includes (js "/member/") url = true ->
        fst (parseV2exPage url w)
        = match parseUserInfoPage (baseUrl w) doc url with
          | inr u => inr (UserInfoPage u)
          | inl e => inl (parseFailedPrefix ++ e)
          end)
  /\ (forall doc,
        net w (requests w) url = inr doc ->
        includes (js "/member/") url = false ->
        includes (js "/t/") url = true ->
        fst (parseV2exPage url w) = inr (PostPage (parsePostPage doc url))).
Proof.
  unfold parseV2exPage, tryCatch, bind, axiosGet, getBaseUrl, lift, ret, throw.
  split; [|split].
  - intros Hm Ht. rewrite Hm, Ht.
    destruct (net w (requests w) url) as [e'|doc]; cbn; eauto.
  - intros doc Hdoc Hm. rewrite Hdoc, Hm. cbn.
    destruct (parseUserInfoPage (baseUrl w) doc url); reflexivity.
  - intros doc Hdoc Hm Ht. rewrite Hdoc, Hm, Ht. reflexivity.
Qed.

Lemma parseV2exPage_dispatch_witness :
  (exists e,
      fst (parseV2exPage (js "https://v2ex.com/about") (worldOf allButBob))
      = inl (parseFailedPrefix ++ e)
      /\ e = unsupportedPageKind)
  /\ (exists u,
         fst (parseV2exPage (js "https://v2ex.com/member/alice")
                            (worldOf allButBob)) = inr (UserInfoPage u))
  /\ fst (parseV2exPage (js "https://v2ex.com/t/1") (worldOf sampleThread))
     = inr (PostPage (parsePostPage
                        (samplePage [js "101"; js "102"; js "103"; js "104";
                                     js "105"])
                        (js "https://v2ex.com/t/1"))).
Proof.
  split; [|split].
  - destruct (proj1 (parseV2exPage_dispatch (js "https://v2ex.com/about")
                       (worldOf allButBob)) eq_refl eq_refl) as (e & He & Hk).
    exists e. split; [exact He|exact Hk].
  - pose proof (proj1 (proj2 (parseV2exPage_dispatch
                                (js "https://v2ex.com/member/alice")
                                (worldOf allButBob)))
                      sampleProfile eq_refl eq_refl) as H.
    rewrite H.
    destruct (parseUserInfoPage (baseUrl (worldOf allButBob)) sampleProfile
                                (js "https://v2ex.com/member/alice"))
      as [e|u] eqn:E; [vm_compute in E; discriminate|].
    exists u. reflexivity.
  - exact (proj2 (proj2 (parseV2exPage_dispatch (js "https://v2ex.com/t/1")
                           (worldOf sampleThread)))
                 _ eq_refl eq_refl eq_refl).
Defined.

(** C8 as stated fails when the page cannot be fetched: the URL contains
    neither segment, and the error is the transport error, not the
    unsupported-page-type error. *)
Lemma transport_error_before_classification :
  includes (js "/member/") (js "https://v2ex.com/about") = false
  /\ includes (js "/t/") (js "https://v2ex.com/about") = false
  /\ fst (parseV2exPage (js "https://v2ex.com/about") (worldOf deadTransport))
     = inl (parseFailedPrefix ++ js "timeout of 10000ms exceeded")
  /\ fst (parseV2exPage (js "https://v2ex.com/about") (worldOf deadTransport))
     <> inl (parseFailedPrefix ++ unsupportedPageKind).
Proof.
  repeat split; try (vm_compute; reflexivity).
  vm_compute. discriminate.
Qed.

End SinglePages.

(* ================================================================== *)
(** * Multi-page threads *)
(* ================================================================== *)
Section MultiPage.

Lemma fetchPage_returns url total page allReplies w :
  exists allReplies' w',
    fetchPage url total page allReplies w = (inr allReplies', w')
    /\ net w' = net w /\ baseUrl w' = baseUrl w
    /\ requests w' = S (requests w)
    /\ progress w' = progress w
    /\ allReplies'
       = allReplies
         ++ match net w (requests w) (url ++ js "?p=" ++ showNat page) with
            | inr doc => pageReplies doc
            | inl _ => []
            end.
Proof.
  unfold fetchPage, tryCatch, bind, axiosGet.
  destruct (net w (requests w) (url ++ js "?p=" ++ showNat page))
    as [e|doc].
  - eexists _, _. split; [reflexivity|]. cbn. rewrite app_nil_r. auto.
  - destruct (ltNumber page total); cbn [sleep ret];
      eexists _, _; (split; [reflexivity|]); cbn; auto.
Qed.

(** The loop over the other pages issues one request per page and returns
    the replies gathered so far followed by those of the pages fetched,
    in the order of the page numbers. *)
Lemma fetchOtherPages_gathers url total : forall pages allReplies w,
  exists w',
    fetchOtherPages url total pages allReplies w
    = (inr (allReplies ++ gather (net w) url (requests w) pages), w')
    /\ net w' = net w /\ baseUrl w' = baseUrl w
    /\ requests w' = requests w + length pages
    /\ progress w' = progress w.
Proof.
  induction pages as [|page rest IH]; intros allReplies w.
  - exists w. cbn. rewrite app_nil_r, Nat.add_0_r. auto.
  - cbn [fetchOtherPages gather]. unfold bind.
    destruct (fetchPage_returns url total page allReplies w)
      as (acc & w1 & Hrun & Hn & Hb & Hq & Hp & Hacc).
    rewrite Hrun.
    destruct (IH acc w1) as (w' & Hr & Hn' & Hb' & Hq' & Hp').
    exists w'. rewrite Hr, Hacc, Hn, Hq, <- app_assoc.
    split; [reflexivity|]. cbn [length]. repeat split; try congruence. lia.
Qed.

Lemma toNumber_small z : (Z.abs z < 2 ^ 53)%Z -> toNumber z = Num z.
Proof.
  intros H. unfold toNumber. apply Z.ltb_lt in H. rewrite H. reflexivity.
Qed.

Lemma increment_small page :
  (Z.of_nat page + 1 <= 2 ^ 53)%Z -> increment page = S page.
Proof.
  intros H. unfold increment.
  destruct (Z.eq_dec (Z.of_nat page + 1) (2 ^ 53)) as [E|E].
  - rewrite E.
    replace (toNumber (2 ^ 53)) with (Num (2 ^ 53))
      by (vm_compute; reflexivity).
    lia.
  - rewrite toNumber_small by lia. lia.
Qed.

(** Below [2^53] the loop ends, having visited the pages from the
    current one to [totalPages]. *)
Lemma pageLoop_unrolled url z :
  (z < 2 ^ 53)%Z ->
  forall n page fuel allReplies w,
    (Z.of_nat page + Z.of_nat n = z + 1)%Z -> n < fuel ->
    pageLoop fuel url (Num z) page allReplies w
    = match fetchOtherPages url (Num z) (seq page n) allReplies w with
      | (inr l, w') => (inr (Some l), w')
      | (inl e, w') => (inl e, w')
      end.
Proof.
  intros Hz.
  induction n as [|n IH]; intros page fuel allReplies w Hsum Hfuel;
    (destruct fuel as [|fuel]; [lia|]); cbn [pageLoop leNumber].
  - replace (Z.of_nat page <=? z)%Z with false
      by (symmetry; apply Z.leb_gt; lia).
    reflexivity.
  - replace (Z.of_nat page <=? z)%Z with true
      by (symmetry; apply Z.leb_le; lia).
    cbn [seq fetchOtherPages]. unfold bind.
    destruct (fetchPage url (Num z) page allReplies w) as [[e|acc] w1];
      [reflexivity|].
    rewrite increment_small by lia. apply IH; lia.
Qed.

(** From [2^53] on, and for an infinite total, the counter never passes
    the total: whatever the bound on the iterations, the loop is still
    running when it is reached. *)
Lemma pageLoop_still_running url total :
  pagesEnd total = false ->
  forall fuel page allReplies w,
    (Z.of_nat page <= 2 ^ 53)%Z ->
    fst (pageLoop fuel url total page allReplies w) = inr None.
Proof.
  intros Hend.
  assert (Hle : forall page, (Z.of_nat page <= 2 ^ 53)%Z ->
                             leNumber page total = true).
  { intros page Hp. destruct total as [|z|[|]]; try discriminate.
    - cbn in Hend. apply Z.ltb_ge in Hend. apply Z.leb_le. lia.
    - reflexivity. }
  assert (Hinc : forall page, (Z.of_nat page <= 2 ^ 53)%Z ->
                              (Z.of_nat (increment page) <= 2 ^ 53)%Z).
  { intros page Hp. unfold increment.
    destruct (Z.eq_dec (Z.of_nat page) (2 ^ 53)) as [E|E].
    - rewrite E.
      replace (toNumber (2 ^ 53 + 1)) with (Num (2 ^ 53))
        by (vm_compute; reflexivity).
      rewrite Z2Nat.id; lia.
    - destruct (Z.eq_dec (Z.of_nat page + 1) (2 ^ 53)) as [E'|E'].
      + rewrite E'.
        replace (toNumber (2 ^ 53)) with (Num (2 ^ 53))
          by (vm_compute; reflexivity).
        rewrite Z2Nat.id; lia.
      + rewrite toNumber_small by lia. rewrite Z2Nat.id; lia. }
  induction fuel as [|fuel IH]; intros page allReplies w Hp; [reflexivity|].
  cbn [pageLoop]. rewrite (Hle page Hp). unfold bind.
  destruct (fetchPage_returns url total page allReplies w)
    as (acc & w1 & Hrun & _).
  rewrite Hrun. apply IH, Hinc, Hp.
Qed.

Lemma not_multi_pagesEnd total :
  ltNumber 1 total = false -> pagesEnd total = true.
Proof.
  destruct total as [|z|[|]]; try reflexivity; try discriminate.
  cbn [ltNumber pagesEnd]. intros H. apply Z.ltb_ge in H.
  apply Z.ltb_lt. lia.
Qed.

(** When the loop over the other pages ends, the result is assembled
    from the first page and the replies the unrolled loop returns. *)
Lemma parseMultiPagePost_ends postId' w first :
  net w (requests w) (baseUrl w ++ js "/t/" ++ postId') = inr first ->
  pagesEnd (totalPages (detectPagination first)) = true ->
  exists extra w' post,
    (if hasMultiplePages (detectPagination first)
        && ltNumber 1 (totalPages (detectPagination first))
     then fetchOtherPages (baseUrl w ++ js "/t/" ++ postId')
            (totalPages (detectPagination first))
            (otherPages (totalPages (detectPagination first))) []
     else ret []) (tick w) = (inr extra, w')
    /\ parseMultiPagePost postId' w = (inr post, w')
    /\ replies post = pageReplies first ++ extra
    /\ replyUserIds post
       = uniq (reply_user_ids first
               ++ filter truthy
                    (map (fun r => author_id (reply_author r)) (replies post)))
    /\ replyCount (statistics post) = length (replies post)
    /\ totalFloors (statistics post) = length (replies post) + 1
    /\ stat_totalPages (statistics post)
       = Some (totalPages (detectPagination first))
    /\ pagination post = Some (detectPagination first).
Proof.
  intros Hfirst Hend.
  unfold parseMultiPagePost, getBaseUrl, tryCatch, bind, axiosGet.
  rewrite Hfirst. fold (tick w).
  destruct (hasMultiplePages (detectPagination first)
            && ltNumber 1 (totalPages (detectPagination first))) eqn:Hmulti.
  - apply andb_true_iff in Hmulti as [_ Hlt].
    destruct (totalPages (detectPagination first)) as [|z|[|]] eqn:Et;
      try discriminate.
    cbn [ltNumber pagesEnd] in Hlt, Hend.
    apply Z.ltb_lt in Hlt, Hend.
    cbn [pageFuel].
    rewrite (@pageLoop_unrolled (baseUrl w ++ js "/t/" ++ postId') z Hend
               (Z.to_nat z - 1) 2 (Z.to_nat z) [] (tick w)) by lia.
    change (seq 2 (Z.to_nat z - 1)) with (otherPages (Num z)).
    destruct (fetchOtherPages_gathers (baseUrl w ++ js "/t/" ++ postId')
                (Num z) (otherPages (Num z)) [] (tick w))
      as (w' & Hr & _).
    rewrite Hr. cbn [app] in *.
    eexists _, w', _. split; [reflexivity|]. split; [reflexivity|].
    cbn [replies replyUserIds statistics replyCount totalFloors
         stat_totalPages pagination parsePostPage].
    auto 8.
  - eexists [], _, _. split; [reflexivity|]. split; [reflexivity|].
    cbn [replies replyUserIds statistics replyCount totalFloors
         stat_totalPages pagination parsePostPage ret].
    auto 8.
Qed.

(** When the loop over the other pages never ends, the call does not
    return: the bound on the iterations is exceeded. *)
Lemma parseMultiPagePost_still_running postId' w first :
  net w (requests w) (baseUrl w ++ js "/t/" ++ postId') = inr first ->
  pagesEnd (totalPages (detectPagination first)) = false ->
  fst (parseMultiPagePost postId' w) = inl pagesOutOfFuel.
Proof.
  intros Hfirst Hend.
  assert (Hmulti : hasMultiplePages (detectPagination first)
                   && ltNumber 1 (totalPages (detectPagination first)) = true).
  { destruct (ltNumber 1 (totalPages (detectPagination first))) eqn:Hlt;
      [|rewrite (not_multi_pagesEnd _ Hlt) in Hend; discriminate].
    rewrite andb_true_r. unfold detectPagination in *.
    destruct (page_links first); [discriminate|reflexivity]. }
  unfold parseMultiPagePost, getBaseUrl, tryCatch, bind, axiosGet.
  rewrite Hfirst, Hmulti. fold (tick w).
  pose proof (@pageLoop_still_running (baseUrl w ++ js "/t/" ++ postId')
                _ Hend (pageFuel (totalPages (detectPagination first))) 2 []
                (tick w)) as Hrun.
  destruct (pageLoop _ _ _ 2 [] (tick w)) as [r w1].
  cbn [fst] in Hrun. rewrite Hrun by (cbn; lia). reflexivity.
Qed.

(** The merge: the replies of the first page, then those gathered from
    the pages 2 to [totalPages]; the statistics are derived from the
    merged list. *)
Lemma parseMultiPagePost_merges postId' w first :
  net w (requests w) (baseUrl w ++ js "/t/" ++ postId') = inr first ->
  pagesEnd (totalPages (detectPagination first)) = true ->
  exists post w',
    parseMultiPagePost postId' w = (inr post, w')
    /\ replies post
       = pageReplies first
         ++ (if hasMultiplePages (detectPagination first)
                && ltNumber 1 (totalPages (detectPagination first))
             then gather (net w) (baseUrl w ++ js "/t/" ++ postId')
                         (S (requests w))
                         (otherPages (totalPages (detectPagination first)))
             else [])
    /\ replyCount (statistics post) = length (replies post)
    /\ totalFloors (statistics post) = length (replies post) + 1.
Proof.
  intros Hfirst Hend.
  destruct (parseMultiPagePost_ends postId' w Hfirst Hend)
    as (extra & w' & post & Hloop & Hrun & Hrep & _ & Hc & Hf & _).
  exists post, w'. split; [exact Hrun|]. split; [|auto].
  rewrite Hrep. f_equal.
  destruct (hasMultiplePages (detectPagination first)
            && ltNumber 1 (totalPages (detectPagination first))).
  - match type of Hloop with
    | fetchOtherPages ?u ?t ?ps ?acc ?w1 = _ =>
        destruct (fetchOtherPages_gathers u t ps acc w1) as (w'' & Hr & _)
    end.
    rewrite Hr in Hloop. injection Hloop as <- _. reflexivity.
  - injection Hloop as <- _. reflexivity.
Qed.

(** C1, as the code has it: with three pages contributing 5, 5 and 3
    replies, the merged list is the replies of page 1, then of page 2,
    then of page 3, with [replyCount = 13] and [totalFloors = 14].  The
    lists are appended as they are: nothing is removed. *)
Theorem multi_page_merge_5_5_3 postId' w d1 d2 d3 :
  net w (requests w) (baseUrl w ++ js "/t/" ++ postId') = inr d1 ->
  hasMultiplePages (detectPagination d1) = true ->
  totalPages (detectPagination d1) = Num 3 ->
  net w (S (requests w)) ((baseUrl w ++ js "/t/" ++ postId') ++ js "?p=2")
  = inr d2 ->
  net w (S (S (requests w))) ((baseUrl w ++ js "/t/" ++ postId') ++ js "?p=3")
  = inr d3 ->
  length (pageReplies d1) = 5 ->
  length (pageReplies d2) = 5 ->
  length (pageReplies d3) = 3 ->
  exists post w',
    parseMultiPagePost postId' w = (inr post, w')
    /\ replies post = pageReplies d1 ++ pageReplies d2 ++ pageReplies d3
    /\ replyCount (statistics post) = 13
    /\ totalFloors (statistics post) = 14.
Proof.
  intros H1 Hmulti Htotal H2 H3 L1 L2 L3.
  assert (Hend : pagesEnd (totalPages (detectPagination d1)) = true)
    by (rewrite Htotal; reflexivity).
  destruct (parseMultiPagePost_merges postId' w H1 Hend)
    as (post & w' & Hrun & Hreplies & Hcount & Hfloors).
  rewrite Hmulti, Htotal in Hreplies.
  change (ltNumber 1 (Num 3)) with true in Hreplies.
  change (otherPages (Num 3)) with [2; 3] in Hreplies.
  cbn [andb gather] in Hreplies.
  change (js "?p=" ++ showNat 2) with (js "?p=2") in Hreplies.
  change (js "?p=" ++ showNat 3) with (js "?p=3") in Hreplies.
  rewrite H2, H3, app_nil_r in Hreplies.
  exists post, w'. split; [exact Hrun|]. split; [exact Hreplies|].
  rewrite Hcount, Hfloors, Hreplies, !length_app, L1, L2, L3.
  split; reflexivity.
Qed.

Lemma multi_page_merge_5_5_3_witness :
  exists post w',
    parseMultiPagePost (js "1") (worldOf sampleThread) = (inr post, w')
    /\ map reply_id (replies post)
       = [js "101"; js "102"; js "103"; js "104"; js "105";
          js "105"; js "106"; js "107"; js "108"; js "109";
          js "110"; js "111"; js "112"]
    /\ replyCount (statistics post) = 13
    /\ totalFloors (statistics post) = 14.
Proof.
  destruct (multi_page_merge_5_5_3 (js "1") (worldOf sampleThread)
              (d1 := samplePage [js "101"; js "102"; js "103"; js "104";
                                 js "105"])
              (d2 := samplePage [js "105"; js "106"; js "107"; js "108";
                                 js "109"])
              (d3 := samplePage [js "110"; js "111"; js "112"]))
    as (post & w' & Hrun & Hrep & Hc & Hf);
    try (vm_compute; reflexivity).
  exists post, w'. repeat split; auto.
  rewrite Hrep. vm_compute. reflexivity.
Defined.

(** C1 as stated fails where a reply id is on two pages: in the sample
    thread the reply 105 closes page 1 and opens page 2, and the merged
    list of 13 replies holds it twice. *)
Lemma duplicate_reply_id_kept :
  match fst (parseMultiPagePost (js "1") (worldOf sampleThread)) with
  | inr post =>
      replyCount (statistics post) = 13
      /\ ~ NoDup (map reply_id (replies post))
  | inl _ => False
  end.
Proof.
  vm_compute. split; [reflexivity|]. intros H.
  do 4 (apply NoDup_cons_iff in H as [_ H]).
  apply NoDup_cons_iff in H as [Hn _]. apply Hn. left. reflexivity.
Qed.

End MultiPage.

(* ================================================================== *)
(** * Batches *)
(* ================================================================== *)
Section Batches.

Lemma callback_noted o ev w : callback o ev w = (inr tt, noted o ev w).
Proof. unfold callback, noted, report, ret. destruct (onProgress o); reflexivity. Qed.

Lemma sleep_slept ms w : sleep ms w = (inr tt, slept ms w).
Proof. reflexivity. Qed.

Lemma member_url_has_segment base username :
  includes (js "/member/") (base ++ js "/member/" ++ username) = true.
Proof. apply includes_app_l. apply includes_here. Qed.

(** An attempt on a profile issues one request and yields its outcome. *)
Lemma parseUserInfo_attempt username w :
  parseUserInfo username w
  = (attempt w (requests w) (baseUrl w ++ js "/member/" ++ username), tick w).
Proof.
  unfold parseUserInfo, parseV2exPage, getBaseUrl, tryCatch, bind, axiosGet,
    lift, ret, throw, attempt.
  rewrite member_url_has_segment.
  destruct (net w (requests w) (baseUrl w ++ js "/member/" ++ username))
    as [e|doc]; [reflexivity|].
  cbn [baseUrl]. change (tick w) with
    {| baseUrl := baseUrl w; net := net w; requests := S (requests w);
       progress := progress w; waits := waits w |}.
  destruct (parseUserInfoPage (baseUrl w) doc
              (baseUrl w ++ js "/member/" ++ username)); reflexivity.
Qed.

(** One iteration of the retry loop, by the outcome of its attempt. *)
Lemma retryLoop_step fuel o currentIndex totalUsers username retryAttempts
      results w :
  (retryAttempts <= retryCount o)%Z ->
  retryLoop (S fuel) o currentIndex totalUsers username retryAttempts results w
  = match attempt w (requests w) (baseUrl w ++ js "/member/" ++ username) with
    | inr userInfo =>
        (inr (results ++
              [ {| out_username := username; out_success := true;
                   out_data := Some userInfo; out_error := None;
                   out_retryAttempts := None |} ]),
         noted o {| ev_currentIndex := currentIndex;
                    ev_totalUsers := totalUsers;
                    ev_username := Some username; ev_status := success;
                    ev_userInfo := Some userInfo |} (tick w))
    | inl e =>
        if (retryAttempts + 1 <=? retryCount o)%Z then
          retryLoop fuel o currentIndex totalUsers username
            (retryAttempts + 1) results
            (slept 2000
               (noted o {| ev_currentIndex := currentIndex;
                           ev_totalUsers := totalUsers;
                           ev_username := Some username; ev_status := retry;
                           ev_userInfo := None |} (tick w)))
        else
          retryLoop fuel o currentIndex totalUsers username
            (retryAttempts + 1)
            (results ++
             [ {| out_username := username; out_success := false;
                  out_data := None; out_error := Some e;
                  out_retryAttempts := Some (retryAttempts + 1)%Z |} ])
            (noted o {| ev_currentIndex := currentIndex;
                        ev_totalUsers := totalUsers;
                        ev_username := Some username; ev_status := error;
                        ev_userInfo := None |} (tick w))
    end.
Proof.
  intros Hle. cbn [retryLoop].
  replace (retryAttempts <=? retryCount o)%Z with true
    by (symmetry; apply Z.leb_le; exact Hle).
  unfold tryCatch. unfold bind at 1. rewrite parseUserInfo_attempt.
  destruct (attempt w (requests w) (baseUrl w ++ js "/member/" ++ username))
    as [e|userInfo].
  - destruct (retryAttempts + 1 <=? retryCount o)%Z.
    + unfold bind. rewrite callback_noted, sleep_slept. reflexivity.
    + unfold bind. rewrite callback_noted. reflexivity.
  - unfold bind. rewrite callback_noted. reflexivity.
Qed.

Lemma retryLoop_done fuel o currentIndex totalUsers username retryAttempts
      results w :
  (retryCount o < retryAttempts)%Z ->
  retryLoop (S fuel) o currentIndex totalUsers username retryAttempts results w
  = (inr results, w).
Proof.
  intros Hlt. cbn [retryLoop].
  replace (retryAttempts <=? retryCount o)%Z with false
    by (symmetry; apply Z.leb_gt; exact Hlt).
  reflexivity.
Qed.

(** With enough fuel the loop ends with exactly one more outcome, for
    its user. *)
Lemma retryLoop_one_outcome o currentIndex totalUsers username :
  forall fuel retryAttempts results w,
    (0 <= retryAttempts <= retryCount o)%Z ->
    Z.to_nat (retryCount o - retryAttempts) + 2 <= fuel ->
    exists out w',
      retryLoop fuel o currentIndex totalUsers username retryAttempts results w
      = (inr (results ++ [out]), w')
      /\ out_username out = username.
Proof.
  induction fuel as [|fuel IH]; intros retryAttempts results w Hr Hfuel;
    [lia|].
  rewrite retryLoop_step by lia.
  destruct (attempt w (requests w) (baseUrl w ++ js "/member/" ++ username))
    as [e|userInfo].
  - destruct (retryAttempts + 1 <=? retryCount o)%Z eqn:Hnext.
    + apply Z.leb_le in Hnext. apply IH; lia.
    + apply Z.leb_gt in Hnext.
      destruct fuel as [|fuel]; [lia|].
      rewrite retryLoop_done by lia.
      eexists _, _. split; reflexivity.
  - eexists _, _. split; reflexivity.
Qed.

Lemma processUser_one_outcome o totalUsers i username rest results w :
  (0 <= retryCount o)%Z ->
  exists out w',
    processUser o totalUsers i username rest results w
    = (inr (results ++ [out]), w')
    /\ out_username out = username.
Proof.
  intros Hr. unfold processUser. unfold bind at 1. rewrite callback_noted.
  unfold bind at 1.
  match goal with
  | |- context [retryLoop ?f o ?ci totalUsers username 0 results ?w1] =>
      destruct (@retryLoop_one_outcome o ci totalUsers username f 0%Z results w1)
        as (out & w' & Hrun & Hname);
        [lia|unfold retryFuel; lia|rewrite Hrun]
  end.
  unfold bind, ret.
  destruct ((0 <? length rest) && (0 <? delay o)%Z);
    [rewrite sleep_slept|]; eexists _, _; split; eauto.
Qed.

Lemma usersLoop_in_order o totalUsers : forall usernames i results w,
  (0 <= retryCount o)%Z ->
  exists outs w',
    usersLoop o totalUsers i usernames results w = (inr (results ++ outs), w')
    /\ map out_username outs = usernames.
Proof.
  induction usernames as [|username rest IH]; intros i results w Hr.
  - exists [], w. cbn. rewrite app_nil_r. auto.
  - cbn [usersLoop]. unfold bind at 1.
    destruct (processUser_one_outcome o totalUsers i username rest results w Hr)
      as (out & w1 & Hrun & Hname).
    rewrite Hrun.
    destruct (IH (S i) (results ++ [out]) w1 Hr) as (outs & w' & Hrest & Hnames).
    rewrite Hrest. exists (out :: outs), w'.
    rewrite <- app_assoc. cbn. rewrite Hname, Hnames. auto.
Qed.




(** ** Two failures, then a success *)

Lemma net_tick w : net (tick w) = net w.
Proof. reflexivity. Qed.
Lemma baseUrl_tick w : baseUrl (tick w) = baseUrl w.
Proof. reflexivity. Qed.
Lemma requests_tick w : requests (tick w) = S (requests w).
Proof. reflexivity. Qed.
Lemma progress_tick w : progress (tick w) = progress w.
Proof. reflexivity. Qed.
Lemma net_slept ms w : net (slept ms w) = net w.
Proof. reflexivity. Qed.
Lemma baseUrl_slept ms w : baseUrl (slept ms w) = baseUrl w.
Proof. reflexivity. Qed.
Lemma requests_slept ms w : requests (slept ms w) = requests w.
Proof. reflexivity. Qed.
Lemma progress_slept ms w : progress (slept ms w) = progress w.
Proof. reflexivity. Qed.
Lemma net_noted o ev w : net (noted o ev w) = net w.
Proof. unfold noted. destruct (onProgress o); reflexivity. Qed.
Lemma baseUrl_noted o ev w : baseUrl (noted o ev w) = baseUrl w.
Proof. unfold noted. destruct (onProgress o); reflexivity. Qed.
Lemma requests_noted o ev w : requests (noted o ev w) = requests w.
Proof. unfold noted. destruct (onProgress o); reflexivity. Qed.
Lemma progress_noted o ev w :
  onProgress o = true -> progress (noted o ev w) = progress w ++ [ev].
Proof. unfold noted. intros ->. reflexivity. Qed.

Lemma attempt_frame w w' n url :
  net w' = net w -> baseUrl w' = baseUrl w ->
  attempt w' n url = attempt w n url.
Proof. unfold attempt. intros -> ->. reflexivity. Qed.

Create Rewrite HintDb world.
#[local] Hint Rewrite net_tick baseUrl_tick requests_tick progress_tick
  net_slept baseUrl_slept requests_slept progress_slept
  net_noted baseUrl_noted requests_noted : world.

(** The loop body for a user whose first two attempts fail and whose
    third succeeds, with [retryCount = 2]. *)
Lemma processUser_third_attempt
      o totalUsers i (username : jsstring) rest results w e1 e2 userInfo :
  retryCount o = 2%Z ->
  onProgress o = true ->
  attempt w (requests w) (baseUrl w ++ js "/member/" ++ username) = inl e1 ->
  attempt w (S (requests w)) (baseUrl w ++ js "/member/" ++ username)
  = inl e2 ->
  attempt w (S (S (requests w))) (baseUrl w ++ js "/member/" ++ username)
  = inr userInfo ->
  exists w' evs,
    processUser o totalUsers i username rest results w
    = (inr (results ++
            [ {| out_username := username; out_success := true;
                 out_data := Some userInfo; out_error := None;
                 out_retryAttempts := None |} ]), w')
    /\ progress w' = progress w ++ evs
    /\ map ev_status evs = [start; retry; retry; success]
    /\ Forall (fun ev => ev_username ev = Some username
                         /\ ev_currentIndex ev = i + 1) evs
    /\ requests w' = requests w + 3.
Proof.
  intros Hrc Hcb H1 H2 H3.
  unfold processUser, retryFuel. rewrite Hrc.
  change (S (Z.to_nat (2 + 1))) with 4.
  unfold bind at 1. rewrite callback_noted. unfold bind at 1.
  rewrite retryLoop_step by lia.
  rewrite (@attempt_frame w) by (autorewrite with world; reflexivity).
  autorewrite with world. rewrite H1, Hrc. cbn [Z.leb Z.add Z.compare
    Pos.compare Pos.compare_cont Pos.add Pos.succ].
  rewrite retryLoop_step by lia.
  rewrite (@attempt_frame w) by (autorewrite with world; reflexivity).
  autorewrite with world. rewrite H2, Hrc. cbn [Z.leb Z.add Z.compare
    Pos.compare Pos.compare_cont Pos.add Pos.succ].
  rewrite retryLoop_step by lia.
  rewrite (@attempt_frame w) by (autorewrite with world; reflexivity).
  autorewrite with world. rewrite H3.
  unfold bind, ret.
  match goal with
  | |- context [if ?c then _ else _] => destruct c
  end; [rewrite sleep_slept|];
    (eexists _, [_; _; _; _]; split; [reflexivity|];
     autorewrite with world; rewrite !progress_noted by assumption;
     autorewrite with world; rewrite !progress_noted by assumption;
     autorewrite with world; rewrite !progress_noted by assumption;
     autorewrite with world; rewrite !progress_noted by assumption;
     autorewrite with world; rewrite <- !app_assoc; cbn [app];
     split; [reflexivity|]; split; [reflexivity|];
     split; [repeat constructor|lia]).
Qed.

(** C2, as the code has it: with [retryCount = 2], a user whose first two
    attempts fail and whose third succeeds gets a success outcome, and the
    callback is called for that user with [start], [retry], [retry],
    [success], in that order (the batch then reports [complete]).  The
    success outcome has no [retryAttempts] key: only failure outcomes
    record the count.  Stated for a batch of that user alone, and for the
    user at any position of a batch. *)
Theorem two_failures_then_success
        (username : jsstring) options w e1 e2 userInfo :
  retryCount (finalOptions options) = 2%Z ->
  opt_onProgress options = true ->
  attempt w (requests w) (baseUrl w ++ js "/member/" ++ username) = inl e1 ->
  attempt w (S (requests w)) (baseUrl w ++ js "/member/" ++ username)
  = inl e2 ->
  attempt w (S (S (requests w))) (baseUrl w ++ js "/member/" ++ username)
  = inr userInfo ->
  (exists w' evs final,
      parseMultipleUsers [username] options w
      = (inr [ {| out_username := username; out_success := true;
                  out_data := Some userInfo; out_error := None;
                  out_retryAttempts := None |} ], w')
      /\ progress w' = progress w ++ evs ++ [final]
      /\ map ev_status evs = [start; retry; retry; success]
      /\ Forall (fun ev => ev_username ev = Some username) evs
      /\ ev_status final = complete /\ ev_username final = None)
  /\ (forall totalUsers i rest results,
         exists w' evs,
           processUser (finalOptions options) totalUsers i username rest
                       results w
           = (inr (results ++
                   [ {| out_username := username; out_success := true;
                        out_data := Some userInfo; out_error := None;
                        out_retryAttempts := None |} ]), w')
           /\ progress w' = progress w ++ evs
           /\ map ev_status evs = [start; retry; retry; success]
           /\ Forall (fun ev => ev_username ev = Some username) evs).
Proof.
  intros Hrc Hcb H1 H2 H3.
  assert (Hcb' : onProgress (finalOptions options) = true) by exact Hcb.
  split.
  - destruct (@processUser_third_attempt (finalOptions options) 1 0 username
                [] [] w e1 e2 userInfo Hrc Hcb' H1 H2 H3)
      as (w1 & evs & Hrun & Hp & Hs & Hu & _).
    unfold parseMultipleUsers. cbn [usersLoop length].
    unfold bind, ret. eexists _, evs, _.
    split; [rewrite Hrun, callback_noted; cbn [app]; reflexivity|].
    rewrite progress_noted, Hp, <- app_assoc by assumption.
    split; [reflexivity|]. split; [exact Hs|].
    split; [|split; reflexivity].
    eapply Forall_impl; [|exact Hu]. intros ev [Hn _]. exact Hn.
  - intros totalUsers i rest results.
    destruct (@processUser_third_attempt (finalOptions options) totalUsers i
                username rest results w e1 e2 userInfo Hrc Hcb' H1 H2 H3)
      as (w1 & evs & Hrun & Hp & Hs & Hu & _).
    exists w1, evs. repeat split; auto.
    eapply Forall_impl; [|exact Hu]. intros ev [Hn _]. exact Hn.
Qed.

Lemma two_failures_then_success_witness :
  exists w' evs out,
    parseMultipleUsers [js "alice"] callerOptions (worldOf thirdTimeLucky)
    = (inr [out], w')
    /\ out_success out = true
    /\ out_retryAttempts out = None
    /\ map ev_status evs = [start; retry; retry; success]
    /\ map ev_status (progress w') = map ev_status evs ++ [complete].
Proof.
  destruct (attempt (worldOf thirdTimeLucky) 2
                    (js "https://v2ex.com/member/alice"))
    as [e|userInfo] eqn:E3; [vm_compute in E3; discriminate|].
  destruct (proj1 (@two_failures_then_success
                     (js "alice") callerOptions (worldOf thirdTimeLucky)
                     (parseFailedPrefix ++ js "timeout of 10000ms exceeded")
                     (parseFailedPrefix ++ js "timeout of 10000ms exceeded")
                     userInfo eq_refl eq_refl eq_refl eq_refl E3))
    as (w' & evs & final & Hrun & Hp & Hs & _ & Hf & _).
  eexists w', evs, _. split; [exact Hrun|].
  split; [reflexivity|]. split; [reflexivity|]. split; [exact Hs|].
  rewrite Hp. cbn [progress worldOf app]. rewrite map_app. cbn [map].
  rewrite Hf. reflexivity.
Defined.

(** C2 as stated fails on the outcome: after two failed attempts and a
    successful third, the success outcome has no [retryAttempts] key,
    while the callback statuses are as specified (followed by the final
    [complete] of the batch). *)
Lemma success_outcome_has_no_retryAttempts :
  match fst (parseMultipleUsers [js "alice"] callerOptions
                                (worldOf thirdTimeLucky)) with
  | inr [out] =>
      out_success out = true
      /\ out_retryAttempts out = None
      /\ out_retryAttempts out <> Some 2%Z
  | _ => False
  end
  /\ map ev_status
         (progress (snd (parseMultipleUsers [js "alice"] callerOptions
                                            (worldOf thirdTimeLucky))))
     = [start; retry; retry; success; complete].
Proof.
  split.
  - vm_compute. repeat split. discriminate.
  - vm_compute. reflexivity.
Qed.

(** In general, with a negative [retryCount] the loop guard fails at
    once: no attempt is made and no outcome is recorded for the user. *)
Lemma negative_retryCount_no_attempt o totalUsers i username rest results w :
  (retryCount o < 0)%Z ->
  exists w',
    processUser o totalUsers i username rest results w = (inr results, w')
    /\ requests w' = requests w.
Proof.
  intros Hneg. unfold processUser, retryFuel.
  unfold bind at 1. rewrite callback_noted. unfold bind at 1.
  rewrite retryLoop_done by lia. unfold bind, ret.
  destruct ((0 <? length rest) && (0 <? delay o)%Z);
    [rewrite sleep_slept|]; eexists; split; try reflexivity;
    autorewrite with world; reflexivity.
Qed.

End Batches.

(* ================================================================== *)
(** * Further properties of the recogniser *)
(* ================================================================== *)
Section RecogniserProperties.

Lemma search_finds r suf : forall pre bef,
  m r Some (MState (rev pre ++ bef) suf []) <> None ->
  search r bef (pre ++ suf) <> None.
Proof.
  induction pre as [|c pre IH]; intros bef H.
  - cbn [app rev] in *. destruct suf; cbn [search];
      destruct (m r Some _); congruence.
  - cbn [app search].
    destruct (m r Some (MState bef (c :: pre ++ suf) [])); [discriminate|].
    apply IH. cbn [rev] in H. rewrite <- app_assoc in H. exact H.
Qed.

(** An anchored class pattern [/^[class]+$/] tests for a non-empty string
    of the class. *)
Lemma test_anchored_class p s :
  test (seqs [Bol; plus (Chr p); Eol]) s = truthy s && forallb p s.
Proof.
  unfold test.
  destruct (truthy s && forallb p s) eqn:E.
  - apply andb_true_iff in E as [Hs Hp].
    rewrite (@search_here _ [] s (MState (rev s) [] [])); [reflexivity|].
    unfold plus. cbn [seqs]. rewrite m_seq, m_bol. cbn [before].
    rewrite m_seq, m_rep.
    apply (@rep_chr_run p _ _ s _ 1 _ []); cbn [after before caps]; auto.
    + rewrite app_nil_r. reflexivity.
    + split; [destruct s; [discriminate|cbn; lia]|lia].
    + rewrite app_nil_r. reflexivity.
  - rewrite search_none; [reflexivity|].
    intros pre suf ->.
    destruct (m _ Some (MState (rev pre ++ []) suf [])) eqn:Em; [|reflexivity].
    apply m_sound in Em as (y & HM & _).
    unfold plus in HM. cbn [seqs] in HM.
    apply Matches_seq in HM as (y1 & H1 & HM).
    apply Matches_seq in HM as (y2 & H2 & H3).
    apply Matches_bol in H1 as (-> & Hb). cbn in Hb.
    apply Matches_rep_chr in H2 as (w & Hlo & _ & Hw & Ea & _).
    apply Matches_eol in H3 as (_ & Ee). cbn in Ea.
    rewrite app_nil_r in Hb.
    apply (f_equal (@rev char)) in Hb. rewrite rev_involutive in Hb.
    cbn in Hb. subst pre. cbn [app] in E.
    rewrite Ea, Ee, app_nil_r, Hw, andb_true_r in E.
    destruct w; [cbn in Hlo; lia|discriminate].
Qed.

(** [isValidSolanaAddress] accepts exactly the strings of 32 to 44
    base58 characters that are not all digits. *)
Theorem valid_address_iff a :
  isValidSolanaAddress a = true
  <-> 32 <= length a <= 44
      /\ forallb isBase58 a = true /\ forallb isDigit a = false.
Proof.
  unfold isValidSolanaAddress, allBase58, allDigits.
  rewrite !test_anchored_class.
  destruct a as [|c a].
  - cbn. split; [discriminate|]. intros [H _]. lia.
  - cbn [truthy negb andb].
    destruct (length (c :: a) <? 32) eqn:L1; cbn [orb].
    { apply Nat.ltb_lt in L1. split; [discriminate|]. intros [H _]. lia. }
    destruct (44 <? length (c :: a)) eqn:L2.
    { apply Nat.ltb_lt in L2. split; [discriminate|]. intros [H _]. lia. }
    apply Nat.ltb_ge in L1, L2.
    destruct (forallb isBase58 (c :: a)); cbn [negb].
    + destruct (forallb isDigit (c :: a)); split; try discriminate;
        try (intros (_ & _ & H); discriminate); intros _; repeat split; lia.
    + split; [discriminate|]. intros (_ & H & _). discriminate.
Qed.

Lemma uniqFrom_fresh : forall xs seen x,
  In x (uniqFrom seen xs) -> mem x seen = false.
Proof.
  induction xs as [|y xs IH]; intros seen x H; cbn in H; [destruct H|].
  destruct (mem y seen) eqn:E; [eauto|].
  destruct H as [<-|H]; [exact E|].
  apply IH in H. unfold mem in *. cbn in H.
  apply orb_false_iff in H as [_ H]. exact H.
Qed.

Lemma NoDup_uniqFrom : forall xs seen, NoDup (uniqFrom seen xs).
Proof.
  induction xs as [|y xs IH]; intros seen; cbn; [constructor|].
  destruct (mem y seen); [apply IH|].
  constructor; [|apply IH].
  intros H. apply uniqFrom_fresh in H. unfold mem in H. cbn in H.
  assert (E : str_eqb y y = true) by (apply str_eqb_eq; reflexivity).
  rewrite E in H. discriminate.
Qed.

(** The addresses returned for a text are pairwise distinct, and each of
    them passes [isValidSolanaAddress]. *)
Theorem extracted_addresses_distinct_and_valid text :
  NoDup (extractSolanaAddressesWithBoundary text)
  /\ Forall (fun a => isValidSolanaAddress a = true)
            (extractSolanaAddressesWithBoundary text).
Proof.
  split.
  - unfold extractSolanaAddressesWithBoundary.
    destruct (negb (truthy text)); [constructor|apply NoDup_uniqFrom].
  - apply Forall_forall. intros a Ha.
    apply extracted_iff_candidate in Ha as (i & Ha).
    apply candidates_are_runs in Ha as (_ & _ & Hv & _). exact Hv.
Qed.

(** The domains returned for a text are pairwise distinct, and a text
    without the substring [.sol] yields none. *)
Theorem extracted_domains_distinct text :
  NoDup (extractSolanaDomainsFromText text)
  /\ (includes (js ".sol") text = false ->
      extractSolanaDomainsFromText text = []).
Proof.
  split.
  - unfold extractSolanaDomainsFromText.
    destruct (negb (truthy text)); [constructor|apply NoDup_uniqFrom].
  - intros Hno.
    destruct (extractSolanaDomainsFromText text) as [|d l] eqn:E;
      [reflexivity|].
    destruct (domain_occurrence text d)
      as (pre & label & post & Et & Ed & _); [rewrite E; left; reflexivity|].
    rewrite Et, Ed in Hno.
    rewrite (includes_app_l (js ".sol") pre) in Hno; [discriminate|].
    apply includes_app_r. apply includes_app_l.
    replace (js ".sol") with (js ".sol" ++ []) at 2 by apply app_nil_r.
    apply includes_here.
Qed.

Lemma extracted_domains_distinct_witness :
  includes (js ".sol") (js "visit example.com today") = false
  /\ extractSolanaDomainsFromText (js "visit example.com today") = [].
Proof.
  split; [reflexivity|].
  apply (proj2 (extracted_domains_distinct (js "visit example.com today"))).
  reflexivity.
Defined.

End RecogniserProperties.

(* ================================================================== *)
(** * Links around an address, and texts without links *)
(* ================================================================== *)
Section LinkContext.

Lemma m_opt_some r k x : k x <> None -> m (opt r) k x <> None.
Proof.
  intros H. unfold opt. rewrite m_rep. cbn [rep Nat.eqb].
  destruct (m r _ x); [discriminate|exact H].
Qed.

Lemma m_alt_some_l r1 r2 k x : m r1 k x <> None -> m (Alt r1 r2) k x <> None.
Proof. intros H. rewrite m_alt. destruct (m r1 k x); congruence. Qed.

Lemma m_alt_some_r r1 r2 k x : m r2 k x <> None -> m (Alt r1 r2) k x <> None.
Proof. intros H. rewrite m_alt. destruct (m r1 k x); congruence. Qed.

Lemma startsWith_split e : forall s,
  startsWith e s = true -> exists q, s = e ++ q.
Proof.
  induction e as [|c e IH]; intros s H; [exists s; reflexivity|].
  destruct s as [|d s]; [discriminate|]. cbn in H.
  apply andb_true_iff in H as [Hc H]. apply char_eqb_eq in Hc as ->.
  destruct (IH _ H) as (q & ->). exists q. reflexivity.
Qed.

Lemma includes_split e : forall hay,
  includes e hay = true -> exists p q, hay = p ++ e ++ q.
Proof.
  induction hay as [|c hay IH]; intros H.
  - cbn in H. rewrite orb_false_r in H.
    apply startsWith_split in H as (q & ->). exists [], q. reflexivity.
  - cbn [includes] in H. apply orb_true_iff in H as [H|H].
    + apply startsWith_split in H as (q & ->). exists [], q. reflexivity.
    + destruct (IH H) as (p & q & ->). exists (c :: p), q. reflexivity.
Qed.

Lemma test_found r p q :
  m r Some (MState (rev p) q []) <> None -> test r (p ++ q) = true.
Proof.
  intros H. unfold test.
  destruct (search r [] (p ++ q)) eqn:E; [reflexivity|].
  exfalso. revert E. apply search_finds. rewrite app_nil_r. exact H.
Qed.

Lemma existsb_nth_pattern (W : jsstring) n r :
  nth_error urlPatterns n = Some r -> test r W = true ->
  existsb (fun pattern => test pattern W) urlPatterns = true.
Proof.
  intros Hn Ht. apply existsb_exists. exists r. split; [|exact Ht].
  eapply nth_error_In; eassumption.
Qed.

(** A text that contains a marker of [urlMarkers] is matched by one of
    the patterns [isPartOfUrl] tries. *)
Lemma marker_triggers mk W :
  In mk urlMarkers -> includes mk W = true ->
  existsb (fun pattern => test pattern W) urlPatterns = true.
Proof.
  intros Hmk Hin. apply includes_split in Hin as (p & q & ->).
  unfold urlMarkers in Hmk. apply in_app_or in Hmk as [Hmk|Hmk].
  - cbn [In] in Hmk.
    destruct Hmk as [<-|[<-|[<-|[<-|[<-|[]]]]]].
    + apply (@existsb_nth_pattern _ 0 _ eq_refl). apply test_found.
      cbn [seqs]. change (js "http://" ++ q) with (js "http" ++ js "://" ++ q).
      rewrite m_seq, m_liti_prefix, m_seq. apply m_opt_some.
      rewrite m_lit_prefix. discriminate.
    + apply (@existsb_nth_pattern _ 0 _ eq_refl). apply test_found.
      cbn [seqs].
      change (js "https://" ++ q)
        with (js "http" ++ js "s" ++ js "://" ++ q).
      rewrite m_seq, m_liti_prefix, m_seq.
      destruct (m (opt (liti (js "s"))) (m (lit (js "://")) Some) _) eqn:E;
        [discriminate|].
      erewrite m_opt_taken in E; [discriminate|discriminate|].
      rewrite m_lit_prefix. reflexivity.
    + apply (@existsb_nth_pattern _ 1 _ eq_refl). apply test_found.
      rewrite m_liti_prefix. discriminate.
    + apply (@existsb_nth_pattern _ 3 _ eq_refl). apply test_found.
      rewrite m_liti_prefix. discriminate.
    + apply (@existsb_nth_pattern _ 4 _ eq_refl). apply test_found.
      rewrite m_liti_prefix. discriminate.
  - apply in_map_iff in Hmk as (tld & <- & Htld).
    apply (@existsb_nth_pattern _ 2 _ eq_refl). apply test_found.
    rewrite <- app_assoc, m_seq, m_lit_prefix, m_group. cbn [alts map].
    cbn [In] in Htld.
    repeat (destruct Htld as [<-|Htld];
            [repeat first
               [ apply m_alt_some_l; rewrite m_liti_prefix; discriminate
               | apply m_alt_some_r ];
             rewrite m_liti_prefix; discriminate|]).
    destruct Htld.
Qed.

Lemma substring_before (pre rest : jsstring) n :
  substring (length pre - n) (length pre) (pre ++ rest)
  = skipn (length pre - n) pre.
Proof.
  unfold substring. rewrite length_app.
  replace (Nat.min (length pre - n) (length pre + length rest))
    with (length pre - n) by lia.
  replace (Nat.min (length pre) (length pre + length rest))
    with (length pre) by lia.
  replace (Nat.max (length pre - n) (length pre)) with (length pre) by lia.
  replace (Nat.min (length pre - n) (length pre)) with (length pre - n) by lia.
  rewrite skipn_app.
  replace (length pre - n - length pre) with 0 by lia. cbn [skipn].
  rewrite firstn_app, length_skipn.
  replace (length pre - (length pre - n) - (length pre - (length pre - n)))
    with 0 by lia.
  cbn [firstn]. rewrite app_nil_r.
  apply firstn_all2. rewrite length_skipn. lia.
Qed.

Lemma substring_after (pre post : jsstring) n :
  substring (length pre)
            (Nat.min (length (pre ++ post)) (length pre + n)) (pre ++ post)
  = firstn n post.
Proof.
  unfold substring. rewrite length_app.
  set (b := Nat.min (length pre + length post) (length pre + n)).
  replace (Nat.min (length pre) (length pre + length post))
    with (length pre) by lia.
  replace (Nat.min b (length pre + length post)) with b by lia.
  replace (Nat.max (length pre) b) with b by lia.
  replace (Nat.min (length pre) b) with (length pre) by lia.
  rewrite skipn_app, skipn_all, Nat.sub_diag. cbn [skipn app].
  destruct (Nat.le_ge_cases n (length post)) as [H|H].
  - f_equal. lia.
  - replace (b - length pre) with (length post) by lia.
    rewrite !firstn_all2 by lia. reflexivity.
Qed.

(** An address is returned only from a place with no link marker within
    200 code units on either side: no scheme, no [www.], none of the listed
    top-level domains, no [/tx/] and no [/address/]. *)
Theorem extracted_address_away_from_url_markers text a :
  In a (extractSolanaAddressesWithBoundary text) ->
  exists pre post,
    text = pre ++ a ++ post
    /\ forall mk, In mk urlMarkers -> includes mk (urlWindow pre post) = false.
Proof.
  intros Ha. apply extracted_iff_candidate in Ha as (i & Ha).
  apply candidates_are_runs in Ha as (Hrun & _ & _ & Hurl).
  destruct Hrun as (pre & post & -> & <- & _).
  exists pre, post. split; [reflexivity|].
  intros mk Hmk.
  destruct (includes mk (urlWindow pre post)) eqn:E; [|reflexivity].
  apply (@marker_triggers mk _ Hmk) in E.
  unfold isPartOfUrl in Hurl.
  rewrite !substring_before in Hurl.
  replace (pre ++ a ++ post) with ((pre ++ a) ++ post) in Hurl
    by (symmetry; apply app_assoc).
  rewrite <- (length_app pre a) in Hurl.
  rewrite substring_after in Hurl.
  unfold urlWindow in E. rewrite E in Hurl.
  destruct (_ || _) in Hurl; discriminate.
Qed.

Lemma extracted_address_away_from_url_markers_witness :
  let a := js "3Bm" ++ repeat (ch "x") 41 in
  let text := js "pay " ++ a ++ js " now" in
  In a (extractSolanaAddressesWithBoundary text)
  /\ exists pre post,
       text = pre ++ a ++ post
       /\ forall mk, In mk urlMarkers ->
                     includes mk (urlWindow pre post) = false.
Proof.
  assert (Hin : In (js "3Bm" ++ repeat (ch "x") 41)
                   (extractSolanaAddressesWithBoundary
                      (js "pay " ++ (js "3Bm" ++ repeat (ch "x") 41)
                       ++ js " now")))
    by (vm_compute; left; reflexivity).
  split; [exact Hin|].
  exact (@extracted_address_away_from_url_markers _ _ Hin).
Defined.

Lemma scheme_shape r x y :
  Matches (Seq (liti (js "http"))
               (Seq (opt (liti (js "s"))) (Seq (lit (js "://")) r))) x y ->
  includes (js "://") (after x) = true.
Proof.
  intros H.
  apply Matches_seq in H as (y1 & H1 & H).
  apply Matches_seq in H as (y2 & H2 & H).
  apply Matches_seq in H as (y3 & H3 & _).
  apply Matches_passes in H1 as (w1 & E1 & _).
  apply Matches_passes in H2 as (w2 & E2 & _).
  apply Matches_lit in H3 as (E3 & _).
  rewrite E1, E2, E3.
  apply includes_app_l, includes_app_l, includes_here.
Qed.

(** A text without [://] contains no link, and
    [removeUrlTransactionSignatures] returns it unchanged. *)
Theorem text_without_scheme_unchanged text :
  includes (js "://") text = false ->
  removeUrlTransactionSignatures text = text.
Proof.
  intros H. unfold removeUrlTransactionSignatures.
  destruct text as [|c text]; [reflexivity|].
  cbn [truthy negb fold_left].
  assert (Hpre : forall pre suf, includes (js "://") suf = true ->
                                 includes (js "://") (pre ++ suf) = true)
    by (intros; apply includes_app_l; assumption).
  rewrite (@replaceAll_absent txUrl (js " ") (includes (js "://")));
    [|intros x y HM; exact (scheme_shape HM)|exact Hpre|exact H].
  apply (@replaceAll_absent txsUrl (js " ") (includes (js "://")));
    [intros x y HM; exact (scheme_shape HM)|exact Hpre|exact H].
Qed.

Lemma text_without_scheme_unchanged_witness :
  includes (js "://") (js "no links in this text") = false
  /\ removeUrlTransactionSignatures (js "no links in this text")
     = js "no links in this text".
Proof.
  split; [reflexivity|].
  apply (@text_without_scheme_unchanged (js "no links in this text")).
  reflexivity.
Defined.

End LinkContext.

(* ================================================================== *)
(** * Further properties of the normalisation chain *)
(* ================================================================== *)
Section NormalisationProperties.

Lemma replaceScan_chars r : forall aft bef skip c,
  In c (replaceScan r [] bef aft skip) -> In c aft.
Proof.
  induction aft as [|d rest IH]; intros bef skip c H.
  - destruct skip; cbn [replaceScan] in H; [|destruct H].
    destruct (m r Some _); destruct H.
  - destruct skip; cbn [replaceScan] in H.
    + destruct (m r Some _); cbn [app] in H.
      * destruct (length _).
        -- destruct H as [<-|H]; [left; reflexivity|right; eauto].
        -- right; eauto.
      * destruct H as [<-|H]; [left; reflexivity|right; eauto].
    + right; eauto.
Qed.

Lemma first_occurrence (p : char -> bool) : forall l,
  existsb p l = true ->
  exists w c q, l = w ++ c :: q
                /\ forallb (fun x => negb (p x)) w = true /\ p c = true.
Proof.
  induction l as [|d l IH]; intros H; [discriminate|].
  cbn in H. destruct (p d) eqn:E.
  - exists [], d, l. auto.
  - destruct (IH H) as (w & c & q & -> & Hw & Hc).
    exists (d :: w), c, q. cbn. rewrite E, Hw. auto.
Qed.

(** Where a [<] is followed later by a [>], the tag pattern matches. *)
Lemma anyTag_hits bef w q :
  forallb (fun c => negb (char_eqb (ch ">") c)) w = true ->
  m anyTag Some (MState bef (ch "<" :: w ++ ch ">" :: q) []) <> None.
Proof.
  intros Hw. unfold anyTag. cbn [seqs].
  change (ch "<" :: w ++ ch ">" :: q) with (js "<" ++ w ++ js ">" ++ q).
  rewrite m_seq, m_lit_prefix, m_seq. unfold star, notChr. rewrite m_rep.
  erewrite (@rep_chr_run (fun c => negb (char_eqb (ch ">") c)) _ _ w _ 0 _
              (js ">" ++ q)); cbn [after before caps].
  - discriminate.
  - reflexivity.
  - exact Hw.
  - reflexivity.
  - rewrite length_app. lia.
  - rewrite m_lit_prefix. reflexivity.
Qed.

Lemma anyTag_consumes x y :
  Matches anyTag x y -> exists n, length (consumed x y) = S n.
Proof.
  intros H. unfold anyTag in H. cbn [seqs] in H.
  apply Matches_seq in H as (y1 & H1 & H2).
  apply Matches_lit in H1 as (E1 & _).
  apply Matches_passes in H2 as (w & E2 & _).
  rewrite (@consumed_passes x y (js "<" ++ w)).
  - exists (length w). reflexivity.
  - rewrite E1, E2, <- app_assoc. reflexivity.
Qed.

Lemma strip_leaves_no_tag : forall aft bef skip,
  containsTag (replaceScan anyTag [] bef aft skip) = false.
Proof.
  induction aft as [|c rest IH]; intros bef skip.
  - destruct skip; cbn [replaceScan]; [|reflexivity].
    destruct (m anyTag Some _); reflexivity.
  - destruct skip; [|cbn [replaceScan]; apply IH].
    destruct (m anyTag Some (MState bef (c :: rest) [])) as [y|] eqn:Em.
    + destruct (m_sound _ _ _ Em) as (y' & HM & Ey).
      injection Ey as ->.
      destruct (anyTag_consumes HM) as (n & Hn).
      rewrite (@replaceScan_hit _ [] _ _ _ _ _ Em Hn). cbn [app]. apply IH.
    + cbn [replaceScan]. rewrite Em. cbn [containsTag].
      rewrite IH, orb_false_r.
      destruct (char_eqb c (ch "<")) eqn:Ec; [|reflexivity].
      apply char_eqb_eq in Ec as ->. cbn [andb].
      destruct (existsb (char_eqb (ch ">"))
                  (replaceScan anyTag [] (ch "<" :: bef) rest 0)) eqn:Ex;
        [|reflexivity].
      exfalso.
      apply existsb_exists in Ex as (d & Hd & Ed).
      apply replaceScan_chars in Hd.
      assert (Hex : existsb (char_eqb (ch ">")) rest = true)
        by (apply existsb_exists; eauto).
      apply first_occurrence in Hex as (w & c' & q & -> & Hw & Hc).
      apply char_eqb_eq in Hc as <-.
      exact (anyTag_hits bef w q Hw Em).
Qed.

(** The second step of the chain, [.replace(/<[^>]*>/g, '')], leaves no
    tag behind: in its result no [<] is followed by a [>]. *)
Theorem tags_stripped_completely html :
  containsTag (replaceAll anyTag [] html) = false.
Proof. apply strip_leaves_no_tag. Qed.

Lemma trim_ends s :
  match trim s with [] => True | c :: _ => isWhiteSpace c = false end
  /\ match rev (trim s) with [] => True | c :: _ => isWhiteSpace c = false end.
Proof.
  split; [apply dropWhile_head|].
  unfold trim, trimStart, trimEnd.
  pose proof (dropWhile_head isWhiteSpace (rev s)) as Hd.
  destruct (dropWhile_suffix isWhiteSpace
              (rev (dropWhile isWhiteSpace (rev s)))) as (pre & E).
  apply (f_equal (@rev char)) in E.
  rewrite rev_involutive, rev_app_distr in E.
  destruct (rev (dropWhile isWhiteSpace
                   (rev (dropWhile isWhiteSpace (rev s)))));
    [exact I|].
  rewrite E in Hd. exact Hd.
Qed.

(** A normalised fragment neither starts nor ends with white space, and a
    fragment of white space only normalises to the empty string. *)
Theorem normalize_has_no_outer_whitespace html :
  match normalize html with [] => True | c :: _ => isWhiteSpace c = false end
  /\ match rev (normalize html) with
     | [] => True
     | c :: _ => isWhiteSpace c = false
     end
  /\ (forallb isWhiteSpace html = true -> normalize html = []).
Proof.
  split; [|split]; try apply trim_ends.
  intros Hws.
  assert (Hplain : forall c, In c html -> isWhiteSpace c = true)
    by (apply forallb_forall; exact Hws).
  rewrite normalize_plain.
  - unfold trim, trimStart, trimEnd.
    assert (E : dropWhile isWhiteSpace (rev html) = []).
    { assert (Hr : forallb isWhiteSpace (rev html) = true).
      { apply forallb_forall. intros c Hc. apply Hplain, in_rev, Hc. }
      revert Hr. generalize (rev html) as l.
      induction l as [|c l IH]; [reflexivity|]. cbn.
      intros H. apply andb_true_iff in H as [-> H]. auto. }
    rewrite E. reflexivity.
  - clear Hplain. induction html as [|c t IH]; [reflexivity|].
    cbn in Hws. apply andb_true_iff in Hws as [Hc Ht].
    cbn [containsTag]. rewrite (IH Ht), orb_false_r.
    destruct (char_eqb c (ch "<")) eqn:E; [|reflexivity].
    apply char_eqb_eq in E as ->. discriminate.
  - intros e He.
    destruct (includes e html) eqn:E; [|reflexivity].
    apply includes_split in E as (p & q & ->).
    assert (Ha : isWhiteSpace (ch "&") = true).
    { apply Hplain. apply in_or_app. right. apply in_or_app. left.
      cbn in He.
      destruct He as [<-|[<-|[<-|[<-|[<-|[]]]]]]; left; reflexivity. }
    discriminate.
Qed.

Lemma normalize_has_no_outer_whitespace_witness :
  forallb isWhiteSpace (js "   ") = true /\ normalize (js "   ") = [].
Proof.
  split; [reflexivity|].
  apply (proj2 (proj2 (normalize_has_no_outer_whitespace (js "   ")))).
  reflexivity.
Defined.

Lemma m_liti_variant s : forall w k bef rest cs,
  Forall2 sameLetter s w ->
  m (liti s) k (MState bef (w ++ rest) cs) = k (MState (rev w ++ bef) rest cs).
Proof.
  induction s as [|c s IH]; intros w k bef rest cs H;
    inversion H as [|c0 d s0 w0 Hd Hw]; subst; [reflexivity|].
  change (liti (c :: s))
    with (Seq (Chr (fun x => char_eqb c x || char_eqb (toggleCase c) x))
              (liti s)).
  cbn [app]. rewrite m_seq, m_chr_cons.
  replace (char_eqb c d || char_eqb (toggleCase c) d) with true.
  - rewrite (IH _ _ _ _ _ Hw). cbn [rev]. rewrite <- app_assoc. reflexivity.
  - symmetry. destruct Hd as [->| ->];
      rewrite char_eqb_refl; [reflexivity|apply orb_true_r].
Qed.

Lemma brTag_needs_lt bef aft cs :
  match aft with [] => True | c :: _ => char_eqb (ch "<") c = false end ->
  m brTag Some (MState bef aft cs) = None.
Proof.
  intros H. unfold brTag. cbn [seqs].
  change (lit (js "<")) with (Seq (Chr (char_eqb (ch "<"))) Eps).
  rewrite !m_seq.
  destruct aft as [|c aft]; [apply m_chr_nil|].
  rewrite m_chr_cons, H. reflexivity.
Qed.

Lemma replaceScan_no_lt rep' : forall pre bef rest,
  forallb (fun c => negb (char_eqb (ch "<") c)) pre = true ->
  replaceScan brTag rep' bef (pre ++ rest) 0
  = pre ++ replaceScan brTag rep' (rev pre ++ bef) rest 0.
Proof.
  induction pre as [|c pre IH]; intros bef rest H; [reflexivity|].
  cbn in H. apply andb_true_iff in H as [Hc H].
  apply negb_true_iff in Hc.
  cbn [app replaceScan].
  rewrite (@brTag_needs_lt bef (c :: pre ++ rest) []) by exact Hc.
  rewrite (IH _ _ H). cbn [rev]. rewrite <- app_assoc. reflexivity.
Qed.

(** Every form of the line-break tag is matched as a whole: the letters
    in either case, any white space after them, the slash or none. *)
Lemma brTag_hits bef t sp slash q :
  Forall2 sameLetter (js "br") t ->
  forallb isWhiteSpace sp = true ->
  slash = [] \/ slash = js "/" ->
  m brTag Some (MState bef (js "<" ++ t ++ sp ++ slash ++ js ">" ++ q) [])
  = Some (MState (rev (js "<" ++ t ++ sp ++ slash ++ js ">") ++ bef) q []).
Proof.
  intros Ht Hsp Hslash. unfold brTag. cbn [seqs].
  rewrite m_seq, m_lit_prefix, m_seq, (m_liti_variant _ _ _ _ Ht), m_seq.
  unfold star. rewrite m_rep.
  assert (Hout : rev (js "<" ++ t ++ sp ++ slash ++ js ">") ++ bef
                 = rev (js ">") ++ rev slash ++ rev sp ++ rev t
                   ++ rev (js "<") ++ bef).
  { rewrite !rev_app_distr, <- !app_assoc. reflexivity. }
  rewrite Hout.
  apply (@rep_chr_run isWhiteSpace _ _ sp _ 0 _ (slash ++ js ">" ++ q));
    cbn [after before caps].
  - reflexivity.
  - exact Hsp.
  - destruct Hslash as [-> | ->]; reflexivity.
  - rewrite length_app. lia.
  - rewrite m_seq. unfold opt. rewrite m_rep. cbn [rep Nat.eqb andb pred].
    destruct Hslash as [-> | ->].
    + change (lit (js "/")) with (Seq (Chr (char_eqb (ch "/"))) Eps).
      cbn [app]. rewrite m_seq.
      change (js ">" ++ q) with (ch ">" :: q). rewrite m_chr_cons.
      change (char_eqb (ch "/") (ch ">")) with false. cbv iota.
      change (ch ">" :: q) with (js ">" ++ q).
      rewrite m_lit_prefix. reflexivity.
    + rewrite m_lit_prefix. cbn [after].
      replace (length (js ">" ++ q) =? length (js "/" ++ js ">" ++ q))
        with false
        by (symmetry; apply Nat.eqb_neq; rewrite !length_app; cbn; lia).
      rewrite m_lit_prefix. reflexivity.
Qed.

Lemma plain_no_lt s :
  forallb isPlain s = true ->
  forallb (fun c => negb (char_eqb (ch "<") c)) s = true.
Proof.
  intros H. apply forallb_forall. intros c Hc.
  apply (proj1 (forallb_forall _ _) H) in Hc. unfold isPlain in Hc.
  apply andb_true_iff in Hc as [Hc _]. exact Hc.
Qed.

Lemma plain_no_tag s : forallb isPlain s = true -> containsTag s = false.
Proof.
  induction s as [|c s IH]; intros H; [reflexivity|].
  cbn in H. apply andb_true_iff in H as [Hc H].
  cbn [containsTag]. rewrite (IH H), orb_false_r.
  destruct (char_eqb c (ch "<")) eqn:E; [|reflexivity].
  apply char_eqb_eq in E as ->. discriminate.
Qed.

Lemma plain_no_entity s e :
  forallb isPlain s = true -> In e knownEntities -> includes e s = false.
Proof.
  intros H He.
  destruct (includes e s) eqn:E; [|reflexivity].
  apply includes_split in E as (p & q & ->).
  assert (Ha : isPlain (ch "&") = true).
  { apply (proj1 (forallb_forall _ _) H).
    apply in_or_app. right. apply in_or_app. left.
    cbn in He. destruct He as [<-|[<-|[<-|[<-|[<-|[]]]]]]; left; reflexivity. }
  discriminate.
Qed.

(** A line-break tag between two plain texts becomes exactly one newline,
    whatever its form: [<br>], [<BR>], [<br/>], [<br />], ... *)
Theorem line_break_becomes_newline a b t sp slash :
  forallb isPlain a = true -> forallb isPlain b = true ->
  Forall2 sameLetter (js "br") t ->
  forallb isWhiteSpace sp = true ->
  slash = [] \/ slash = js "/" ->
  normalize (a ++ js "<" ++ t ++ sp ++ slash ++ js ">" ++ b)
  = trim (a ++ [newline] ++ b).
Proof.
  intros Ha Hb Ht Hsp Hslash.
  assert (Hplain : forallb isPlain (a ++ [newline] ++ b) = true)
    by (rewrite !forallb_app, Ha, Hb; reflexivity).
  assert (E1 : replaceAll brTag [newline]
                 (a ++ js "<" ++ t ++ sp ++ slash ++ js ">" ++ b)
               = a ++ [newline] ++ b).
  { unfold replaceAll.
    rewrite (replaceScan_no_lt _ _ _ _ (plain_no_lt _ Ha)).
    f_equal.
    pose proof (@brTag_hits (rev a ++ []) t sp slash b Ht Hsp Hslash) as Hm.
    remember (t ++ sp ++ slash ++ js ">") as v eqn:Ev.
    assert (Ev' : js "<" ++ t ++ sp ++ slash ++ js ">" ++ b
                  = ch "<" :: v ++ b)
      by (subst v; rewrite <- !app_assoc; reflexivity).
    rewrite Ev'. rewrite Ev' in Hm.
    rewrite (@replaceScan_hit _ _ _ _ _ _ (length v) Hm).
    - f_equal. rewrite replaceScan_skip.
      rewrite <- (app_nil_r b) at 1.
      rewrite (replaceScan_no_lt _ _ _ _ (plain_no_lt _ Hb)).
      rewrite replaceScan_end, app_nil_r; [reflexivity|].
      apply brTag_needs_lt. exact I.
    - rewrite (@consumed_passes _ _ (ch "<" :: v)); reflexivity. }
  transitivity (normalize (a ++ [newline] ++ b)).
  - unfold normalize. rewrite E1.
    rewrite (@replaceAll_absent brTag [newline] containsTag
               (a ++ [newline] ++ b)); [reflexivity| | |].
    + intros x y. apply brTag_shape.
    + intros. apply containsTag_app_l. assumption.
    + apply plain_no_tag, Hplain.
  - apply normalize_plain; [apply plain_no_tag, Hplain|].
    intros e He. apply plain_no_entity; assumption.
Qed.

Lemma line_break_becomes_newline_witness :
  normalize (js "first line" ++ js "<" ++ js "BR" ++ js " " ++ js "/"
             ++ js ">" ++ js "second line")
  = js "first line" ++ [newline] ++ js "second line".
Proof.
  rewrite (@line_break_becomes_newline (js "first line") (js "second line")
             (js "BR") (js " ") (js "/"));
    [reflexivity|reflexivity|reflexivity| |reflexivity|right; reflexivity].
  constructor; [right; reflexivity|].
  constructor; [right; reflexivity|constructor].
Defined.

End NormalisationProperties.

(* ================================================================== *)
(** * Further properties of the assembled pages *)
(* ================================================================== *)
Section PageProperties.

Lemma fold_addSocialLink_inl e : forall labels,
  fold_left addSocialLink labels (inl e) = inl e.
Proof. induction labels as [|el rest IH]; [reflexivity|exact IH]. Qed.

Lemma fold_addSocialLink_outcome : forall labels acc,
  match fold_left addSocialLink labels (inr acc) with
  | inl e =>
      e = undefinedIncludes
      /\ exists el, In el labels /\ social_href el = None
  | inr _ => forall el, In el labels -> social_href el <> None
  end.
Proof.
  induction labels as [|el rest IH]; intros acc.
  - cbn. intros el [].
  - cbn [fold_left]. unfold addSocialLink at 2.
    destruct (social_href el) as [href|] eqn:Eh.
    + match goal with
      | |- context [fold_left addSocialLink rest (inr ?a)] =>
          specialize (IH a); destruct (fold_left addSocialLink rest (inr a))
      end.
      * destruct IH as (-> & el' & Hin & Hn). split; [reflexivity|].
        exists el'. split; [right; exact Hin|exact Hn].
      * intros el' [<-|Hin]; [congruence|auto].
    + rewrite fold_addSocialLink_inl. split; [reflexivity|].
      exists el. split; [left; reflexivity|exact Eh].
Qed.

(** Assembling a profile fails exactly when a social label has no
    [href], and then with the TypeError of [href.includes]. *)
Theorem profile_fails_iff_label_without_href base doc url :
  match parseUserInfoPage base doc url with
  | inl e =>
      e = undefinedIncludes
      /\ exists el, In el (social_labels doc) /\ social_href el = None
  | inr _ => forall el, In el (social_labels doc) -> social_href el <> None
  end.
Proof.
  unfold parseUserInfoPage.
  pose proof (fold_addSocialLink_outcome (social_labels doc) noLinks) as H.
  destruct (fold_left addSocialLink (social_labels doc) (inr noLinks));
    exact H.
Qed.

Lemma last_cons_default (A : Type) : forall (l : list A) x d,
  last (x :: l) d = last l x.
Proof.
  induction l as [|a l IH]; intros x d; [reflexivity|].
  change (last (x :: a :: l) d) with (last (a :: l) d).
  rewrite (IH a d), (IH a x). reflexivity.
Qed.

Lemma addSocialLink_website acc el href :
  social_href el = Some href ->
  exists acc',
    addSocialLink (inr acc) el = inr acc'
    /\ website acc'
       = if isWebsiteHref href then Some (href, trim (social_text el))
         else website acc.
Proof.
  intros Eh. unfold addSocialLink, isWebsiteHref. rewrite Eh.
  eexists. split; [reflexivity|].
  destruct (includes (js "twitter.com") href); [reflexivity|].
  destruct (includes (js "x.com") href); [reflexivity|].
  destruct (includes (js "github.com") href); [reflexivity|].
  destruct (includes (js "telegram.me") href); [reflexivity|].
  destruct (includes (js "google.com/maps") href); [reflexivity|].
  destruct (truthy href); [|reflexivity].
  destruct (startsWith (js "http") href); reflexivity.
Qed.

Lemma fold_addSocialLink_website : forall labels acc links,
  fold_left addSocialLink labels (inr acc) = inr links ->
  website links
  = last (map Some (flat_map websiteEntry labels)) (website acc).
Proof.
  induction labels as [|el rest IH]; intros acc links H.
  - cbn in H. injection H as <-. reflexivity.
  - cbn [fold_left] in H.
    destruct (social_href el) as [href|] eqn:Eh.
    + destruct (addSocialLink_website acc el Eh) as (acc' & Hstep & Hweb).
      rewrite Hstep in H. apply IH in H. rewrite H, Hweb.
      cbn [flat_map]. unfold websiteEntry at 2. rewrite Eh.
      destruct (isWebsiteHref href); [|reflexivity].
      cbn [app map]. rewrite last_cons_default. reflexivity.
    + unfold addSocialLink at 2 in H. rewrite Eh in H.
      rewrite fold_addSocialLink_inl in H. discriminate.
Qed.

(** The [website] entry of a profile is that of the last social label
    whose [href] names none of the known hosts, is not empty and does not
    start with the four letters [http] in lower case; there is none when
    no label is such.  The test is on those letters only: a link such as
    [ftp://example.org] or [HTTPS://example.org] is recorded, while
    [https://example.org] is not. *)
Theorem website_is_last_other_label base doc url u :
  parseUserInfoPage base doc url = inr u ->
  website (ui_socialLinks u)
  = last (map Some (flat_map websiteEntry (social_labels doc))) None.
Proof.
  unfold parseUserInfoPage. intros H.
  destruct (fold_left addSocialLink (social_labels doc) (inr noLinks))
    as [e|links] eqn:E; [discriminate|].
  injection H as <-. cbn [ui_socialLinks].
  exact (fold_addSocialLink_website _ _ E).
Qed.

Lemma website_is_last_other_label_witness :
  match parseUserInfoPage (js "https://v2ex.com") socialProfile
                          (js "https://v2ex.com/member/alice") with
  | inr u =>
      website (ui_socialLinks u)
      = last (map Some (flat_map websiteEntry (social_labels socialProfile)))
             None
      /\ website (ui_socialLinks u) = Some (js "ftp://example.org", js "files")
  | inl _ => False
  end.
Proof.
  destruct (parseUserInfoPage (js "https://v2ex.com") socialProfile
                              (js "https://v2ex.com/member/alice"))
    as [e|u] eqn:E; [vm_compute in E; discriminate|].
  pose proof (@website_is_last_other_label _ _ _ _ E) as Hw.
  split; [exact Hw|]. rewrite Hw. vm_compute. reflexivity.
Defined.

Lemma isWebsiteHref_samples :
  isWebsiteHref (js "/go/blog") = true
  /\ isWebsiteHref (js "ftp://example.org") = true
  /\ isWebsiteHref (js "HTTPS://example.org") = true
  /\ isWebsiteHref (js "//example.org") = true
  /\ isWebsiteHref (js "https://example.org") = false
  /\ isWebsiteHref (js "/go/x.com") = false
  /\ isWebsiteHref [] = false.
Proof. repeat split; vm_compute; reflexivity. Qed.

Lemma topicId_digits link t :
  firstGroup topicIdPattern link = Some t ->
  t <> [] /\ forallb isDigit t = true
  /\ includes (js "/t/" ++ t) link = true.
Proof.
  unfold firstGroup, matchFirst.
  destruct (search topicIdPattern [] link) as [[x y]|] eqn:E; [|discriminate].
  intros H. inversion H; subst t. clear H.
  apply search_sound in E as (HM & Hc & skipped & Es & _).
  unfold topicIdPattern in HM.
  apply Matches_seq in HM as (y1 & H1 & H2).
  apply Matches_lit in H1 as (E1 & _).
  apply Matches_group in H2 as (y4 & H3 & ->).
  unfold plus in H3.
  apply Matches_rep_chr in H3 as (w & Hlo & _ & Hw & Ea & _).
  unfold group, result_of. cbn [groups caps lookup Nat.eqb].
  rewrite (consumed_passes y1 y4 w Ea).
  split; [destruct w; [cbn in Hlo; lia|discriminate]|].
  split; [exact Hw|].
  rewrite Es, E1, Ea. apply includes_app_l.
  rewrite app_assoc. apply includes_here.
Qed.

(** Every recent reply of a profile comes from one of its reply entries:
    its text is the normalised text of the entry and is not empty; its
    topic id is the first run of digits that follows [/t/] in the link of
    that entry, and its topic URL the base URL followed by [/t/] and that
    id; when the entry has no such link the topic URL is empty. *)
Theorem recent_replies_wellformed base doc url u rr :
  parseUserInfoPage base doc url = inr u ->
  In rr (ui_recentReplies u) ->
  exists el html,
    In el (dock_areas doc)
    /\ dock_reply_html el = Some html
    /\ rr_content rr = normalize html
    /\ truthy (rr_content rr) = true
    /\ match dock_topic_href el with
       | Some link =>
           if truthy link then
             rr_topicId rr = firstGroup topicIdPattern link
             /\ match firstGroup topicIdPattern link with
                | Some t =>
                    t <> [] /\ forallb isDigit t = true
                    /\ includes (js "/t/" ++ t) link = true
                    /\ rr_topicUrl rr = base ++ js "/t/" ++ t
                | None => rr_topicUrl rr = []
                end
           else rr_topicId rr = Some [] /\ rr_topicUrl rr = []
       | None => rr_topicId rr = Some [] /\ rr_topicUrl rr = []
       end.
Proof.
  unfold parseUserInfoPage. intros H Hin.
  destruct (fold_left addSocialLink (social_labels doc) (inr noLinks));
    [discriminate|].
  injection H as <-. cbn [ui_recentReplies] in Hin.
  apply in_flat_map in Hin as (el & Hel & Hin).
  unfold recentReply in Hin.
  destruct (dock_reply_html el) as [html|] eqn:Eh; [|destruct Hin].
  destruct (truthy (normalize html)) eqn:Et; [|destruct Hin].
  destruct Hin as [<-|[]]. cbn [rr_content rr_topicUrl rr_topicId].
  exists el, html.
  split; [exact Hel|]. split; [exact Eh|]. split; [reflexivity|].
  split; [exact Et|].
  destruct (dock_topic_href el) as [link|]; [|split; reflexivity].
  destruct (truthy link); [|split; reflexivity].
  split; [reflexivity|].
  destruct (firstGroup topicIdPattern link) as [t|] eqn:Eg; [|reflexivity].
  apply topicId_digits in Eg as (Hne & Hd & Hi).
  destruct t; [congruence|]. auto.
Qed.

Lemma recent_replies_wellformed_witness :
  match parseUserInfoPage (js "https://v2ex.com") socialProfile
                          (js "https://v2ex.com/member/alice") with
  | inr u =>
      match ui_recentReplies u with
      | rr :: _ =>
          rr_topicId rr = Some (js "123")
          /\ rr_topicUrl rr = js "https://v2ex.com/t/123"
          /\ exists el html,
               In el (dock_areas socialProfile)
               /\ dock_reply_html el = Some html
               /\ rr_content rr = normalize html
               /\ truthy (rr_content rr) = true
               /\ match dock_topic_href el with
                  | Some link =>
                      if truthy link then
                        rr_topicId rr = firstGroup topicIdPattern link
                        /\ match firstGroup topicIdPattern link with
                           | Some t =>
                               t <> [] /\ forallb isDigit t = true
                               /\ includes (js "/t/" ++ t) link = true
                               /\ rr_topicUrl rr
                                  = js "https://v2ex.com" ++ js "/t/" ++ t
                           | None => rr_topicUrl rr = []
                           end
                      else rr_topicId rr = Some [] /\ rr_topicUrl rr = []
                  | None => rr_topicId rr = Some [] /\ rr_topicUrl rr = []
                  end
      | [] => False
      end
  | inl _ => False
  end.
Proof.
  destruct (parseUserInfoPage (js "https://v2ex.com") socialProfile
                              (js "https://v2ex.com/member/alice"))
    as [e|u] eqn:E; [vm_compute in E; discriminate|].
  destruct (ui_recentReplies u) as [|rr l] eqn:El.
  - pose proof E as E'. vm_compute in E'. injection E' as <-. discriminate.
  - assert (Hrr : rr_topicId rr = Some (js "123")
                  /\ rr_topicUrl rr = js "https://v2ex.com/t/123").
    { pose proof E as E'. vm_compute in E'. injection E' as <-.
      injection El as <- _. split; reflexivity. }
    destruct Hrr as [Hid Hurl]. split; [exact Hid|]. split; [exact Hurl|].
    apply (@recent_replies_wellformed _ _ _ _ rr E).
    rewrite El. left. reflexivity.
Defined.


Lemma replyImage_src : forall imgs i,
  In i (flat_map replyImage imgs) -> truthy (image_src i) = true.
Proof.
  intros imgs i H. apply in_flat_map in H as (img & _ & H).
  unfold replyImage in H.
  destruct (img_src img) as [src|]; [|destruct H].
  destruct (truthy src) eqn:E; [|destruct H].
  destruct H as [<-|[]]. exact E.
Qed.

Lemma addresses_of_text t :
  solanaAddresses (extractSolanaAddressesFromText t)
  = extractSolanaAddressesWithBoundary t
  /\ solanaDomains (extractSolanaAddressesFromText t)
     = extractSolanaDomainsFromText t.
Proof. destruct t; split; reflexivity. Qed.

Lemma parseReplyCell_invariant el r :
  In r (parseReplyCell el) ->
  (truthy (reply_content r) = true \/ reply_images r <> [])
  /\ (forall i, In i (reply_images r) -> truthy (image_src i) = true)
  /\ reply_solanaAddresses r
     = extractSolanaAddressesWithBoundary (reply_content r)
  /\ reply_solanaDomains r = extractSolanaDomainsFromText (reply_content r).
Proof.
  unfold parseReplyCell.
  destruct (cell_content el) as [[html imgs]|].
  - destruct (truthy (normalize html)
              || (0 <? length (flat_map replyImage imgs))) eqn:E;
      [|intros []].
    intros [<-|[]].
    cbn [reply_content reply_images reply_solanaAddresses
         reply_solanaDomains].
    split; [|split; [apply replyImage_src|apply addresses_of_text]].
    apply orb_true_iff in E as [E|E]; [left; exact E|right].
    apply Nat.ltb_lt in E. intros Hn. rewrite Hn in E. cbn in E. lia.
  - cbn [truthy length Nat.ltb Nat.leb orb]. intros [].
Qed.

(** Every reply of a thread page has a text or at least one image; each
    of its images has a source; its addresses and domains are those
    extracted from its normalised text. *)
Theorem page_replies_invariant doc r :
  In r (pageReplies doc) ->
  (truthy (reply_content r) = true \/ reply_images r <> [])
  /\ (forall i, In i (reply_images r) -> truthy (image_src i) = true)
  /\ reply_solanaAddresses r
     = extractSolanaAddressesWithBoundary (reply_content r)
  /\ reply_solanaDomains r = extractSolanaDomainsFromText (reply_content r).
Proof.
  intros H. apply in_flat_map in H as (el & _ & H).
  exact (parseReplyCell_invariant _ _ H).
Qed.

Lemma page_replies_invariant_witness :
  match pageReplies (samplePage [js "101"]) with
  | r :: _ =>
      (truthy (reply_content r) = true \/ reply_images r <> [])
      /\ (forall i, In i (reply_images r) -> truthy (image_src i) = true)
      /\ reply_solanaAddresses r
         = extractSolanaAddressesWithBoundary (reply_content r)
      /\ reply_solanaDomains r
         = extractSolanaDomainsFromText (reply_content r)
  | [] => False
  end.
Proof.
  destruct (pageReplies (samplePage [js "101"])) as [|r l] eqn:E;
    [vm_compute in E; discriminate|].
  apply (@page_replies_invariant (samplePage [js "101"]) r).
  rewrite E. left. reflexivity.
Defined.

End PageProperties.

(* ================================================================== *)
(** * Further properties of multi-page threads *)
(* ================================================================== *)
Section MultiPageProperties.

Lemma map_filter_ext_in (A B : Type) (f g : A -> B) (p q : A -> bool) :
  forall l,
    (forall x, In x l -> p x = q x /\ f x = g x) ->
    map f (filter p l) = map g (filter q l).
Proof.
  induction l as [|x l IH]; intros H; [reflexivity|].
  cbn [filter]. destruct (H x (or_introl eq_refl)) as [<- Hf].
  assert (Hl : map f (filter p l) = map g (filter q l))
    by (apply IH; intros y Hy; apply H; right; exact Hy).
  destruct (p x); cbn [map]; congruence.
Qed.

Lemma fetchPage_waits url total page allReplies w :
  waits (snd (fetchPage url total page allReplies w))
  = waits w
    ++ (if fetched (net w (requests w) (url ++ js "?p=" ++ showNat page))
           && ltNumber page total
        then [(S (requests w), 1000%Z)] else []).
Proof.
  unfold fetchPage, tryCatch, bind, axiosGet.
  destruct (net w (requests w) (url ++ js "?p=" ++ showNat page))
    as [e|doc]; cbn [fetched andb].
  - cbn. rewrite app_nil_r. reflexivity.
  - destruct (ltNumber page total); cbn; rewrite ?app_nil_r; reflexivity.
Qed.

(** The waits of the loop over the pages [a .. a + len - 1]: one right
    after the request of each page that was fetched and is below the
    total. *)
Lemma fetchOtherPages_waits url total : forall len a allReplies w,
  waits (snd (fetchOtherPages url total (seq a len) allReplies w))
  = waits w
    ++ map (fun page => (requests w + (page - a) + 1, 1000%Z))
         (filter
            (fun page =>
               fetched (net w (requests w + (page - a))
                          (url ++ js "?p=" ++ showNat page))
               && ltNumber page total)
            (seq a len)).
Proof.
  induction len as [|len IH]; intros a allReplies w.
  - cbn. rewrite app_nil_r. reflexivity.
  - cbn [seq fetchOtherPages]. unfold bind.
    pose proof (fetchPage_waits url total a allReplies w) as Hw.
    destruct (fetchPage_returns url total a allReplies w)
      as (acc & w1 & Hrun & Hn & _ & Hq & _).
    rewrite Hrun in Hw |- *. cbn [snd] in Hw.
    rewrite IH, Hw, Hn, Hq, <- app_assoc. f_equal.
    cbn [filter]. rewrite Nat.sub_diag, Nat.add_0_r.
    rewrite (@map_filter_ext_in _ _
               (fun page => (S (requests w) + (page - S a) + 1, 1000%Z))
               (fun page => (requests w + (page - a) + 1, 1000%Z))
               (fun page =>
                  fetched (net w (S (requests w) + (page - S a))
                             (url ++ js "?p=" ++ showNat page))
                  && ltNumber page total)
               (fun page =>
                  fetched (net w (requests w + (page - a))
                             (url ++ js "?p=" ++ showNat page))
                  && ltNumber page total)).
    + destruct (fetched (net w (requests w) (url ++ js "?p=" ++ showNat a))
                && ltNumber a total); cbn [map app]; [|reflexivity].
      replace (requests w + (a - a) + 1) with (S (requests w)) by lia.
      reflexivity.
    + intros page Hp. apply in_seq in Hp.
      replace (S (requests w) + (page - S a)) with (requests w + (page - a))
        by lia.
      split; reflexivity.
Qed.

Lemma single_page_no_other_pages doc :
  hasMultiplePages (detectPagination doc)
  && ltNumber 1 (totalPages (detectPagination doc)) = false ->
  otherPages (totalPages (detectPagination doc)) = [].
Proof.
  intros H. apply andb_false_iff in H as [H|H].
  - unfold detectPagination in *.
    destruct (page_links doc); [reflexivity|discriminate].
  - destruct (totalPages (detectPagination doc)) as [|z|b]; try reflexivity.
    cbn [ltNumber] in H. apply Z.ltb_ge in H. cbn [otherPages].
    replace (Z.to_nat z - 1) with 0 by lia. reflexivity.
Qed.

Lemma parseMultiPagePost_first_failed postId' w e :
  net w (requests w) (baseUrl w ++ js "/t/" ++ postId') = inl e ->
  parseMultiPagePost postId' w = (inl (multiPageFailedPrefix ++ e), tick w).
Proof.
  intros H.
  unfold parseMultiPagePost, getBaseUrl, tryCatch, bind, axiosGet, throw.
  rewrite H. reflexivity.
Qed.

(** What a multi-page fetch returns and does once the first page has
    been fetched, when the loop over the other pages ends. *)
Lemma parseMultiPagePost_shape postId' w first :
  net w (requests w) (baseUrl w ++ js "/t/" ++ postId') = inr first ->
  pagesEnd (totalPages (detectPagination first)) = true ->
  exists post w' extra,
    parseMultiPagePost postId' w = (inr post, w')
    /\ replies post = pageReplies first ++ extra
    /\ extra
       = (if hasMultiplePages (detectPagination first)
             && ltNumber 1 (totalPages (detectPagination first))
          then gather (net w) (baseUrl w ++ js "/t/" ++ postId')
                      (S (requests w))
                      (otherPages (totalPages (detectPagination first)))
          else [])
    /\ replyUserIds post
       = uniq (reply_user_ids first
               ++ filter truthy
                    (map (fun r => author_id (reply_author r)) (replies post)))
    /\ replyCount (statistics post) = length (replies post)
    /\ totalFloors (statistics post) = length (replies post) + 1
    /\ stat_totalPages (statistics post)
       = Some (totalPages (detectPagination first))
    /\ pagination post = Some (detectPagination first)
    /\ requests w'
       = S (requests w)
         + (if hasMultiplePages (detectPagination first)
               && ltNumber 1 (totalPages (detectPagination first))
            then length (otherPages (totalPages (detectPagination first)))
            else 0)
    /\ waits w'
       = waits w
         ++ pagePauses (net w) (baseUrl w ++ js "/t/" ++ postId')
              (totalPages (detectPagination first)) (requests w).
Proof.
  intros Hfirst Hend.
  destruct (parseMultiPagePost_ends postId' w Hfirst Hend)
    as (extra & w' & post & Hloop & Hrun & Hrep & Hids & Hc & Hf & Hst & Hp).
  exists post, w', extra. split; [exact Hrun|]. split; [exact Hrep|].
  destruct (hasMultiplePages (detectPagination first)
            && ltNumber 1 (totalPages (detectPagination first))) eqn:Hmulti.
  - destruct (fetchOtherPages_gathers (baseUrl w ++ js "/t/" ++ postId')
                (totalPages (detectPagination first))
                (otherPages (totalPages (detectPagination first))) []
                (tick w))
      as (w'' & Hr & _ & _ & Hq & _).
    rewrite Hloop in Hr. injection Hr as -> <-.
    assert (Hw : waits w'
                 = waits w
                   ++ pagePauses (net w) (baseUrl w ++ js "/t/" ++ postId')
                        (totalPages (detectPagination first)) (requests w)).
    { apply andb_true_iff in Hmulti as [_ Hlt].
      destruct (totalPages (detectPagination first)) as [|z|[|]] eqn:Et;
        try discriminate.
      pose proof (@fetchOtherPages_waits
                    (baseUrl w ++ js "/t/" ++ postId') (Num z)
                    (Z.to_nat z - 1) 2 [] (tick w)) as Hw.
      change (seq 2 (Z.to_nat z - 1)) with (otherPages (Num z)) in Hw.
      rewrite Hloop in Hw. cbn [snd tick waits requests net] in Hw.
      rewrite Hw. unfold pagePauses. f_equal.
      apply map_filter_ext_in. intros page Hpage.
      apply in_seq in Hpage.
      replace (S (requests w) + (page - 2)) with (requests w + page - 1)
        by lia.
      split; [reflexivity|]. f_equal. lia. }
    cbn [app tick requests] in Hq. auto 10.
  - cbn [ret] in Hloop. injection Hloop as <- <-.
    unfold pagePauses.
    rewrite (single_page_no_other_pages _ Hmulti). cbn.
    rewrite app_nil_r, Nat.add_0_r. auto 10.
Qed.

(** A multi-page fetch fails when the first page cannot be fetched, with
    the transport error under the multi-page prefix.  When the first page
    is fetched and [totalPages] is below [2^53], it returns, having issued
    one request for the first page and one for each page from 2 to
    [totalPages], whether or not those succeeded.  From [2^53] on, and for
    an infinite [totalPages], the page counter never passes [totalPages]:
    the loop over the pages is still running after any number of
    iterations, and the fetch does not return. *)
Theorem multi_page_requests_and_errors postId' w :
  match net w (requests w) (baseUrl w ++ js "/t/" ++ postId') with
  | inl e =>
      parseMultiPagePost postId' w
      = (inl (multiPageFailedPrefix ++ e), tick w)
  | inr first =>
      if pagesEnd (totalPages (detectPagination first)) then
        exists post w',
          parseMultiPagePost postId' w = (inr post, w')
          /\ pagination post = Some (detectPagination first)
          /\ requests w'
             = S (requests w)
               + (if hasMultiplePages (detectPagination first)
                     && ltNumber 1 (totalPages (detectPagination first))
                  then length
                         (otherPages (totalPages (detectPagination first)))
                  else 0)
      else
        hasMultiplePages (detectPagination first)
        && ltNumber 1 (totalPages (detectPagination first)) = true
        /\ (forall fuel allReplies w1,
              fst (pageLoop fuel (baseUrl w ++ js "/t/" ++ postId')
                     (totalPages (detectPagination first)) 2 allReplies w1)
              = inr None)
        /\ fst (parseMultiPagePost postId' w) = inl pagesOutOfFuel
  end.
Proof.
  destruct (net w (requests w) (baseUrl w ++ js "/t/" ++ postId'))
    as [e|first] eqn:E.
  - apply parseMultiPagePost_first_failed, E.
  - destruct (pagesEnd (totalPages (detectPagination first))) eqn:Hend.
    + destruct (parseMultiPagePost_shape postId' w E Hend)
        as (post & w' & extra & Hrun & _ & _ & _ & _ & _ & _ & Hp & Hq & _).
      exists post, w'. auto.
    + split; [|split].
      * destruct (hasMultiplePages (detectPagination first)
                  && ltNumber 1 (totalPages (detectPagination first)))
          eqn:Hmulti; [reflexivity|].
        apply andb_false_iff in Hmulti as [H|H].
        -- unfold detectPagination in *.
           destruct (page_links first); [discriminate Hend|discriminate H].
        -- rewrite (not_multi_pagesEnd _ H) in Hend. discriminate.
      * intros fuel allReplies w1.
        apply pageLoop_still_running; [exact Hend|lia].
      * apply parseMultiPagePost_still_running with first; assumption.
Qed.

Lemma multi_page_requests_and_errors_witness :
  totalPages (detectPagination pageWithHugeLink) = Num (2 ^ 53)
  /\ (forall fuel allReplies w1,
        fst (pageLoop fuel (js "https://v2ex.com/t/1") (Num (2 ^ 53)) 2
               allReplies w1) = inr None)
  /\ fst (parseMultiPagePost (js "1")
            (worldOf (fun _ _ => inr pageWithHugeLink)))
     = inl pagesOutOfFuel.
Proof.
  assert (Htotal : totalPages (detectPagination pageWithHugeLink)
                   = Num (2 ^ 53)) by (vm_compute; reflexivity).
  split; [exact Htotal|].
  pose proof (multi_page_requests_and_errors (js "1")
                (worldOf (fun _ _ => inr pageWithHugeLink))) as H.
  cbn [worldOf net requests baseUrl] in H.
  rewrite Htotal in H.
  change (pagesEnd (Num (2 ^ 53))) with false in H.
  destruct H as (_ & Hloop & Hrun). split; [exact Hloop|exact Hrun].
Defined.

(** The waits of a multi-page fetch that returns are exactly these: 1000
    ms right after the request of each page from 2 on that was fetched and
    is not the last, in the order of the pages.  So there is no wait
    after the first page, none after a page that could not be fetched and
    none after page [totalPages]; when every page is fetched there is one
    wait between each two successive pages from 2 on.  When the first page
    cannot be fetched there is no wait at all. *)
Theorem multi_page_pacing postId' w :
  match net w (requests w) (baseUrl w ++ js "/t/" ++ postId') with
  | inl _ => waits (snd (parseMultiPagePost postId' w)) = waits w
  | inr first =>
      pagesEnd (totalPages (detectPagination first)) = true ->
      waits (snd (parseMultiPagePost postId' w))
      = waits w
        ++ pagePauses (net w) (baseUrl w ++ js "/t/" ++ postId')
             (totalPages (detectPagination first)) (requests w)
  end.
Proof.
  destruct (net w (requests w) (baseUrl w ++ js "/t/" ++ postId'))
    as [e|first] eqn:E.
  - rewrite (parseMultiPagePost_first_failed _ _ E). reflexivity.
  - intros Hend.
    destruct (parseMultiPagePost_shape postId' w E Hend)
      as (post & w' & extra & Hrun & _ & _ & _ & _ & _ & _ & _ & _ & Hw).
    rewrite Hrun. exact Hw.
Qed.

Lemma multi_page_pacing_witness :
  waits (snd (parseMultiPagePost (js "1") (worldOf sampleThread)))
  = [] ++ pagePauses sampleThread (js "https://v2ex.com/t/1") (Num 3) 0
  /\ pagePauses sampleThread (js "https://v2ex.com/t/1") (Num 3) 0
     = [(2, 1000%Z)].
Proof.
  split; [|vm_compute; reflexivity].
  pose proof (multi_page_pacing (js "1") (worldOf sampleThread)) as H.
  cbn [worldOf net requests baseUrl waits] in H.
  change (sampleThread 0 (js "https://v2ex.com" ++ js "/t/" ++ js "1"))
    with (@inr Exn Document
            (samplePage [js "101"; js "102"; js "103"; js "104"; js "105"]))
    in H.
  cbv beta iota in H.
  change (totalPages
            (detectPagination
               (samplePage [js "101"; js "102"; js "103"; js "104";
                            js "105"])))
    with (Num 3) in H.
  exact (H eq_refl).
Defined.

Lemma gather_in transport url r : forall pages n,
  In r (gather transport url n pages) -> exists doc, In r (pageReplies doc).
Proof.
  induction pages as [|page rest IH]; intros n H; [destruct H|].
  cbn [gather] in H. apply in_app_or in H as [H|H]; [|eauto].
  destruct (transport n (url ++ js "?p=" ++ showNat page)) as [e|doc];
    [destruct H|eauto].
Qed.

(** In the result of a multi-page fetch the reply user ids are pairwise
    distinct and hold the id of every reply author that has one; every
    merged reply has a text or an image; the counters are those of the
    merged list. *)
Theorem merged_replies_and_reply_user_ids postId' w post w' :
  parseMultiPagePost postId' w = (inr post, w') ->
  NoDup (replyUserIds post)
  /\ (forall r, In r (replies post) ->
        (truthy (reply_content r) = true \/ reply_images r <> [])
        /\ (truthy (author_id (reply_author r)) = true ->
            In (author_id (reply_author r)) (replyUserIds post)))
  /\ replyCount (statistics post) = length (replies post)
  /\ totalFloors (statistics post) = length (replies post) + 1.
Proof.
  intros Hrun.
  destruct (net w (requests w) (baseUrl w ++ js "/t/" ++ postId'))
    as [e|first] eqn:E.
  { rewrite (parseMultiPagePost_first_failed _ _ E) in Hrun. discriminate. }
  destruct (pagesEnd (totalPages (detectPagination first))) eqn:Hend.
  2: { pose proof (@parseMultiPagePost_still_running postId' w first E Hend)
         as Hstill.
       rewrite Hrun in Hstill. discriminate. }
  destruct (parseMultiPagePost_shape postId' w E Hend)
    as (post' & w'' & extra & Hrun' & Hrep & Hextra & Hids & Hc & Hf & _).
  rewrite Hrun in Hrun'. injection Hrun' as <- <-.
  split; [rewrite Hids; apply NoDup_uniqFrom|].
  split; [|auto].
  intros r Hr. split.
  - rewrite Hrep in Hr. apply in_app_or in Hr as [Hr|Hr].
    + apply in_flat_map in Hr as (cell & _ & Hr).
      exact (proj1 (parseReplyCell_invariant _ _ Hr)).
    + rewrite Hextra in Hr.
      destruct (hasMultiplePages (detectPagination first)
                && ltNumber 1 (totalPages (detectPagination first)));
        [|destruct Hr].
      apply gather_in in Hr as (doc & Hr).
      apply in_flat_map in Hr as (cell & _ & Hr).
      exact (proj1 (parseReplyCell_invariant _ _ Hr)).
  - intros Hid. rewrite Hids. apply in_uniqFrom_inv; [|reflexivity].
    apply in_or_app. right. apply filter_In. split; [|exact Hid].
    apply in_map_iff. exists r. auto.
Qed.

Lemma merged_replies_and_reply_user_ids_witness :
  match fst (parseMultiPagePost (js "1") (worldOf sampleThread)) with
  | inr post =>
      NoDup (replyUserIds post)
      /\ (forall r, In r (replies post) ->
            (truthy (reply_content r) = true \/ reply_images r <> [])
            /\ (truthy (author_id (reply_author r)) = true ->
                In (author_id (reply_author r)) (replyUserIds post)))
      /\ replyCount (statistics post) = length (replies post)
      /\ totalFloors (statistics post) = length (replies post) + 1
  | inl _ => False
  end.
Proof.
  destruct (parseMultiPagePost (js "1") (worldOf sampleThread))
    as [[e|post] w'] eqn:E; [vm_compute in E; discriminate|].
  exact (@merged_replies_and_reply_user_ids _ _ _ _ E).
Defined.

Lemma maxNumber_NaN : forall xs, fold_left maxNumber xs NaN = NaN.
Proof. induction xs as [|x xs IH]; [reflexivity|exact IH]. Qed.

Lemma mathMax_NaN : forall xs x, In NaN (x :: xs) -> mathMax x xs = NaN.
Proof.
  unfold mathMax.
  induction xs as [|y xs IH]; intros x [->|H].
  - reflexivity.
  - destruct H.
  - apply maxNumber_NaN.
  - cbn [fold_left]. destruct H as [->|H].
    + destruct x as [|z|[|]]; apply maxNumber_NaN.
    + apply IH. right. exact H.
Qed.

(** One page link whose text is not a number makes [totalPages] NaN;
    the loop over the other pages then never runs, and the result holds
    the replies of the first page only. *)
Theorem non_numeric_page_link_stops_merge postId' w first el href :
  net w (requests w) (baseUrl w ++ js "/t/" ++ postId') = inr first ->
  In el (page_links first) ->
  link_href el = Some href -> truthy href = true ->
  truthy (trim (link_text el)) = true ->
  parseInt (trim (link_text el)) = NaN ->
  exists post w',
    parseMultiPagePost postId' w = (inr post, w')
    /\ stat_totalPages (statistics post) = Some NaN
    /\ replies post = pageReplies first
    /\ requests w' = S (requests w).
Proof.
  intros Hfirst Hel Hhref Hth Htt Hnan.
  assert (Htotal : totalPages (detectPagination first) = NaN).
  { unfold detectPagination.
    destruct (page_links first) as [|l0 ls] eqn:El; [destruct Hel|].
    cbn [totalPages].
    assert (Hin : In NaN (map fst (flat_map pageUrlOf (l0 :: ls)))).
    { apply in_map_iff.
      exists (NaN, if startsWith (js "?") href then href else js "?" ++ href).
      split; [reflexivity|].
      apply in_flat_map. exists el. split; [exact Hel|].
      unfold pageUrlOf. rewrite Hhref, Hth, Htt, Hnan. left. reflexivity. }
    destruct (map fst (flat_map pageUrlOf (l0 :: ls))) as [|p ps];
      [destruct Hin|].
    apply mathMax_NaN, Hin. }
  assert (Hend : pagesEnd (totalPages (detectPagination first)) = true)
    by (rewrite Htotal; reflexivity).
  destruct (parseMultiPagePost_shape postId' w Hfirst Hend)
    as (post & w' & extra & Hrun & Hrep & Hextra & _ & _ & _ & Hst & _
        & Hq & _).
  rewrite Htotal in *. cbn [ltNumber] in *. rewrite andb_false_r in *.
  exists post, w'. rewrite Hrep, Hextra, app_nil_r, Hq.
  repeat split; auto.
Qed.

Lemma non_numeric_page_link_stops_merge_witness :
  exists post w',
    parseMultiPagePost (js "1") (worldOf nextLinkThread) = (inr post, w')
    /\ stat_totalPages (statistics post) = Some NaN
    /\ replies post = pageReplies pageWithNextLink
    /\ requests w' = 1.
Proof.
  apply (@non_numeric_page_link_stops_merge (js "1") (worldOf nextLinkThread)
           pageWithNextLink
           {| link_href := Some (js "?p=2"); link_text := js "next" |}
           (js "?p=2")); try reflexivity.
  cbn. auto 6.
Defined.

End MultiPageProperties.

(* ================================================================== *)
(** * Batches by URL *)
(* ================================================================== *)
Section UrlBatchProperties.

Lemma parseV2exPage_run url w :
  exists r,
    parseV2exPage url w = (r, tick w)
    /\ match r with
       | inl e => exists e', e = parseFailedPrefix ++ e'
       | inr (UserInfoPage _) => includes (js "/member/") url = true
       | inr (PostPage _) =>
           includes (js "/member/") url = false
           /\ includes (js "/t/") url = true
       end.
Proof.
  unfold parseV2exPage, tryCatch, bind, axiosGet, getBaseUrl, lift, ret,
    throw, tick.
  destruct (net w (requests w) url) as [e|doc];
    [eexists; split; [reflexivity|cbv beta iota; eauto]|].
  destruct (includes (js "/member/") url) eqn:Em.
  - cbn [baseUrl].
    destruct (parseUserInfoPage (baseUrl w) doc url);
      eexists; (split; [reflexivity|]); cbv beta iota; eauto.
  - destruct (includes (js "/t/") url) eqn:Et;
      eexists; (split; [reflexivity|]); cbv beta iota; eauto.
Qed.

Lemma pagesLoop_run : forall urls results w,
  exists outs w',
    pagesLoop urls results w = (inr (results ++ outs), w')
    /\ Forall2 outcomeFor urls outs
    /\ requests w' = requests w + length urls
    /\ baseUrl w' = baseUrl w /\ net w' = net w
    /\ waits w' = waits w /\ progress w' = progress w.
Proof.
  induction urls as [|url rest IH]; intros results w.
  - exists [], w. cbn. rewrite app_nil_r, Nat.add_0_r. auto 7.
  - cbn [pagesLoop]. unfold bind at 1. unfold tryCatch. unfold bind at 1.
    destruct (parseV2exPage_run url w) as (r & Hrun & Hr). rewrite Hrun.
    destruct r as [e|res]; cbn [ret].
    + match goal with
      | |- context [pagesLoop rest ?acc ?w1] =>
          destruct (IH acc w1) as (outs & w' & Hrest & HF & Hq & Hb & Hn & Hw & Hp)
      end.
      rewrite Hrest, <- app_assoc.
      eexists (_ :: outs), w'. split; [reflexivity|].
      split; [|cbn in *; repeat split; auto; lia].
      constructor; [|exact HF].
      split; [reflexivity|]. cbn [uo_data uo_error uo_success]. auto.
    + match goal with
      | |- context [pagesLoop rest ?acc ?w1] =>
          destruct (IH acc w1) as (outs & w' & Hrest & HF & Hq & Hb & Hn & Hw & Hp)
      end.
      rewrite Hrest, <- app_assoc.
      eexists (_ :: outs), w'. split; [reflexivity|].
      split; [|cbn in *; repeat split; auto; lia].
      constructor; [|exact HF].
      split; [reflexivity|]. cbn [uo_data uo_error uo_success].
      destruct res; [auto|destruct Hr; auto].
Qed.



End UrlBatchProperties.

(* ================================================================== *)
(** * Further properties of user batches *)
(* ================================================================== *)
Section UserBatchProperties.

Lemma waits_tick w : waits (tick w) = waits w.
Proof. reflexivity. Qed.

Lemma waits_slept ms w : waits (slept ms w) = waits w ++ [(requests w, ms)].
Proof. reflexivity. Qed.

Lemma waits_noted o ev w : waits (noted o ev w) = waits w.
Proof. unfold noted. destruct (onProgress o); reflexivity. Qed.

Lemma progress_noted_if o ev w :
  progress (noted o ev w)
  = progress w ++ (if onProgress o then [ev] else []).
Proof.
  unfold noted. destruct (onProgress o); [reflexivity|].
  rewrite app_nil_r. reflexivity.
Qed.

Lemma attempt_shape w n url :
  match attempt w n url with
  | inl e => exists e', e = parseFailedPrefix ++ e'
  | inr r => exists u, r = UserInfoPage u
  end.
Proof.
  unfold attempt. destruct (net w n url) as [e|doc]; [eauto|].
  destruct (parseUserInfoPage (baseUrl w) doc url); eauto.
Qed.

Lemma retry_waits_shift r k :
  (S r, 2000%Z) :: map (fun j => (S r + S j, 2000%Z)) (seq 0 k)
  = map (fun j => (r + S j, 2000%Z)) (seq 0 (S k)).
Proof.
  cbn [seq map]. f_equal; [f_equal; lia|].
  rewrite <- seq_shift, map_map. apply map_ext. intros j. f_equal. lia.
Qed.

(** The retry loop entered with [retryAttempts] retries used: [k] more
    attempts fail and are retried, each followed by a wait of 2000 ms,
    and the next attempt settles the user. *)
Lemma retryLoop_settles o currentIndex totalUsers username :
  forall fuel retryAttempts results w,
    (0 <= retryAttempts <= retryCount o)%Z ->
    Z.to_nat (retryCount o - retryAttempts) + 2 <= fuel ->
    exists out w' k evs,
      retryLoop fuel o currentIndex totalUsers username retryAttempts results w
      = (inr (results ++ [out]), w')
      /\ (Z.of_nat k <= retryCount o - retryAttempts)%Z
      /\ (forall j, j < k ->
            exists e, attempt w (requests w + j)
                        (baseUrl w ++ js "/member/" ++ username) = inl e)
      /\ match attempt w (requests w + k)
                 (baseUrl w ++ js "/member/" ++ username) with
         | inr userInfo =>
             out = {| out_username := username; out_success := true;
                      out_data := Some userInfo; out_error := None;
                      out_retryAttempts := None |}
         | inl e =>
             Z.of_nat k = (retryCount o - retryAttempts)%Z
             /\ out = {| out_username := username; out_success := false;
                         out_data := None; out_error := Some e;
                         out_retryAttempts := Some (retryCount o + 1)%Z |}
         end
      /\ net w' = net w /\ baseUrl w' = baseUrl w
      /\ requests w' = requests w + S k
      /\ waits w'
         = waits w ++ map (fun j => (requests w + S j, 2000%Z)) (seq 0 k)
      /\ progress w' = progress w ++ (if onProgress o then evs else [])
      /\ (exists last, map ev_status evs = repeat retry k ++ [last]
                       /\ (last = success \/ last = error))
      /\ Forall (fun ev => ev_username ev = Some username) evs.
Proof.
  induction fuel as [|fuel IH]; intros retryAttempts results w Hr Hfuel;
    [lia|].
  rewrite retryLoop_step by lia.
  destruct (attempt w (requests w) (baseUrl w ++ js "/member/" ++ username))
    as [e|userInfo] eqn:Ea.
  - destruct (retryAttempts + 1 <=? retryCount o)%Z eqn:Hnext.
    + apply Z.leb_le in Hnext.
      set (w1 := slept 2000%Z _).
      assert (Hn1 : net w1 = net w)
        by (subst w1; rewrite net_slept, net_noted, net_tick; reflexivity).
      assert (Hb1 : baseUrl w1 = baseUrl w)
        by (subst w1; rewrite baseUrl_slept, baseUrl_noted, baseUrl_tick;
            reflexivity).
      assert (Hq1 : requests w1 = S (requests w))
        by (subst w1;
            rewrite requests_slept, requests_noted, requests_tick;
            reflexivity).
      assert (Hw1 : waits w1 = waits w ++ [(S (requests w), 2000%Z)])
        by (subst w1;
            rewrite waits_slept, requests_noted, requests_tick,
              waits_noted, waits_tick; reflexivity).
      assert (Hp1 : progress w1
                    = progress w
                      ++ (if onProgress o
                          then [ {| ev_currentIndex := currentIndex;
                                    ev_totalUsers := totalUsers;
                                    ev_username := Some username;
                                    ev_status := retry;
                                    ev_userInfo := None |} ]
                          else []))
        by (subst w1;
            rewrite progress_slept, progress_noted_if, progress_tick;
            reflexivity).
      destruct (IH (retryAttempts + 1)%Z results w1)
        as (out & w' & k & evs & Hrun & Hk & Hfail & Hlast & Hn & Hb & Hq
            & Hw & Hp & (last & Hev & Hl) & HF); [lia|lia|].
      rewrite Hrun.
      rewrite Hb1, Hq1 in Hfail, Hlast.
      rewrite (@attempt_frame w w1 _ _ Hn1 Hb1) in Hlast.
      eexists out, w', (S k),
        ({| ev_currentIndex := currentIndex; ev_totalUsers := totalUsers;
            ev_username := Some username; ev_status := retry;
            ev_userInfo := None |} :: evs).
      split; [reflexivity|]. split; [lia|].
      split.
      { intros [|j] Hj.
        - rewrite Nat.add_0_r, Ea. eauto.
        - destruct (Hfail j) as (e' & He'); [lia|].
          rewrite (@attempt_frame w w1 _ _ Hn1 Hb1) in He'.
          replace (requests w + S j) with (S (requests w) + j) by lia.
          eauto. }
      split.
      { replace (requests w + S k) with (S (requests w) + k) by lia.
        destruct (attempt w (S (requests w) + k)
                    (baseUrl w ++ js "/member/" ++ username));
          [|exact Hlast].
        destruct Hlast as [Hkk ->]. split; [lia|reflexivity]. }
      split; [congruence|]. split; [congruence|].
      split; [lia|].
      split.
      { rewrite Hw, Hw1, Hq1, <- app_assoc. cbn [app].
        rewrite retry_waits_shift. reflexivity. }
      split; [rewrite Hp, Hp1, <- app_assoc; destruct (onProgress o);
              reflexivity|].
      split; [exists last; cbn [map ev_status repeat app]; rewrite Hev; auto|].
      constructor; [reflexivity|exact HF].
    + apply Z.leb_gt in Hnext.
      destruct fuel as [|fuel]; [lia|].
      rewrite retryLoop_done by lia.
      eexists _, _, 0, [_]. split; [reflexivity|].
      split; [lia|]. split; [intros j Hj; lia|].
      rewrite Nat.add_0_r, Ea.
      split; [split; [lia|repeat f_equal; lia]|].
      rewrite net_noted, net_tick, baseUrl_noted, baseUrl_tick,
        requests_noted, requests_tick, waits_noted, waits_tick,
        progress_noted_if, progress_tick.
      cbn [seq map repeat app]. rewrite app_nil_r.
      repeat split; auto; try lia.
      exists error. cbn. auto.
  - eexists _, _, 0, [_]. split; [reflexivity|].
    split; [lia|]. split; [intros j Hj; lia|].
    rewrite Nat.add_0_r, Ea. split; [reflexivity|].
    rewrite net_noted, net_tick, baseUrl_noted, baseUrl_tick,
      requests_noted, requests_tick, waits_noted, waits_tick,
      progress_noted_if, progress_tick.
    cbn [seq map repeat app]. rewrite app_nil_r.
    repeat split; auto; try lia.
    exists success. cbn. auto.
Qed.

Lemma processUser_settles o totalUsers i username rest results w :
  (0 <= retryCount o)%Z ->
  exists out w' k evs,
    processUser o totalUsers i username rest results w
    = (inr (results ++ [out]), w')
    /\ userRun o w username (requests w) k out
    /\ net w' = net w /\ baseUrl w' = baseUrl w
    /\ requests w' = requests w + S k
    /\ waits w'
       = waits w ++ map (fun j => (requests w + S j, 2000%Z)) (seq 0 k)
         ++ (if (0 <? length rest) && (0 <? delay o)%Z
             then [(requests w + S k, delay o)] else [])
    /\ progress w' = progress w ++ (if onProgress o then evs else [])
    /\ userEvents username evs.
Proof.
  intros Hr. unfold processUser. unfold bind at 1. rewrite callback_noted.
  unfold bind at 1.
  set (w0 := noted o _ w).
  assert (Hn0 : net w0 = net w) by (subst w0; apply net_noted).
  assert (Hb0 : baseUrl w0 = baseUrl w) by (subst w0; apply baseUrl_noted).
  assert (Hq0 : requests w0 = requests w)
    by (subst w0; apply requests_noted).
  assert (Hw0 : waits w0 = waits w) by (subst w0; apply waits_noted).
  assert (Hp0 : progress w0
                = progress w
                  ++ (if onProgress o
                      then [ {| ev_currentIndex := i + 1;
                                ev_totalUsers := totalUsers;
                                ev_username := Some username;
                                ev_status := start;
                                ev_userInfo := None |} ]
                      else []))
    by (subst w0; apply progress_noted_if).
  destruct (@retryLoop_settles o (i + 1) totalUsers username (retryFuel o)
              0%Z results w0)
    as (out & w' & k & evs & Hrun & Hk & Hfail & Hlast & Hn & Hb & Hq & Hw
        & Hp & (last & Hev & Hl) & HF);
    [lia|unfold retryFuel; lia|rewrite Hrun].
  rewrite Hb0, Hq0 in Hfail, Hlast.
  rewrite (@attempt_frame w w0 _ _ Hn0 Hb0) in Hlast.
  rewrite Z.sub_0_r in Hk, Hlast.
  assert (Hur : userRun o w username (requests w) k out).
  { split; [exact Hk|]. split; [|exact Hlast].
    intros j Hj. destruct (Hfail j Hj) as (e & He).
    rewrite (@attempt_frame w w0 _ _ Hn0 Hb0) in He. eauto. }
  rewrite Hn0 in Hn. rewrite Hb0 in Hb. rewrite Hq0 in Hq.
  rewrite Hw0, Hq0 in Hw. rewrite Hp0 in Hp.
  unfold bind, ret.
  assert (Hue : userEvents username
                  ({| ev_currentIndex := i + 1; ev_totalUsers := totalUsers;
                      ev_username := Some username; ev_status := start;
                      ev_userInfo := None |} :: evs)).
  { split; [|constructor; [reflexivity|exact HF]].
    exists k, last. cbn [map ev_status]. rewrite Hev. auto. }
  assert (Hp' : progress w'
                = progress w
                  ++ (if onProgress o
                      then {| ev_currentIndex := i + 1;
                              ev_totalUsers := totalUsers;
                              ev_username := Some username;
                              ev_status := start;
                              ev_userInfo := None |} :: evs
                      else []))
    by (rewrite Hp, <- app_assoc; destruct (onProgress o); reflexivity).
  destruct ((0 <? length rest) && (0 <? delay o)%Z);
    [rewrite sleep_slept|].
  - match type of Hue with
    | userEvents _ ?l => eexists out, _, k, l
    end.
    split; [reflexivity|].
    rewrite net_slept, baseUrl_slept, requests_slept, waits_slept,
      progress_slept, Hw, Hq, <- app_assoc.
    split; [exact Hur|]. split; [exact Hn|]. split; [exact Hb|].
    split; [reflexivity|]. split; [reflexivity|].
    split; [exact Hp'|exact Hue].
  - match type of Hue with
    | userEvents _ ?l => eexists out, _, k, l
    end.
    split; [reflexivity|].
    rewrite Hw, app_nil_r.
    split; [exact Hur|]. split; [exact Hn|]. split; [exact Hb|].
    split; [exact Hq|]. split; [reflexivity|].
    split; [exact Hp'|exact Hue].
Qed.

Lemma userRun_frame o w w' username r k out :
  net w' = net w -> baseUrl w' = baseUrl w ->
  userRun o w' username r k out -> userRun o w username r k out.
Proof.
  intros Hn Hb (Hk & Hfail & Hlast). unfold userRun in *.
  rewrite Hb in Hfail, Hlast.
  rewrite (@attempt_frame w w' _ _ Hn Hb) in Hlast.
  split; [exact Hk|]. split; [|exact Hlast].
  intros j Hj. destruct (Hfail j Hj) as (e & He).
  rewrite (@attempt_frame w w' _ _ Hn Hb) in He. eauto.
Qed.

Lemma batchRuns_frame o w w' :
  net w' = net w -> baseUrl w' = baseUrl w ->
  forall usernames r ks outs,
    batchRuns o w' r usernames ks outs -> batchRuns o w r usernames ks outs.
Proof.
  intros Hn Hb.
  induction usernames as [|username rest IH]; intros r ks outs H;
    destruct ks as [|k ks], outs as [|out outs]; try exact H.
  cbn [batchRuns] in *. destruct H as [Hu Hrest].
  split; [exact (@userRun_frame o w w' _ _ _ _ Hn Hb Hu)|apply IH, Hrest].
Qed.

Lemma usersLoop_settles o totalUsers : forall usernames i results w,
  (0 <= retryCount o)%Z ->
  exists outs w' ks evss,
    usersLoop o totalUsers i usernames results w = (inr (results ++ outs), w')
    /\ batchRuns o w (requests w) usernames ks outs
    /\ length ks = length usernames
    /\ net w' = net w /\ baseUrl w' = baseUrl w
    /\ requests w' = requests w + list_sum (map S ks)
    /\ waits w' = waits w ++ batchWaits (delay o) (requests w) ks
    /\ progress w' = progress w ++ (if onProgress o then concat evss else [])
    /\ Forall2 userEvents usernames evss.
Proof.
  induction usernames as [|username rest IH]; intros i results w Hr.
  - exists [], w, [], []. cbn. rewrite !app_nil_r.
    destruct (onProgress o); repeat split; auto; try lia;
      rewrite ?app_nil_r; auto.
  - cbn [usersLoop]. unfold bind at 1.
    destruct (@processUser_settles o totalUsers i username rest results w Hr)
      as (out & w1 & k & evs & Hrun & Hur & Hn & Hb & Hq & Hw & Hp & Hue).
    rewrite Hrun.
    destruct (IH (S i) (results ++ [out]) w1 Hr)
      as (outs & w' & ks & evss & Hrest & HR & Hlen & Hn' & Hb' & Hq' & Hw'
          & Hp' & HE).
    rewrite Hrest.
    exists (out :: outs), w', (k :: ks), (evs :: evss).
    rewrite <- app_assoc.
    split; [reflexivity|].
    split.
    { cbn [batchRuns]. split; [exact Hur|].
      rewrite Hq in HR. exact (@batchRuns_frame o w w1 Hn Hb _ _ _ _ HR). }
    split; [cbn [length]; congruence|].
    split; [congruence|]. split; [congruence|].
    split; [change (list_sum (map S (k :: ks)))
              with (S k + list_sum (map S ks)); lia|].
    split.
    { rewrite Hw', Hw, Hq. cbn [batchWaits]. rewrite Hlen, <- !app_assoc.
      reflexivity. }
    split; [|constructor; assumption].
    rewrite Hp', Hp, <- app_assoc. cbn [concat].
    destruct (onProgress o); reflexivity.
Qed.







End UserBatchProperties.

(* ================================================================== *)
(** * Tokens, reply user ids and the two modes of [parsePost] *)
(* ================================================================== *)
Section TokenProperties.

Lemma firstMatch_sound r s a :
  firstMatch r s = Some a ->
  exists pre post x y,
    s = pre ++ a ++ post /\ Matches r x y
    /\ after x = a ++ post /\ after y = post.
Proof.
  unfold firstMatch, matchFirst.
  destruct (search r [] s) as [[x y]|] eqn:E; [|discriminate].
  intros H. injection H as <-.
  apply search_sound in E as (HM & _ & skipped & Es & _).
  destruct (Matches_passes HM) as (w & Ea & _).
  unfold result_of. cbn [whole]. rewrite (consumed_passes x y w Ea).
  exists skipped, (after y), x, y. rewrite Es, Ea. auto.
Qed.

(** A token yields at most one address; the address is valid and is a
    part of the token.  A valid token is returned as it is, and a token
    of fewer than 32 code units yields nothing. *)
Theorem token_yields_at_most_one_valid_address token :
  match extractAddressesFromToken token with
  | [] => True
  | [a] =>
      isValidSolanaAddress a = true
      /\ exists pre post, token = pre ++ a ++ post
  | _ :: _ :: _ => False
  end
  /\ (isValidSolanaAddress token = true ->
      extractAddressesFromToken token = [token])
  /\ (length token < 32 -> extractAddressesFromToken token = []).
Proof.
  split; [|split].
  - unfold extractAddressesFromToken.
    destruct (negb (truthy token) || (length token <? 32)); [exact I|].
    destruct (isValidSolanaAddress token) eqn:Ev.
    { split; [exact Ev|]. exists [], []. rewrite app_nil_r. reflexivity. }
    assert (Hthird :
              match
                (if test startsWithDigit token
                 then match firstMatch letterRun token with
                      | Some b => if isValidSolanaAddress b then [b] else []
                      | None => []
                      end
                 else [])
              with
              | [] => True
              | [a] =>
                  isValidSolanaAddress a = true
                  /\ exists pre post, token = pre ++ a ++ post
              | _ :: _ :: _ => False
              end).
    { destruct (test startsWithDigit token); [|exact I].
      destruct (firstMatch letterRun token) as [b|] eqn:Eb; [|exact I].
      destruct (isValidSolanaAddress b) eqn:Evb; [|exact I].
      split; [exact Evb|].
      apply firstMatch_sound in Eb as (pre & post & _ & _ & -> & _).
      eauto. }
    destruct (firstMatch base58Run token) as [a|] eqn:Ea; [|exact Hthird].
    destruct (isValidSolanaAddress a) eqn:Eva; [|exact Hthird].
    split; [exact Eva|].
    apply firstMatch_sound in Ea as (pre & post & _ & _ & -> & _).
    eauto.
  - intros Hv.
    assert (Hpre : negb (truthy token) || (length token <? 32) = false).
    { unfold isValidSolanaAddress in Hv.
      destruct (negb (truthy token)); [discriminate|].
      destruct (length token <? 32); [cbn [orb] in Hv; discriminate|].
      reflexivity. }
    unfold extractAddressesFromToken. rewrite Hpre, Hv. reflexivity.
  - intros Hlen. unfold extractAddressesFromToken.
    replace (length token <? 32) with true
      by (symmetry; apply Nat.ltb_lt; exact Hlen).
    rewrite orb_true_r. reflexivity.
Qed.

Lemma token_yields_at_most_one_valid_address_witness :
  isValidSolanaAddress (js "3Bm" ++ repeat (ch "x") 41) = true
  /\ extractAddressesFromToken (js "3Bm" ++ repeat (ch "x") 41)
     = [js "3Bm" ++ repeat (ch "x") 41].
Proof.
  split; [vm_compute; reflexivity|].
  destruct (token_yields_at_most_one_valid_address
              (js "3Bm" ++ repeat (ch "x") 41)) as (_ & H & _).
  apply H. vm_compute. reflexivity.
Defined.

End TokenProperties.

Section ReplyUserIdProperties.

Lemma wordsArray_shape x y :
  Matches wordsArray x y -> includes (js "words") (after x) = true.
Proof.
  unfold wordsArray. cbn [seqs]. intros H.
  apply Matches_seq in H as (y1 & H1 & _).
  apply Matches_lit in H1 as (E1 & _). rewrite E1. apply includes_here.
Qed.

Lemma varWordsArray_shape x y :
  Matches varWordsArray x y -> includes (js "words") (after x) = true.
Proof.
  unfold varWordsArray. cbn [seqs]. intros H.
  apply Matches_seq in H as (y1 & H1 & H).
  apply Matches_seq in H as (y2 & H2 & H3).
  apply Matches_passes in H1 as (w1 & E1 & _).
  apply Matches_passes in H2 as (w2 & E2 & _).
  apply wordsArray_shape in H3.
  rewrite E1, E2. apply includes_app_l, includes_app_l, H3.
Qed.

Lemma firstGroup_absent r (bad : jsstring -> bool) s :
  (forall x y, Matches r x y -> bad (after x) = true) ->
  (forall pre suf, bad suf = true -> bad (pre ++ suf) = true) ->
  bad s = false ->
  firstGroup r s = None.
Proof.
  intros Hshape Hpre Hs. unfold firstGroup, matchFirst.
  rewrite search_none; [reflexivity|].
  intros pre suf ->.
  destruct (m r Some (MState (rev pre ++ []) suf [])) eqn:Em; [|reflexivity].
  apply m_sound in Em as (y & HM & _).
  apply Hshape in HM. cbn [after] in HM.
  rewrite (Hpre pre suf HM) in Hs. discriminate.
Qed.

Lemma mem_false_not_in x l : mem x l = false -> ~ In x l.
Proof.
  unfold mem. intros H Hin.
  assert (E : existsb (str_eqb x) l = true).
  { apply existsb_exists. exists x. split; [exact Hin|].
    apply str_eqb_eq. reflexivity. }
  rewrite E in H. discriminate.
Qed.

Lemma fold_addHrefId_invariant : forall hrefs acc,
  NoDup acc -> Forall (fun id => truthy id = true) acc ->
  NoDup (fold_left addHrefId hrefs acc)
  /\ Forall (fun id => truthy id = true) (fold_left addHrefId hrefs acc)
  /\ (forall id, In id (fold_left addHrefId hrefs acc) ->
        In id acc
        \/ exists h, In (Some h) hrefs
                     /\ id = replaceFirst (js "/member/") [] h)
  /\ (forall id, In id acc -> In id (fold_left addHrefId hrefs acc))
  /\ (forall h, In (Some h) hrefs ->
        truthy (replaceFirst (js "/member/") [] h) = true ->
        In (replaceFirst (js "/member/") [] h)
           (fold_left addHrefId hrefs acc)).
Proof.
  induction hrefs as [|href rest IH]; intros acc Hnd Ht.
  - cbn. repeat split; auto. intros h [].
  - cbn [fold_left].
    assert (Hstep : NoDup (addHrefId acc href)
                    /\ Forall (fun id => truthy id = true) (addHrefId acc href)
                    /\ (forall id, In id (addHrefId acc href) ->
                          In id acc
                          \/ exists h, href = Some h
                               /\ id = replaceFirst (js "/member/") [] h)
                    /\ (forall id, In id acc -> In id (addHrefId acc href))
                    /\ (forall h, href = Some h ->
                          truthy (replaceFirst (js "/member/") [] h) = true ->
                          In (replaceFirst (js "/member/") [] h)
                             (addHrefId acc href))).
    { unfold addHrefId. destruct href as [h|].
      - destruct (truthy h) eqn:Eh.
        + destruct (truthy (replaceFirst (js "/member/") [] h)) eqn:Eid.
          * destruct (mem (replaceFirst (js "/member/") [] h) acc) eqn:Em;
              cbn [andb negb].
            -- repeat split; auto.
               intros h' [= <-] _.
               unfold mem in Em. apply existsb_exists in Em as (y & Hy & E).
               apply str_eqb_eq in E as ->. exact Hy.
            -- apply mem_false_not_in in Em. repeat split.
               ++ apply NoDup_app; [exact Hnd|repeat constructor; auto|].
                  intros a Ha [<-|[]]. auto.
               ++ apply Forall_app. split; [exact Ht|].
                  constructor; [exact Eid|constructor].
               ++ intros id Hin. apply in_app_or in Hin as [Hin|[<-|[]]];
                    [left; exact Hin|right; eauto].
               ++ intros id Hin. apply in_or_app. left. exact Hin.
               ++ intros h' [= <-] _. apply in_or_app. right. left.
                  reflexivity.
          * cbn [andb]. repeat split; auto.
            intros h' [= <-] Hid. rewrite Hid in Eid. discriminate.
        + repeat split; auto.
          intros h' [= <-] Hid. destruct h; [discriminate|discriminate].
      - repeat split; auto. intros h' [=]. }
    destruct Hstep as (Hnd' & Ht' & Hfrom & Hkeep & Hadd).
    destruct (IH (addHrefId acc href) Hnd' Ht')
      as (R1 & R2 & R3 & R4 & R5).
    split; [exact R1|]. split; [exact R2|]. split; [|split].
    + intros id Hin. apply R3 in Hin as [Hin|(h & Hh & ->)].
      * apply Hfrom in Hin as [Hin|(h & -> & ->)];
          [left; exact Hin|right; exists h; split; [left; reflexivity|reflexivity]].
      * right. exists h. split; [right; exact Hh|reflexivity].
    + intros id Hin. apply R4, Hkeep, Hin.
    + intros h [->|Hin] Hid; [apply R4, (Hadd h eq_refl Hid)|apply R5; auto].
Qed.

(** When the script text does not contain [words], the reply user ids
    come from the author links: the non-empty ids left after removing
    [/member/] from each [href], pairwise distinct. *)
Theorem reply_ids_from_author_links script hrefs :
  includes (js "words") script = false ->
  NoDup (extractReplyUserIds script hrefs)
  /\ Forall (fun id => truthy id = true) (extractReplyUserIds script hrefs)
  /\ (forall id, In id (extractReplyUserIds script hrefs)
        <-> exists h, In (Some h) hrefs
                      /\ id = replaceFirst (js "/member/") [] h
                      /\ truthy id = true).
Proof.
  intros Hno. unfold extractReplyUserIds.
  assert (Hpre : forall pre suf, includes (js "words") suf = true ->
                                 includes (js "words") (pre ++ suf) = true)
    by (intros; apply includes_app_l; assumption).
  rewrite (@firstGroup_absent varWordsArray (includes (js "words")) script
             varWordsArray_shape Hpre Hno).
  rewrite (@firstGroup_absent wordsArray (includes (js "words")) script
             wordsArray_shape Hpre Hno).
  destruct (fold_addHrefId_invariant hrefs (NoDup_nil _) (Forall_nil _))
    as (R1 & R2 & R3 & _ & R5).
  split; [exact R1|]. split; [exact R2|].
  intros id. split.
  - intros Hin. pose proof Hin as Hin'.
    apply R3 in Hin as [[]|(h & Hh & ->)].
    exists h. split; [exact Hh|]. split; [reflexivity|].
    exact (proj1 (Forall_forall _ _) R2 _ Hin').
  - intros (h & Hh & -> & Hid). apply R5; assumption.
Qed.

Lemma reply_ids_from_author_links_witness :
  includes (js "words") (js "var x = 1;") = false
  /\ extractReplyUserIds (js "var x = 1;")
       [Some (js "/member/bob"); None; Some (js "/member/carol");
        Some (js "/member/bob")]
     = [js "bob"; js "carol"]
  /\ NoDup (extractReplyUserIds (js "var x = 1;")
              [Some (js "/member/bob"); None; Some (js "/member/carol");
               Some (js "/member/bob")]).
Proof.
  split; [reflexivity|]. split; [vm_compute; reflexivity|].
  destruct (@reply_ids_from_author_links (js "var x = 1;")
              [Some (js "/member/bob"); None; Some (js "/member/carol");
               Some (js "/member/bob")] eq_refl) as (H & _).
  exact H.
Defined.

End ReplyUserIdProperties.

Section ParsePostProperties.

Lemma thread_url_has_segment base postId' :
  includes (js "/t/") (base ++ js "/t/" ++ postId') = true.
Proof. apply includes_app_l. apply includes_here. Qed.

(** On a thread without page links the two modes of [parsePost] read the
    same page once and agree on the post and its replies; only the
    multi-page mode attaches the pagination. *)
Theorem parsePost_modes_agree_without_pagination postId' w first :
  net w (requests w) (baseUrl w ++ js "/t/" ++ postId') = inr first ->
  page_links first = [] ->
  includes (js "/member/") (baseUrl w ++ js "/t/" ++ postId') = false ->
  exists p w1,
    parsePost postId' None w = (inr (PostPage p), w1)
    /\ parsePost postId' (Some false) w
       = (inr (PostPage (parsePostPage first
                           (baseUrl w ++ js "/t/" ++ postId'))), tick w)
    /\ requests w1 = S (requests w)
    /\ replies p
       = replies (parsePostPage first (baseUrl w ++ js "/t/" ++ postId'))
    /\ replyCount (statistics p) = length (pageReplies first)
    /\ pagination p = Some (detectPagination first)
    /\ pagination (parsePostPage first (baseUrl w ++ js "/t/" ++ postId'))
       = None.
Proof.
  intros Hfirst Hlinks Hm.
  assert (Hsingle : hasMultiplePages (detectPagination first) = false)
    by (unfold detectPagination; rewrite Hlinks; reflexivity).
  assert (Hend : pagesEnd (totalPages (detectPagination first)) = true)
    by (unfold detectPagination; rewrite Hlinks; reflexivity).
  destruct (parseMultiPagePost_shape postId' w Hfirst Hend)
    as (post & w' & extra & Hrun & Hrep & Hextra & _ & Hc & _ & _ & Hp
        & Hq & _).
  rewrite Hsingle in *. cbn [andb] in *. subst extra.
  rewrite app_nil_r in Hrep.
  exists post, w'. unfold parsePost. unfold bind at 1. rewrite Hrun.
  split; [reflexivity|]. split.
  - unfold getBaseUrl, parseV2exPage, tryCatch, axiosGet, ret, throw,
      tick, lift, bind.
    rewrite Hfirst, Hm, thread_url_has_segment. reflexivity.
  - rewrite Hc, Hrep, Hq, Hp. cbn [parsePostPage replies pagination].
    repeat split; auto; lia.
Qed.

Lemma parsePost_modes_agree_without_pagination_witness :
  exists p w1,
    parsePost (js "7") None (worldOf (fun _ _ => inr shortThread))
    = (inr (PostPage p), w1)
    /\ parsePost (js "7") (Some false)
                 (worldOf (fun _ _ => inr shortThread))
       = (inr (PostPage (parsePostPage shortThread
                           (js "https://v2ex.com/t/7"))),
          tick (worldOf (fun _ _ => inr shortThread)))
    /\ requests w1 = 1
    /\ replies p
       = replies (parsePostPage shortThread (js "https://v2ex.com/t/7"))
    /\ replyCount (statistics p) = length (pageReplies shortThread)
    /\ pagination p = Some (detectPagination shortThread)
    /\ pagination (parsePostPage shortThread (js "https://v2ex.com/t/7"))
       = None
    /\ map reply_content (replies p) = [js "first"; js "second"].
Proof.
  destruct (@parsePost_modes_agree_without_pagination (js "7")
              (worldOf (fun _ _ => inr shortThread)) shortThread)
    as (p & w1 & Hmulti & Hsingle & Hq & Hrep & Hc & Hp & Hnone);
    try reflexivity.
  exists p, w1. rewrite Hrep. auto 10.
Defined.

(** When the page cannot be fetched, the multi-page mode (the default)
    rejects with the multi-page prefix and the single-page mode with the
    prefix of [parseV2exPage]; each has issued one request. *)
Theorem parsePost_failure_prefix_by_mode postId' w e :
  net w (requests w) (baseUrl w ++ js "/t/" ++ postId') = inl e ->
  parsePost postId' None w = (inl (multiPageFailedPrefix ++ e), tick w)
  /\ parsePost postId' (Some true) w
     = (inl (multiPageFailedPrefix ++ e), tick w)
  /\ parsePost postId' (Some false) w
     = (inl (parseFailedPrefix ++ e), tick w).
Proof.
  intros H. unfold parsePost.
  split; [|split].
  - unfold bind. rewrite (parseMultiPagePost_first_failed _ _ H). reflexivity.
  - unfold bind. rewrite (parseMultiPagePost_first_failed _ _ H). reflexivity.
  - unfold getBaseUrl, parseV2exPage, tryCatch, axiosGet, throw, tick, bind.
    rewrite H. reflexivity.
Qed.

Lemma parsePost_failure_prefix_by_mode_witness :
  parsePost (js "7") None (worldOf deadTransport)
  = (inl (multiPageFailedPrefix ++ js "timeout of 10000ms exceeded"),
     tick (worldOf deadTransport))
  /\ parsePost (js "7") (Some true) (worldOf deadTransport)
     = (inl (multiPageFailedPrefix ++ js "timeout of 10000ms exceeded"),
        tick (worldOf deadTransport))
  /\ parsePost (js "7") (Some false) (worldOf deadTransport)
     = (inl (parseFailedPrefix ++ js "timeout of 10000ms exceeded"),
        tick (worldOf deadTransport)).
Proof.
  apply (@parsePost_failure_prefix_by_mode (js "7") (worldOf deadTransport)).
  reflexivity.
Defined.

End ParsePostProperties.

(* ================================================================== *)
(** * Reply user ids declared in the script *)
(* ================================================================== *)
Section ScriptIds.

Lemma replaceScan_chr p : forall aft bef,
  replaceScan (Chr p) [] bef aft 0 = filter (fun c => negb (p c)) aft.
Proof.
  induction aft as [|c rest IH]; intros bef.
  - cbn [replaceScan]. rewrite m_chr_nil. reflexivity.
  - cbn [filter]. destruct (p c) eqn:Ep; cbn [negb].
    + rewrite (@replaceScan_hit (Chr p) [] bef c rest
                 (MState (c :: bef) rest []) 0).
      * apply IH.
      * rewrite m_chr_cons, Ep. reflexivity.
      * rewrite (@consumed_passes _ _ [c]); reflexivity.
    + cbn [replaceScan]. rewrite m_chr_cons, Ep. f_equal. apply IH.
Qed.

Lemma replaceScan_anyBracket : forall aft bef,
  replaceScan anyBracket [] bef aft 0
  = filter (fun c => negb (char_eqb (ch "[") c || char_eqb (ch "]") c)) aft.
Proof.
  assert (Hm : forall bef c rest,
             m anyBracket Some (MState bef (c :: rest) [])
             = if char_eqb (ch "[") c || char_eqb (ch "]") c
               then Some (MState (c :: bef) rest []) else None).
  { intros bef c rest. unfold anyBracket. rewrite m_alt.
    change (lit (js "[")) with (Seq (Chr (char_eqb (ch "["))) Eps).
    change (lit (js "]")) with (Seq (Chr (char_eqb (ch "]"))) Eps).
    rewrite !m_seq, !m_chr_cons.
    destruct (char_eqb (ch "[") c); [reflexivity|].
    destruct (char_eqb (ch "]") c); reflexivity. }
  induction aft as [|c rest IH]; intros bef.
  - reflexivity.
  - cbn [filter].
    destruct (char_eqb (ch "[") c || char_eqb (ch "]") c) eqn:Ep; cbn [negb].
    + rewrite (@replaceScan_hit anyBracket [] bef c rest
                 (MState (c :: bef) rest []) 0).
      * apply IH.
      * rewrite Hm, Ep. reflexivity.
      * rewrite (@consumed_passes _ _ [c]); reflexivity.
    + cbn [replaceScan]. rewrite Hm, Ep. f_equal. apply IH.
Qed.

Lemma filter_all (f : char -> bool) : forall s,
  forallb f s = true -> filter f s = s.
Proof.
  induction s as [|c s IH]; intros H; [reflexivity|].
  cbn in *. apply andb_true_iff in H as [-> H]. f_equal. auto.
Qed.

Lemma idChar_facts c :
  isIdChar c = true ->
  isWhiteSpace c = false /\ char_eqb (ch ",") c = false
  /\ isQuote c = false /\ char_eqb (ch "[") c = false
  /\ char_eqb (ch "]") c = false.
Proof.
  unfold isIdChar. intros H.
  repeat (apply andb_true_iff in H as [H ?]).
  repeat split; apply negb_true_iff; assumption.
Qed.

Lemma forallb_idChar (f : char -> bool) id :
  (forall c, isIdChar c = true -> f c = true) ->
  forallb isIdChar id = true -> forallb f id = true.
Proof.
  intros Hf H. apply forallb_forall. intros c Hc. apply Hf.
  exact (proj1 (forallb_forall _ _) H c Hc).
Qed.

(** Removing the quotes and the brackets from the array literal leaves
    the ids joined by a comma and a space. *)
Lemma clean_literal ids :
  Forall (fun id => forallb isIdChar id = true) ids ->
  replaceAll anyBracket []
    (replaceAll anyQuote []
       (js "[" ++ joinWith (js ", ") (map quoted ids) ++ js "]"))
  = joinWith (js ", ") ids.
Proof.
  intros Hids. unfold replaceAll, anyQuote.
  rewrite replaceScan_chr, replaceScan_anyBracket.
  set (f1 := fun c => negb (isQuote c)).
  set (f2 := fun c => negb (char_eqb (ch "[") c || char_eqb (ch "]") c)).
  assert (H1 : forall id, forallb isIdChar id = true -> filter f1 id = id).
  { intros id H. apply filter_all. revert H. apply forallb_idChar.
    intros c Hc. apply idChar_facts in Hc as (_ & _ & Hq & _).
    unfold f1. rewrite Hq. reflexivity. }
  assert (H2 : forall id, forallb isIdChar id = true -> filter f2 id = id).
  { intros id H. apply filter_all. revert H. apply forallb_idChar.
    intros c Hc. apply idChar_facts in Hc as (_ & _ & _ & Hl & Hr).
    unfold f2. rewrite Hl, Hr. reflexivity. }
  assert (Htail : forall l,
             Forall (fun id => forallb isIdChar id = true) l ->
             filter f2 (filter f1 (tailJoin (js ", ") (map quoted l)))
             = tailJoin (js ", ") l).
  { induction l as [|id l IH]; intros Hl; [reflexivity|].
    inversion Hl as [|? ? Hid Hl']; subst.
    cbn [map tailJoin]. unfold quoted at 1.
    rewrite !filter_app, (H1 id Hid), (H2 id Hid), (IH Hl').
    change (filter f2 (filter f1 (js ", "))) with (js ", ").
    change (filter f2 (filter f1 (js "'"))) with (@nil char).
    cbn [app]. rewrite app_nil_r. reflexivity. }
  destruct ids as [|id ids]; [reflexivity|].
  inversion Hids as [|? ? Hid Hl]; subst.
  cbn [map joinWith]. unfold quoted at 1.
  rewrite !filter_app, (H1 id Hid), (H2 id Hid), (Htail ids Hl).
  change (filter f2 (filter f1 (js "["))) with (@nil char).
  change (filter f2 (filter f1 (js "]"))) with (@nil char).
  change (filter f2 (filter f1 (js "'"))) with (@nil char).
  cbn [app]. rewrite !app_nil_r. reflexivity.
Qed.

Lemma splitOn_cons sep c t :
  splitOn sep (c :: t)
  = if char_eqb sep c then [] :: splitOn sep t
    else match splitOn sep t with
         | piece :: pieces => (c :: piece) :: pieces
         | [] => [[c]]
         end.
Proof. reflexivity. Qed.

Lemma splitOn_app_plain sep : forall x t piece pieces,
  forallb (fun c => negb (char_eqb sep c)) x = true ->
  splitOn sep t = piece :: pieces ->
  splitOn sep (x ++ t) = (x ++ piece) :: pieces.
Proof.
  induction x as [|c x IH]; intros t piece pieces Hx Ht; [exact Ht|].
  cbn in Hx. apply andb_true_iff in Hx as [Hc Hx].
  apply negb_true_iff in Hc.
  cbn [app]. rewrite splitOn_cons, Hc, (IH _ _ _ Hx Ht). reflexivity.
Qed.

Lemma splitOn_tailJoin : forall ids,
  Forall (fun id => forallb isIdChar id = true) ids ->
  splitOn (ch ",") (tailJoin (js ", ") ids)
  = [] :: map (fun id => js " " ++ id) ids.
Proof.
  induction ids as [|id ids IH]; intros H; [reflexivity|].
  inversion H as [|? ? Hid Hl]; subst.
  cbn [tailJoin map].
  change (js ", " ++ id ++ tailJoin (js ", ") ids)
    with (ch "," :: (js " " ++ id) ++ tailJoin (js ", ") ids).
  rewrite splitOn_cons, char_eqb_refl.
  assert (Hx : forallb (fun c => negb (char_eqb (ch ",") c)) (js " " ++ id)
               = true).
  { change (js " " ++ id) with (ch " " :: id). cbn [forallb].
    change (negb (char_eqb (ch ",") (ch " "))) with true.
    cbn [andb]. revert Hid. apply forallb_idChar.
    intros c Hc. apply idChar_facts in Hc as (_ & Hcomma & _).
    rewrite Hcomma. reflexivity. }
  rewrite (@splitOn_app_plain (ch ",") (js " " ++ id) _ _ _ Hx (IH Hl)).
  rewrite app_nil_r. reflexivity.
Qed.

Lemma trim_padded_id id :
  truthy id = true -> forallb isIdChar id = true ->
  trim id = id /\ trim (js " " ++ id) = id.
Proof.
  intros Hne Hid.
  assert (Hws : forall c, In c id -> isWhiteSpace c = false).
  { intros c Hc. apply (proj1 (forallb_forall _ _) Hid) in Hc.
    apply idChar_facts in Hc as (Hw & _). exact Hw. }
  assert (Hrev : forall pad,
             dropWhile isWhiteSpace (rev id ++ pad) = rev id ++ pad).
  { intros pad. apply dropWhile_fix.
    destruct (rev id) as [|c r] eqn:Er.
    - apply (f_equal (@rev char)) in Er. rewrite rev_involutive in Er.
      subst id. discriminate.
    - cbn [app]. apply Hws. apply in_rev. rewrite Er. left. reflexivity. }
  assert (Hhead : dropWhile isWhiteSpace id = id).
  { apply dropWhile_fix. destruct id as [|c r]; [exact I|].
    apply Hws. left. reflexivity. }
  unfold trim, trimStart, trimEnd. split.
  - rewrite <- (app_nil_r (rev id)), Hrev, app_nil_r, rev_involutive.
    exact Hhead.
  - rewrite rev_app_distr, Hrev, rev_app_distr, !rev_involutive.
    change (js " " ++ id) with (ch " " :: id). cbn [dropWhile].
    change (isWhiteSpace (ch " ")) with true. cbv iota. exact Hhead.
Qed.

(** Reading the ids back from the text of the array literal. *)
Lemma idsOfArray_literal ids :
  Forall (fun id => truthy id = true /\ forallb isIdChar id = true) ids ->
  idsOfArray (js "[" ++ joinWith (js ", ") (map quoted ids) ++ js "]") = ids.
Proof.
  intros H.
  assert (Hc : Forall (fun id => forallb isIdChar id = true) ids)
    by (eapply Forall_impl; [|exact H]; intros id [_ Hid]; exact Hid).
  unfold idsOfArray. rewrite (clean_literal Hc).
  destruct ids as [|id ids]; [reflexivity|].
  inversion H as [|? ? [Hne Hid] Hl]; subst.
  inversion Hc as [|? ? _ Hcl]; subst.
  cbn [joinWith].
  assert (Hx : forallb (fun c => negb (char_eqb (ch ",") c)) id = true).
  { revert Hid. apply forallb_idChar.
    intros c Hc'. apply idChar_facts in Hc' as (_ & Hcomma & _).
    rewrite Hcomma. reflexivity. }
  rewrite (@splitOn_app_plain (ch ",") id _ _ _ Hx (splitOn_tailJoin Hcl)).
  rewrite app_nil_r. cbn [map filter].
  rewrite (proj1 (@trim_padded_id _ Hne Hid)), Hne. f_equal.
  clear Hc Hcl H Hne Hid Hx.
  induction ids as [|x xs IH]; [reflexivity|].
  inversion Hl as [|? ? [Hne Hid] Hl']; subst.
  cbn [map filter].
  rewrite (proj2 (@trim_padded_id _ Hne Hid)), Hne. f_equal. auto.
Qed.

Lemma literal_has_no_closing_bracket ids :
  Forall (fun id => forallb isIdChar id = true) ids ->
  forallb notBracket (joinWith (js ", ") (map quoted ids)) = true.
Proof.
  intros H.
  assert (Hid : forall id, forallb isIdChar id = true ->
                           forallb notBracket (quoted id) = true).
  { intros id Hi. unfold quoted. rewrite !forallb_app.
    replace (forallb notBracket id) with true; [reflexivity|].
    symmetry. revert Hi. apply forallb_idChar.
    intros c Hc. apply idChar_facts in Hc as (_ & _ & _ & _ & Hr).
    unfold notBracket. rewrite Hr. reflexivity. }
  assert (Htail : forall l,
             Forall (fun id => forallb isIdChar id = true) l ->
             forallb notBracket (tailJoin (js ", ") (map quoted l)) = true).
  { induction l as [|id l IH]; intros Hl; [reflexivity|].
    inversion Hl; subst. cbn [map tailJoin].
    rewrite !forallb_app, Hid, IH by assumption. reflexivity. }
  destruct ids as [|id ids]; [reflexivity|].
  inversion H; subst. cbn [map joinWith].
  rewrite forallb_app, Hid, Htail by assumption. reflexivity.
Qed.

Lemma varWordsArray_needs_v bef aft cs :
  match aft with [] => True | c :: _ => char_eqb (ch "v") c = false end ->
  m varWordsArray Some (MState bef aft cs) = None.
Proof.
  intros H. unfold varWordsArray. cbn [seqs].
  change (lit (js "var"))
    with (Seq (Chr (char_eqb (ch "v"))) (lit (js "ar"))).
  rewrite !m_seq.
  destruct aft as [|c aft]; [apply m_chr_nil|].
  rewrite m_chr_cons, H. reflexivity.
Qed.

Lemma search_past_no_v suf : forall pre bef,
  forallb (fun c => negb (char_eqb (ch "v") c)) pre = true ->
  search varWordsArray bef (pre ++ suf)
  = search varWordsArray (rev pre ++ bef) suf.
Proof.
  induction pre as [|c pre IH]; intros bef H; [reflexivity|].
  cbn in H. apply andb_true_iff in H as [Hc H].
  apply negb_true_iff in Hc.
  cbn [app search].
  rewrite (@varWordsArray_needs_v bef (c :: pre ++ suf) []) by exact Hc.
  rewrite (IH _ H). cbn [rev]. rewrite <- app_assoc. reflexivity.
Qed.

(** The declaration pattern matches a declaration as a whole and
    captures the array literal. *)
Lemma varWordsArray_on_declaration bef body post :
  forallb notBracket body = true ->
  exists z,
    m varWordsArray Some
      (MState bef (js "var words = [" ++ body ++ js "];" ++ post) [])
    = Some z
    /\ caps z = [(1, js "[" ++ body ++ js "]")].
Proof.
  intros Hbody. eexists. split.
  - unfold varWordsArray. cbn [seqs].
    change (js "var words = [" ++ body ++ js "];" ++ post)
      with (js "var" ++ js " " ++ js "words" ++ js " " ++ js "=" ++ js " "
            ++ js "[" ++ body ++ js "]" ++ js ";" ++ post).
    rewrite m_seq, m_lit_prefix, m_seq. unfold plus. rewrite m_rep.
    apply (@rep_chr_run isWhiteSpace _ _ (js " ") _ 1 _
             (js "words" ++ js " " ++ js "=" ++ js " "
              ++ js "[" ++ body ++ js "]" ++ js ";" ++ post));
      cbn [after before caps];
      [reflexivity|reflexivity|reflexivity
      |rewrite ?length_app; change (length (js " ")) with 1; lia|].
    unfold wordsArray. cbn [seqs].
    rewrite m_seq, m_lit_prefix, m_seq. unfold star. rewrite m_rep.
    apply (@rep_chr_run isWhiteSpace _ _ (js " ") _ 0 _
             (js "=" ++ js " " ++ js "[" ++ body ++ js "]" ++ js ";" ++ post));
      cbn [after before caps];
      [reflexivity|reflexivity|reflexivity
      |rewrite ?length_app; change (length (js " ")) with 1; lia|].
    rewrite m_seq, m_lit_prefix, m_seq, m_rep.
    apply (@rep_chr_run isWhiteSpace _ _ (js " ") _ 0 _
             (js "[" ++ body ++ js "]" ++ js ";" ++ post));
      cbn [after before caps];
      [reflexivity|reflexivity|reflexivity
      |rewrite ?length_app; change (length (js " ")) with 1; lia|].
    rewrite m_seq, m_group, m_seq, m_lit_prefix, m_seq, m_rep.
    apply (@rep_chr_run notBracket _ _ body _ 0 _
             (js "]" ++ js ";" ++ post));
      cbn [after before caps];
      [reflexivity|exact Hbody|reflexivity|rewrite length_app; lia|].
    rewrite m_lit_prefix. cbn [before after caps].
    rewrite m_lit_prefix. reflexivity.
  - cbn [caps]. f_equal. f_equal.
    apply consumed_passes. cbn [after].
    rewrite <- !app_assoc. reflexivity.
Qed.

(** The ids written in the declaration of the script are read back as
    they are, in order and with their repetitions, whatever the author
    links of the page: a round trip through the declaration. *)
Theorem reply_ids_read_back_from_script pre ids post hrefs :
  Forall (fun id => truthy id = true /\ forallb isIdChar id = true) ids ->
  forallb (fun c => negb (char_eqb (ch "v") c)) pre = true ->
  extractReplyUserIds (pre ++ wordsDeclaration ids ++ post) hrefs = ids.
Proof.
  intros Hids Hpre.
  assert (Hc : Forall (fun id => forallb isIdChar id = true) ids)
    by (eapply Forall_impl; [|exact Hids]; intros id [_ Hid]; exact Hid).
  destruct (@varWordsArray_on_declaration (rev pre ++ [])
              (joinWith (js ", ") (map quoted ids)) post
              (literal_has_no_closing_bracket Hc)) as (z & Hm & Hz).
  assert (Hg : firstGroup varWordsArray (pre ++ wordsDeclaration ids ++ post)
               = Some (js "[" ++ joinWith (js ", ") (map quoted ids)
                       ++ js "]")).
  { unfold firstGroup, matchFirst.
    rewrite (search_past_no_v _ _ _ Hpre).
    unfold wordsDeclaration. rewrite <- !app_assoc.
    rewrite (search_here _ _ _ Hm).
    unfold group, result_of. cbn [groups]. rewrite Hz. reflexivity. }
  unfold extractReplyUserIds. rewrite Hg.
  apply idsOfArray_literal, Hids.
Qed.

Lemma reply_ids_read_back_from_script_witness :
  extractReplyUserIds
    (js "$(function(){ " ++ wordsDeclaration [js "bob"; js "carol"; js "bob"]
     ++ js " });")
    [Some (js "/member/dave")]
  = [js "bob"; js "carol"; js "bob"].
Proof.
  apply (@reply_ids_read_back_from_script (js "$(function(){ ")
           [js "bob"; js "carol"; js "bob"] (js " });")
           [Some (js "/member/dave")]).
  - repeat constructor.
  - reflexivity.
Defined.

End ScriptIds.

(* ================================================================== *)
(** * Pagination and the base URL *)
(* ================================================================== *)
Section PaginationProperties.

Lemma leqNumber_refl a : a <> NaN -> leqNumber a a = true.
Proof.
  destruct a as [|x|[|]]; intros H; try reflexivity; [congruence|].
  apply Z.leb_refl.
Qed.

Lemma leqNumber_trans a b c :
  leqNumber a b = true -> leqNumber b c = true -> leqNumber a c = true.
Proof.
  destruct a as [|x|[|]], b as [|y|[|]], c as [|z|[|]]; cbn;
    try discriminate; try reflexivity.
  intros H1 H2. apply Z.leb_le in H1, H2. apply Z.leb_le. lia.
Qed.

Lemma maxNumber_bounds a b :
  a <> NaN -> b <> NaN ->
  maxNumber a b <> NaN
  /\ leqNumber a (maxNumber a b) = true
  /\ leqNumber b (maxNumber a b) = true
  /\ (maxNumber a b = a \/ maxNumber a b = b).
Proof.
  destruct a as [|x|[|]], b as [|y|[|]]; intros Ha Hb; try congruence;
    cbn; repeat split; auto; try discriminate;
    try (apply Z.leb_le; lia).
  destruct (Z.max_spec x y) as [[_ ->]|[_ ->]]; auto.
Qed.

Lemma mathMax_numbers : forall xs a,
  a <> NaN ->
  Forall (fun x => x <> NaN) xs ->
  fold_left maxNumber xs a <> NaN
  /\ leqNumber a (fold_left maxNumber xs a) = true
  /\ (forall x, In x xs -> leqNumber x (fold_left maxNumber xs a) = true)
  /\ (fold_left maxNumber xs a = a \/ In (fold_left maxNumber xs a) xs).
Proof.
  induction xs as [|x xs IH]; intros a Ha H.
  - cbn. repeat split; auto. apply leqNumber_refl, Ha.
  - inversion H as [|? ? Hx Hxs]; subst.
    destruct (maxNumber_bounds Ha Hx) as (Hm & Hla & Hlx & Hor).
    cbn [fold_left].
    destruct (IH (maxNumber a x) Hm Hxs) as (Hf & Hle & Hall & Hin).
    split; [exact Hf|].
    split; [exact (leqNumber_trans _ _ _ Hla Hle)|]. split.
    + intros y [<-|Hy]; [exact (leqNumber_trans _ _ _ Hlx Hle)|auto].
    + destruct Hin as [->|Hin]; [|right; right; exact Hin].
      destruct Hor as [->| ->]; [left; reflexivity|right; left; reflexivity].
Qed.

(** When the text of every page link is a number, [totalPages] is the
    largest of the page numbers as [parseInt] reads them, and 1 when no
    link has both an [href] and a text.  The page numbers are doubles: a
    text of more than 15 digits may be read as a neighbouring number, and
    a long enough run of digits as infinity. *)
Theorem total_pages_is_largest_link_number doc :
  Forall (fun entry => fst entry <> NaN) (pageUrls (detectPagination doc)) ->
  totalPages (detectPagination doc) <> NaN
  /\ (forall p url, In (p, url) (pageUrls (detectPagination doc)) ->
        leqNumber p (totalPages (detectPagination doc)) = true)
  /\ match pageUrls (detectPagination doc) with
     | [] => totalPages (detectPagination doc) = Num 1
     | _ :: _ =>
         exists url,
           In (totalPages (detectPagination doc), url)
              (pageUrls (detectPagination doc))
     end.
Proof.
  unfold detectPagination.
  destruct (page_links doc) as [|l0 ls].
  { intros _. cbn. split; [discriminate|]. split; [|reflexivity].
    intros p url []. }
  cbn [pageUrls totalPages].
  generalize (flat_map pageUrlOf (l0 :: ls)) as urls.
  intros urls H.
  destruct urls as [|[p u] urls].
  { cbn. split; [discriminate|]. split; [|reflexivity]. intros p url []. }
  inversion H as [|? ? Hp Hrest]; subst. cbn [fst] in Hp.
  cbn [map fst]. unfold mathMax.
  destruct (@mathMax_numbers (map fst urls) p Hp) as (Hf & Hle & Hall & Hin).
  { apply Forall_forall. intros x Hx.
    apply in_map_iff in Hx as (entry & <- & He).
    exact (proj1 (Forall_forall _ _) Hrest _ He). }
  split; [exact Hf|]. split.
  - intros q url [[= -> ->]|Hq]; [exact Hle|].
    apply Hall. apply in_map_iff. exists (q, url). auto.
  - destruct Hin as [->|Hin]; [exists u; left; reflexivity|].
    apply in_map_iff in Hin as ([p' u'] & Hp' & Hin). cbn [fst] in Hp'.
    exists u'. right. rewrite <- Hp'. exact Hin.
Qed.

Lemma total_pages_is_largest_link_number_witness :
  Forall (fun entry => fst entry <> NaN)
         (pageUrls (detectPagination (samplePage [])))
  /\ totalPages (detectPagination (samplePage [])) <> NaN
  /\ (forall p url,
        In (p, url) (pageUrls (detectPagination (samplePage []))) ->
        leqNumber p (totalPages (detectPagination (samplePage []))) = true)
  /\ match pageUrls (detectPagination (samplePage [])) with
     | [] => totalPages (detectPagination (samplePage [])) = Num 1
     | _ :: _ =>
         exists url,
           In (totalPages (detectPagination (samplePage [])), url)
              (pageUrls (detectPagination (samplePage [])))
     end.
Proof.
  assert (H : Forall (fun entry => fst entry <> NaN)
                     (pageUrls (detectPagination (samplePage []))))
    by (vm_compute; repeat constructor; discriminate).
  split; [exact H|].
  exact (@total_pages_is_largest_link_number (samplePage []) H).
Defined.

(** [parseInt] returns doubles: from [2^53] on not every integer is one,
    and a run of 310 digits is read as infinity. *)
Lemma parseInt_rounds :
  parseInt (js "9007199254740993") = Num 9007199254740992
  /\ parseInt (js "-9007199254740995") = Num (-9007199254740996)
  /\ parseInt (ch "1" :: repeat (ch "0") 309) = Inf false
  /\ parseInt (js "12px") = Num 12
  /\ parseInt (js "next") = NaN.
Proof. repeat split; vm_compute; reflexivity. Qed.

(** After [setBaseUrl], [getBaseUrl] returns the new base and
    [parseUserInfo] asks for the member page under it, once; it yields a
    profile or the wrapped error, never a thread. *)
Theorem parseUserInfo_under_new_base base username w :
  fst ((setBaseUrl base ;;; getBaseUrl) w) = inr base
  /\ exists r w',
       (setBaseUrl base ;;; parseUserInfo username) w = (r, w')
       /\ baseUrl w' = base /\ requests w' = S (requests w)
       /\ match net w (requests w) (base ++ js "/member/" ++ username) with
          | inl e => r = inl (parseFailedPrefix ++ e)
          | inr doc =>
              match parseUserInfoPage base doc
                      (base ++ js "/member/" ++ username) with
              | inl e => r = inl (parseFailedPrefix ++ e)
              | inr u => r = inr (UserInfoPage u)
              end
          end.
Proof.
  split; [reflexivity|].
  unfold bind at 1. unfold setBaseUrl. rewrite parseUserInfo_attempt.
  eexists _, _. split; [reflexivity|].
  split; [reflexivity|]. split; [reflexivity|].
  unfold attempt. cbn [net baseUrl requests].
  destruct (net w (requests w) (base ++ js "/member/" ++ username))
    as [e|doc]; [reflexivity|].
  destruct (parseUserInfoPage base doc (base ++ js "/member/" ++ username));
    reflexivity.
Qed.

End PaginationProperties.

(* ================================================================== *)
(** * Every domain between white space is found *)
(* ================================================================== *)
Section DomainCompleteness.

(** A scan passes a prefix of the text, and resumes right after it, when
    no match that starts inside the prefix extends beyond it. *)
Lemma scan_reaches r suf : forall pre bef skip,
  skip <= length pre ->
  (forall p1 c p2 y,
      pre = p1 ++ c :: p2 -> skip <= length p1 ->
      m r Some (MState (rev p1 ++ bef) ((c :: p2) ++ suf) []) = Some y ->
      length (consumed (MState (rev p1 ++ bef) ((c :: p2) ++ suf) []) y)
      <= length (c :: p2)) ->
  exists ms, scan r bef (pre ++ suf) skip = ms ++ scan r (rev pre ++ bef) suf 0.
Proof.
  induction pre as [|c pre IH]; intros bef skip Hs Hends.
  - destruct skip; [|cbn in Hs; lia]. exists []. reflexivity.
  - assert (Hnext : forall s, s <= length pre ->
              (skip = 0 \/ skip = S s) ->
              exists ms, scan r (c :: bef) (pre ++ suf) s
                         = ms ++ scan r (rev (c :: pre) ++ bef) suf 0).
    { intros s Hle Hsk.
      destruct (IH (c :: bef) s Hle) as (ms & Hms).
      - intros p1 c' p2 y E Hp1 Hm.
        assert (Hst : rev (c :: p1) ++ bef = rev p1 ++ c :: bef)
          by (cbn [rev]; rewrite <- app_assoc; reflexivity).
        apply (Hends (c :: p1) c' p2 y).
        + rewrite E. reflexivity.
        + destruct Hsk as [-> | ->]; cbn [length]; lia.
        + rewrite Hst. exact Hm.
      - exists ms. rewrite Hms. cbn [rev]. rewrite <- app_assoc. reflexivity. }
    destruct skip as [|s].
    + cbn [app scan].
      destruct (m r Some (MState bef (c :: pre ++ suf) [])) as [y|] eqn:Em.
      * pose proof (Hends [] c pre y eq_refl (Nat.le_0_l _) Em) as Hlen.
        cbn [length] in Hlen.
        destruct (Hnext (pred (length (consumed
                                  (MState bef (c :: pre ++ suf) []) y))))
          as (ms & Hms); [cbn [app rev] in Hlen; lia|left; reflexivity|].
        eexists (_ :: ms). rewrite Hms. reflexivity.
      * destruct (Hnext 0) as (ms & Hms); [lia|left; reflexivity|].
        exists ms. exact Hms.
    + cbn [app scan]. cbn [length] in Hs.
      destruct (Hnext s) as (ms & Hms); [lia|right; reflexivity|].
      exists ms. exact Hms.
Qed.

Lemma scan_head r bef aft y :
  m r Some (MState bef aft []) = Some y ->
  exists tl, scan r bef aft 0 = result_of (MState bef aft []) y :: tl.
Proof.
  intros H. destruct aft; cbn [scan]; rewrite H; eexists; reflexivity.
Qed.

Lemma m_behind positive p k x :
  m (Behind positive p) k x
  = match before x with
    | c :: _ => if Bool.eqb (p c) positive then k x else None
    | [] => if positive then None else k x
    end.
Proof. reflexivity. Qed.

Lemma m_ahead positive r k x :
  m (Ahead positive r) k x
  = match m r Some x with
    | Some y =>
        if positive then k (MState (before x) (after x) (caps y)) else None
    | None => if positive then None else k x
    end.
Proof. reflexivity. Qed.

Lemma labelChar_not_space c : isLabelChar c = true -> isWhiteSpace c = false.
Proof.
  unfold isLabelChar, isWhiteSpace, between, char_eqb. intros H.
  repeat match goal with
         | H : (_ || _)%bool = true |- _ => apply orb_true_iff in H as [H|H]
         | H : (_ && _)%bool = true |- _ => apply andb_true_iff in H as [? ?]
         | H : N.leb _ _ = true |- _ => apply N.leb_le in H
         | H : N.eqb _ _ = true |- _ => apply N.eqb_eq in H
         end;
    cbn in *;
    repeat match goal with
           | |- (_ || _)%bool = false => apply orb_false_iff; split
           | |- (_ && _)%bool = false => apply andb_false_iff
           end;
    try (apply N.eqb_neq; lia);
    try (left; apply N.leb_gt; lia);
    try (right; apply N.leb_gt; lia).
Qed.

Lemma labelChar_not_dot c : isLabelChar c = true -> char_eqb (ch ".") c = false.
Proof.
  intros H. destruct (char_eqb (ch ".") c) eqn:E; [|reflexivity].
  apply char_eqb_eq in E. subst c. discriminate.
Qed.

(** The domain pattern matches a label followed by [.sol] that stands
    between white space or the ends of the text. *)
Lemma domainRegex_hits bef label post :
  label <> [] -> forallb isLabelChar label = true ->
  match bef with [] => True | c :: _ => isWhiteSpace c = true end ->
  match post with [] => True | c :: _ => isWhiteSpace c = true end ->
  exists z,
    m domainRegex Some (MState bef (label ++ js ".sol" ++ post) []) = Some z
    /\ after z = post.
Proof.
  intros Hne Hlabel Hbef Hpost. eexists. split.
  - unfold domainRegex. cbn [seqs].
    rewrite m_seq, m_behind. cbn [before].
    assert (Hk : forall (k : cont) x,
               before x = bef ->
               match bef with
               | c :: _ =>
                   if Bool.eqb (negb (isWhiteSpace c)) false then k x else None
               | [] => k x
               end = k x).
    { intros k x _. destruct bef as [|c b]; [reflexivity|].
      rewrite Hbef. reflexivity. }
    rewrite Hk by reflexivity.
    rewrite m_seq, m_group, m_seq. unfold plus. rewrite m_rep.
    apply (@rep_chr_run isLabelChar _ _ label _ 1 _ (js ".sol" ++ post));
      cbn [after before caps].
    + reflexivity.
    + exact Hlabel.
    + reflexivity.
    + rewrite length_app. destruct label; [congruence|cbn [length]; lia].
    + rewrite m_lit_prefix. cbn [before after caps].
      rewrite m_ahead, m_alt.
      destruct post as [|c post'].
      * rewrite m_chr_nil. reflexivity.
      * rewrite m_chr_cons, Hpost. reflexivity.
  - destruct post; reflexivity.
Qed.

Lemma domain_match_stops_at_space p2 c suf bef y :
  isWhiteSpace c = true ->
  m domainRegex Some (MState bef ((p2 ++ [c]) ++ suf) []) = Some y ->
  length (consumed (MState bef ((p2 ++ [c]) ++ suf) []) y)
  <= length (p2 ++ [c]).
Proof.
  intros Hc Hm.
  apply m_sound in Hm as (y' & HM & [= ->]).
  apply domainRegex_shape in HM
    as (label & post & Ea & Ey & _ & Hlabel & _ & _).
  cbn [after] in Ea.
  rewrite (@consumed_passes _ y (label ++ js ".sol"))
    by (cbn [after]; rewrite Ea, Ey, <- app_assoc; reflexivity).
  rewrite (length_app p2 [c]). cbn [length].
  destruct (Nat.le_gt_cases (length (label ++ js ".sol")) (length p2))
    as [Hle|Hgt]; [lia|].
  exfalso.
  assert (Hin : In c (label ++ js ".sol")).
  { apply (@split_inside (label ++ js ".sol") post p2 suf c); [|exact Hgt].
    rewrite <- app_assoc, <- Ea, <- app_assoc. reflexivity. }
  apply in_app_or in Hin as [Hin|Hin].
  - apply (proj1 (forallb_forall _ _) Hlabel) in Hin.
    apply labelChar_not_space in Hin. congruence.
  - cbn in Hin.
    destruct Hin as [<-|[<-|[<-|[<-|[]]]]]; discriminate.
Qed.

Lemma replaceFirst_label : forall label,
  forallb isLabelChar label = true ->
  replaceFirst (js ".sol") [] (label ++ js ".sol") = label.
Proof.
  induction label as [|c label IH]; intros H; [reflexivity|].
  cbn in H. apply andb_true_iff in H as [Hc H].
  cbn [app replaceFirst].
  change (js ".sol") with (ch "." :: js "sol") at 1.
  cbn [startsWith]. rewrite (labelChar_not_dot _ Hc). cbn [andb].
  f_equal. apply IH, H.
Qed.

(** The converse of the boundary property of the domains: a non-empty
    label of letters, digits, [_] and [-] followed by [.sol], standing
    between white space or the ends of the text, is returned. *)
Theorem domain_between_white_space_is_extracted pre label post :
  label <> [] -> forallb isLabelChar label = true ->
  match rev pre with [] => True | c :: _ => isWhiteSpace c = true end ->
  match post with [] => True | c :: _ => isWhiteSpace c = true end ->
  In (label ++ js ".sol")
     (extractSolanaDomainsFromText (pre ++ label ++ js ".sol" ++ post)).
Proof.
  intros Hne Hlabel Hpre Hpost.
  unfold extractSolanaDomainsFromText.
  assert (Htext : truthy (pre ++ label ++ js ".sol" ++ post) = true).
  { destruct pre; [|reflexivity]. destruct label; [congruence|reflexivity]. }
  rewrite Htext. cbn [negb].
  apply in_uniqFrom_inv; [|reflexivity].
  apply filter_In. split.
  - apply in_map_iff.
    destruct (@domainRegex_hits (rev pre ++ []) label post Hne Hlabel)
      as (z & Hm & Hz); [rewrite app_nil_r; exact Hpre|exact Hpost|].
    destruct (@scan_reaches domainRegex (label ++ js ".sol" ++ post)
                pre [] 0 (Nat.le_0_l _)) as (ms & Hms).
    { intros p1 c p2 y E _ Hmy.
      assert (Hlast : exists p2' d, c :: p2 = p2' ++ [d]
                                    /\ isWhiteSpace d = true).
      { assert (Er : rev pre = rev (c :: p2) ++ rev p1)
          by (rewrite E, rev_app_distr; reflexivity).
        destruct (rev (c :: p2)) as [|d r2] eqn:E2.
        - apply (f_equal (@rev char)) in E2.
          rewrite rev_involutive in E2. discriminate.
        - rewrite Er in Hpre. cbn [app] in Hpre.
          exists (rev r2), d. split; [|exact Hpre].
          apply (f_equal (@rev char)) in E2.
          rewrite rev_involutive in E2. exact E2. }
      destruct Hlast as (p2' & d & E2 & Hd).
      rewrite E2 in *.
      exact (domain_match_stops_at_space _ _ _ _ Hd Hmy). }
    destruct (scan_head _ _ _ Hm) as (tl & Htl).
    eexists. split; [|unfold matchAll; rewrite Hms, Htl;
                      apply in_or_app; right; left; reflexivity].
    unfold result_of. cbn [whole].
    apply consumed_passes. cbn [after]. rewrite Hz, <- app_assoc.
    reflexivity.
  - assert (Hlen : (length (label ++ js ".sol") <? 4) = false).
    { apply Nat.ltb_ge. rewrite length_app. cbn. lia. }
    assert (Htr : truthy (label ++ js ".sol") = true)
      by (destruct label; [congruence|reflexivity]).
    rewrite Htr, Hlen. cbn [negb orb].
    assert (Hend : endsWith (js ".sol") (label ++ js ".sol") = true)
      by (unfold endsWith; rewrite rev_app_distr; apply startsWith_app).
    rewrite Hend. cbn [negb].
    rewrite (replaceFirst_label _ Hlabel).
    unfold labelOnly. rewrite test_anchored_class, Hlabel.
    destruct label; [congruence|reflexivity].
Qed.

Lemma domain_between_white_space_is_extracted_witness :
  In (js "my-name_1" ++ js ".sol")
     (extractSolanaDomainsFromText
        (js "tip example.sol or " ++ js "my-name_1" ++ js ".sol"
         ++ js " today")).
Proof.
  apply (@domain_between_white_space_is_extracted (js "tip example.sol or ")
           (js "my-name_1") (js " today"));
    [discriminate|reflexivity|reflexivity|reflexivity].
Defined.

End DomainCompleteness.

(* ================================================================== *)
(** * The first address and the first domain of a page *)
(* ================================================================== *)
Section FirstInTextOrder.

(** ** A scan visits the matches from left to right *)

Lemma scan_indices r : forall aft bef skip,
  Forall (fun mt => length bef + skip <= index mt) (scan r bef aft skip)
  /\ StronglySorted (fun a b => index a < index b) (scan r bef aft skip).
Proof.
  induction aft as [|c rest IH]; intros bef skip.
  - destruct skip; cbn [scan]; [|split; constructor].
    destruct (m r Some (MState bef [] [])) as [y|];
      [|split; constructor].
    split; repeat constructor. cbn. lia.
  - assert (Hnext : forall s k,
              k <= S s ->
              Forall (fun mt => length bef + k <= index mt)
                     (scan r (c :: bef) rest s)
              /\ StronglySorted (fun a b => index a < index b)
                                (scan r (c :: bef) rest s)).
    { intros s k Hk. destruct (IH (c :: bef) s) as [HF HS].
      split; [|exact HS].
      eapply Forall_impl; [|exact HF]. intros mt H.
      cbn [length] in H. cbv beta in *. lia. }
    destruct skip as [|s]; cbn [scan]; [|apply Hnext; lia].
    destruct (m r Some (MState bef (c :: rest) [])) as [y|];
      [|apply Hnext; lia].
    destruct (Hnext (pred (length (consumed (MState bef (c :: rest) []) y))) 1)
      as [HF HS]; [lia|].
    split.
    + constructor; [cbn; lia|].
      eapply Forall_impl; [|exact HF]. intros mt H. cbv beta in *. lia.
    + constructor; [exact HS|].
      eapply Forall_impl; [|exact HF]. intros mt H.
      cbn [result_of index before] in *. lia.
Qed.

Lemma filter_sorted (A : Type) (R : A -> A -> Prop) (f : A -> bool) :
  forall l, StronglySorted R l -> StronglySorted R (filter f l).
Proof.
  induction l as [|a l IH]; intros H; [constructor|].
  apply StronglySorted_inv in H as [Hl Ha]. cbn [filter].
  destruct (f a); [|auto].
  constructor; [auto|].
  apply Forall_forall. intros x Hx. apply filter_In in Hx as [Hx _].
  exact (proj1 (Forall_forall _ _) Ha x Hx).
Qed.

Lemma flat_map_if (A B : Type) (p : A -> bool) (g : A -> B) : forall l,
  flat_map (fun a => if p a then [g a] else []) l = map g (filter p l).
Proof.
  induction l as [|a l IH]; [reflexivity|].
  cbn [flat_map filter]. rewrite IH. destruct (p a); reflexivity.
Qed.

Lemma head_uniq xs : head (uniq xs) = head xs.
Proof. destruct xs; reflexivity. Qed.

(** ** Addresses *)

(** At the start of the text the address pattern matches a maximal run
    of 32 to 44 base58 characters. *)
Lemma addressRegex_at_start run rest :
  forallb isBase58 run = true ->
  32 <= length run <= 44 ->
  match rest with [] => True | d :: _ => isBase58 d = false end ->
  m addressRegex Some (MState [] (run ++ rest) [])
  = Some (MState (rev run ++ []) rest [(1, run)]).
Proof.
  intros Hrun Hlen Hrest.
  unfold addressRegex, notChr. cbn [seqs].
  rewrite m_seq, m_alt, m_bol. cbn [before].
  replace (m (Seq (Group 1 (Rep (Chr isBase58) 32 (Some 44)))
                  (Ahead false (Chr isBase58))) Some
             (MState [] (run ++ rest) []))
    with (Some (MState (rev run ++ []) rest [(1, run)])); [reflexivity|].
  symmetry. rewrite m_seq, m_group, m_rep.
  apply (rep_chr_run _ _ run _ rest); cbn [after before caps]; auto.
  rewrite (consumed_passes _ _ run) by reflexivity.
  rewrite m_not_ahead.
  destruct rest as [|d rest]; [rewrite m_chr_nil; reflexivity|].
  rewrite m_chr_cons, Hrest. reflexivity.
Qed.

(** A match of the address pattern that starts before a character that
    is not base58 ends at that character at the latest. *)
Lemma address_match_stops q c suf bef y :
  q <> [] -> isBase58 c = false ->
  m addressRegex Some (MState bef (q ++ c :: suf) []) = Some y ->
  length (consumed (MState bef (q ++ c :: suf) []) y) <= length q.
Proof.
  intros Hq Hc Hm.
  apply m_sound in Hm as (y' & HM & [= ->]).
  apply addressRegex_shape in HM
    as (lead & w & Ea & _ & _ & Hw & _ & Hlead & _).
  cbn [after] in Ea.
  rewrite (@consumed_passes _ y (lead ++ w))
    by (cbn [after]; rewrite Ea, <- app_assoc; reflexivity).
  destruct (Nat.le_gt_cases (length (lead ++ w)) (length q)) as [Hle|Hgt];
    [exact Hle|].
  exfalso.
  assert (Hin : In c w).
  { destruct lead as [|l0 [|l1 lead]]; [| |cbn in Hlead; lia].
    - apply (@split_inside w (after y) q suf c); [|exact Hgt].
      symmetry. exact Ea.
    - destruct q as [|q0 q']; [congruence|].
      cbn [app] in Ea. injection Ea as _ Ea.
      apply (@split_inside w (after y) q' suf c); [symmetry; exact Ea|].
      cbn [app length] in Hgt. lia. }
  apply (proj1 (forallb_forall _ _) Hw) in Hin. congruence.
Qed.

(** Every maximal run of 32 to 44 base58 characters is matched, with the
    start index of the run. *)
Lemma run_is_matched text i a :
  maximalRunAt text i a -> 32 <= length a <= 44 ->
  exists mt,
    In mt (matchAll addressRegex text)
    /\ group 1 mt = a /\ addressStartIndex mt = i.
Proof.
  intros (pre & post & -> & <- & Ha & Hpre & Hpost) Hlen.
  destruct (rev pre) as [|c r] eqn:E.
  - assert (pre = []) by (destruct pre; [reflexivity|];
                          apply (f_equal (@length char)) in E;
                          rewrite length_rev in E; discriminate).
    subst pre. cbn [app length].
    pose proof (addressRegex_at_start a post Ha Hlen Hpost) as Hm.
    destruct (scan_head _ _ _ Hm) as (tl & Htl).
    eexists. split; [unfold matchAll; rewrite Htl; left; reflexivity|].
    unfold addressStartIndex, group, result_of.
    cbn [groups caps lookup Nat.eqb index whole before length].
    rewrite (consumed_passes _ _ a) by reflexivity.
    split; [reflexivity|lia].
  - apply rev_head_last in E. subst pre.
    rewrite <- app_assoc. cbn [app].
    destruct (@scan_reaches addressRegex (c :: a ++ post) (rev r) [] 0
                (Nat.le_0_l _)) as (ms & Hms).
    { intros p1 c' p2 y _ _ Hmy.
      apply (@address_match_stops (c' :: p2) c (a ++ post) _ y);
        [discriminate|exact Hpre|exact Hmy]. }
    pose proof (@addressRegex_at_run (rev (rev r) ++ []) c a post Hpre Ha
                  Hlen Hpost) as Hm.
    destruct (scan_head _ _ _ Hm) as (tl & Htl).
    eexists. split.
    { unfold matchAll. rewrite Hms, Htl.
      apply in_or_app. right. left. reflexivity. }
    unfold addressStartIndex, group, result_of.
    cbn [groups caps lookup Nat.eqb index whole before].
    rewrite (consumed_passes _ _ (c :: a)) by reflexivity.
    split; [reflexivity|].
    rewrite !length_app, length_rev. cbn [length]. lia.
Qed.

Lemma match_start_bounds text mt :
  In mt (matchAll addressRegex text) ->
  index mt <= addressStartIndex mt <= index mt + 1.
Proof.
  intros H.
  apply scan_sound in H as (x & y & -> & HM & _ & _).
  apply addressRegex_shape in HM
    as (lead & w & Ea & Hc & _ & _ & _ & Hlead & _).
  unfold addressStartIndex, group, result_of.
  cbn [index whole groups]. rewrite Hc. cbn [lookup Nat.eqb].
  rewrite (consumed_passes x y (lead ++ w))
    by (rewrite Ea, app_assoc; reflexivity).
  rewrite length_app. lia.
Qed.

Lemma candidates_filtered text :
  addressCandidates text
  = map (fun mt => (addressStartIndex mt, group 1 mt))
      (filter
         (fun mt =>
            isValidSolanaAddress (group 1 mt)
            && negb (isPartOfUrl text (addressStartIndex mt)
                       (length (group 1 mt))))
         (matchAll addressRegex text)).
Proof.
  unfold addressCandidates.
  exact (flat_map_if
           (fun mt =>
              isValidSolanaAddress (group 1 mt)
              && negb (isPartOfUrl text (addressStartIndex mt)
                         (length (group 1 mt))))
           (fun mt => (addressStartIndex mt, group 1 mt))
           (matchAll addressRegex text)).
Qed.

Lemma recognised_is_candidate text i a :
  addressAt text i a -> In (i, a) (addressCandidates text).
Proof.
  intros (Hrun & Hlen & Hv & Hu).
  destruct (run_is_matched Hrun Hlen) as (mt & Hin & Hg & Hi).
  rewrite candidates_filtered. apply in_map_iff.
  exists mt. rewrite Hg, Hi. split; [reflexivity|].
  apply filter_In. split; [exact Hin|].
  rewrite Hg, Hi, Hv, Hu. reflexivity.
Qed.

(** The first address returned for a text is the recognised address
    with the least index, and none is returned when none is
    recognised. *)
Lemma first_address text :
  firstAt (addressAt text) (head (extractSolanaAddressesWithBoundary text)).
Proof.
  assert (Hhead : head (extractSolanaAddressesWithBoundary text)
                  = head (map snd (addressCandidates text))).
  { unfold extractSolanaAddressesWithBoundary.
    destruct text as [|c t]; [reflexivity|].
    cbn [truthy negb]. apply head_uniq. }
  rewrite Hhead.
  pose proof (candidates_filtered text) as Hc.
  pose proof (proj2 (scan_indices addressRegex text [] 0)) as Hs.
  apply (filter_sorted
           (fun mt =>
              isValidSolanaAddress (group 1 mt)
              && negb (isPartOfUrl text (addressStartIndex mt)
                         (length (group 1 mt))))) in Hs.
  fold (matchAll addressRegex text) in Hs.
  destruct (filter _ (matchAll addressRegex text)) as [|mt0 rest] eqn:Ef.
  - rewrite Hc. cbn. intros i a H.
    apply recognised_is_candidate in H. rewrite Hc in H. destruct H.
  - rewrite Hc. cbn [map head snd].
    assert (Hin0 : In mt0 (matchAll addressRegex text)).
    { eapply proj1. apply filter_In. rewrite Ef. left. reflexivity. }
    exists (addressStartIndex mt0). split.
    + assert (H : In (addressStartIndex mt0, group 1 mt0)
                     (addressCandidates text))
        by (rewrite Hc; left; reflexivity).
      apply candidates_are_runs in H. exact H.
    + intros j b H. apply recognised_is_candidate in H.
      rewrite Hc in H. apply in_map_iff in H as (mt & E & [<-|Hin]).
      * injection E as <- _. lia.
      * injection E as <- _.
        apply StronglySorted_inv in Hs as [_ Hs].
        pose proof (proj1 (Forall_forall _ _) Hs mt Hin) as Hlt.
        assert (Hin' : In mt (matchAll addressRegex text)).
        { eapply proj1. apply filter_In. rewrite Ef. right. exact Hin. }
        pose proof (match_start_bounds _ _ Hin0).
        pose proof (match_start_bounds _ _ Hin'). cbv beta in *. lia.
Qed.

(** ** Domains *)

Lemma domain_matches text mt :
  In mt (matchAll domainRegex text) -> domainAt text (index mt) (whole mt).
Proof.
  intros H.
  apply scan_sound in H as (x & y & -> & HM & _ & Htext).
  apply domainRegex_shape in HM
    as (label & post & Ea & Ey & Hne & Hl & Hb & Hp).
  cbn [app rev] in Htext. cbn [result_of index whole].
  assert (Hc : consumed x y = label ++ js ".sol").
  { apply consumed_passes. rewrite Ea, Ey, <- app_assoc. reflexivity. }
  rewrite Hc.
  exists (rev (before x)), label, post.
  split; [rewrite <- Htext, Ea, <- app_assoc; reflexivity|].
  split; [apply length_rev|]. split; [reflexivity|].
  rewrite rev_involutive. auto.
Qed.

Lemma domain_is_matched text i d :
  domainAt text i d ->
  exists mt, In mt (matchAll domainRegex text)
             /\ whole mt = d /\ index mt = i.
Proof.
  intros (pre & label & post & -> & <- & -> & Hne & Hlabel & Hpre & Hpost).
  destruct (@domainRegex_hits (rev pre ++ []) label post Hne Hlabel)
    as (z & Hm & Hz); [rewrite app_nil_r; exact Hpre|exact Hpost|].
  rewrite <- app_assoc.
  destruct (@scan_reaches domainRegex (label ++ js ".sol" ++ post)
              pre [] 0 (Nat.le_0_l _)) as (ms & Hms).
  { intros p1 c p2 y E _ Hmy.
    assert (Hlast : exists p2' d, c :: p2 = p2' ++ [d]
                                  /\ isWhiteSpace d = true).
    { assert (Er : rev pre = rev (c :: p2) ++ rev p1)
        by (rewrite E, rev_app_distr; reflexivity).
      destruct (rev (c :: p2)) as [|d r2] eqn:E2.
      - apply (f_equal (@rev char)) in E2.
        rewrite rev_involutive in E2. discriminate.
      - rewrite Er in Hpre. cbn [app] in Hpre.
        exists (rev r2), d. split; [|exact Hpre].
        apply (f_equal (@rev char)) in E2.
        rewrite rev_involutive in E2. exact E2. }
    destruct Hlast as (p2' & d & E2 & Hd).
    rewrite E2 in *.
    exact (domain_match_stops_at_space _ _ _ _ Hd Hmy). }
  destruct (scan_head _ _ _ Hm) as (tl & Htl).
  eexists. split; [unfold matchAll; rewrite Hms, Htl;
                   apply in_or_app; right; left; reflexivity|].
  unfold result_of. cbn [whole index before]. split.
  - apply consumed_passes. cbn [after]. rewrite Hz, <- app_assoc.
    reflexivity.
  - rewrite app_nil_r. apply length_rev.
Qed.

Lemma label_sol_passes label :
  label <> [] -> forallb isLabelChar label = true ->
  (if negb (truthy (label ++ js ".sol"))
      || (length (label ++ js ".sol") <? 4)
   then false
   else if negb (endsWith (js ".sol") (label ++ js ".sol")) then false
        else test labelOnly (replaceFirst (js ".sol") [] (label ++ js ".sol")))
  = true.
Proof.
  intros Hne Hlabel.
  assert (Hlen : (length (label ++ js ".sol") <? 4) = false).
  { apply Nat.ltb_ge. rewrite length_app. cbn. lia. }
  assert (Htr : truthy (label ++ js ".sol") = true)
    by (destruct label; [congruence|reflexivity]).
  rewrite Htr, Hlen. cbn [negb orb].
  assert (Hend : endsWith (js ".sol") (label ++ js ".sol") = true)
    by (unfold endsWith; rewrite rev_app_distr; apply startsWith_app).
  rewrite Hend. cbn [negb].
  rewrite (replaceFirst_label _ Hlabel).
  unfold labelOnly. rewrite test_anchored_class, Hlabel.
  destruct label; [congruence|reflexivity].
Qed.

(** The first domain returned for a text is the recognised domain with
    the least index, and none is returned when none is recognised. *)
Lemma first_domain text :
  firstAt (domainAt text) (head (extractSolanaDomainsFromText text)).
Proof.
  assert (Hhead : head (extractSolanaDomainsFromText text)
                  = head (map whole (matchAll domainRegex text))).
  { unfold extractSolanaDomainsFromText.
    destruct text as [|c t]; [reflexivity|].
    cbn [truthy negb]. rewrite head_uniq.
    rewrite forallb_filter_id; [reflexivity|].
    apply forallb_forall. intros d Hd.
    apply in_map_iff in Hd as (mt & <- & Hmt).
    apply domain_matches in Hmt
      as (pre & label & post & _ & _ & -> & Hne & Hlabel & _).
    exact (label_sol_passes Hne Hlabel). }
  rewrite Hhead.
  pose proof (proj2 (scan_indices domainRegex text [] 0)) as Hs.
  fold (matchAll domainRegex text) in Hs.
  destruct (matchAll domainRegex text) as [|mt0 rest] eqn:Em.
  - cbn. intros i d H.
    apply domain_is_matched in H as (mt & Hin & _). rewrite Em in Hin.
    destruct Hin.
  - cbn [map head]. exists (index mt0). split.
    + apply domain_matches. rewrite Em. left. reflexivity.
    + intros j e H.
      apply domain_is_matched in H as (mt & Hin & _ & <-).
      rewrite Em in Hin. destruct Hin as [<-|Hin]; [lia|].
      apply StronglySorted_inv in Hs as [_ Hs].
      pose proof (proj1 (Forall_forall _ _) Hs mt Hin). cbv beta in *. lia.
Qed.

(** ** The sanitised text keeps the order of the page text *)

Lemma replaceScan_blanked r : forall aft bef skip,
  Blanked (skipn skip aft) (replaceScan r (js " ") bef aft skip).
Proof.
  induction aft as [|c rest IH]; intros bef skip.
  - destruct skip; cbn [skipn replaceScan]; [|constructor].
    destruct (m r Some (MState bef [] [])); [|constructor].
    apply (Blanked_cut [] Blanked_nil).
  - destruct skip as [|s]; cbn [skipn replaceScan]; [|apply IH].
    destruct (m r Some (MState bef (c :: rest) [])) as [y|].
    + destruct (length (consumed (MState bef (c :: rest) []) y)) as [|n].
      * apply (@Blanked_cut [] (c :: rest)). constructor.
        exact (IH (c :: bef) 0).
      * rewrite <- (firstn_skipn n rest) at 1.
        apply (@Blanked_cut (c :: firstn n rest) (skipn n rest)).
        apply IH.
    + constructor. exact (IH (c :: bef) 0).
Qed.

Lemma sanitised_blanked text :
  exists mid,
    Blanked text mid /\ Blanked mid (removeUrlTransactionSignatures text).
Proof.
  unfold removeUrlTransactionSignatures.
  destruct text as [|c t]; [exists []; split; constructor|].
  cbn [truthy negb fold_left].
  exists (replaceAll txUrl (js " ") (c :: t)).
  split; [exact (replaceScan_blanked txUrl (c :: t) [] 0)|].
  exact (replaceScan_blanked txsUrl (replaceAll txUrl (js " ") (c :: t))
           [] 0).
Qed.



End FirstInTextOrder.
